(** * Gaussian belief propagation on a factor graph (gbp/gbp.py)

    A shallow embedding of the classes [FactorGraph], [VariableNode] and
    [Factor] over the real numbers, and the properties of their methods.

    Conventions of the embedding.
    - numpy floats are real numbers ([R]); a 1-D array is a list, a 2-D
      array a list of rows.  Rounding is outside the model, and so is a
      vanishing divisor, for which numpy yields an infinity or NaN and a
      Python float raises [ZeroDivisionError]: the division is that of
      the reals, and a property that says that a method returns assumes
      its divisors other than 0.
    - Ids, positions and references are natural numbers; the iteration
      counters are integers.
    - Python objects live in a store: a variable node or a factor is named
      by a reference, and the lists [var_nodes], [factors], [adj_factors]
      and [adj_var_nodes] hold references, so that two lists naming the
      same object see the same mutations.
    - An exception aborts the method and leaves the store as it is at that
      point; a method is a function from the store to an outcome and the
      store reached.
    - Element-wise array arithmetic, additions into slices and products
      are defined on operands whose shapes agree (numpy raises
      [ValueError] or broadcasts otherwise, where the lists truncate);
      shapes agree in every graph whose blocks have the sizes of the
      degrees of freedom of its variables, and a property that says that
      a method returns, or what it raises, is stated for such graphs.
    - The constructor arguments [*args] of a factor are closed over in
      [meas_fn] and [jac_fn]; the fields [timestamp], [prior_lambda_end]
      and [prior_lambda_logdiff] of a variable node, which no method below
      reads, are left out, as are plotting and the debug file of
      [compute_messages]. *)

From Stdlib Require Import Reals Lra Lia ZArith String.
From Stdlib Require Import ClassicalEpsilon.
From stdpp Require Import base list.
Import ListNotations.

Open Scope R_scope.

(** ** Exceptions and outcomes *)

(** The exceptions the modelled code can raise: [LinAlgError] from
    [np.linalg.inv], [ValueError] from [list.index], [list.remove] and
    ragged [np.asarray], [IndexError] from subscripts. *)
Inductive exn : Type :=
  | LinAlgError
  | ValueError
  | IndexError.

Definition result (A : Type) : Type := (exn + A)%type.

Abbreviation Ok a := (inr a).
Abbreviation Raise e := (inl e).

Definition rbind {A B : Type} (r : result A) (k : A -> result B) : result B :=
  match r with
  | inl e => inl e
  | inr a => k a
  end.

Definition of_option {A : Type} (e : exn) (o : option A) : result A :=
  match o with
  | Some a => Ok a
  | None => Raise e
  end.

(** A method over a mutable state [S]: the outcome and the state reached.
    On an exception the state is the one at the point of failure. *)
Definition M (S A : Type) : Type := S -> result A * S.

Definition ret {S A : Type} (a : A) : M S A := fun s => (Ok a, s).
Definition throw {S A : Type} (e : exn) : M S A := fun s => (Raise e, s).
Definition bind {S A B : Type} (m : M S A) (k : A -> M S B) : M S B :=
  fun s => match m s with
           | (inl e, s') => (inl e, s')
           | (inr a, s') => k a s'
           end.
Definition get {S : Type} : M S S := fun s => (Ok s, s).
Definition put {S : Type} (s : S) : M S unit := fun _ => (Ok tt, s).
Definition modify {S : Type} (f : S -> S) : M S unit := fun s => (Ok tt, f s).
Definition lift {S A : Type} (r : result A) : M S A := fun s => (r, s).

Declare Scope gbp_scope.
Delimit Scope gbp_scope with gbp.
Notation "'let*' x ':=' c 'in' k" := (bind c (fun x => k))
  (at level 10, x name, c at level 100, k at level 200) : gbp_scope.
Notation "'let?' x ':=' c 'in' k" := (rbind c (fun x => k))
  (at level 10, x name, c at level 100, k at level 200) : gbp_scope.
Notation "c1 ';;;' c2" := (bind c1 (fun _ => c2))
  (at level 100, c2 at level 200, right associativity) : gbp_scope.
Open Scope gbp_scope.

(** [for x in xs: body x], the list being fixed during the loop. *)
Fixpoint for_each {S A : Type} (xs : list A) (body : A -> M S unit) : M S unit :=
  match xs with
  | [] => ret tt
  | x :: xs' => body x ;;; for_each xs' body
  end.

(** ** Comparisons of floats *)

Definition Rgtb (x y : R) : bool := if Rgt_dec x y then true else false.
Arguments Rgtb : simpl never.

(** ** Dense linear algebra on lists *)

Definition vec : Type := list R.
Definition mat : Type := list (list R).

Definition vzero (d : nat) : vec := repeat 0 d.
Definition mzero (r c : nat) : mat := repeat (repeat 0 c) r.

Definition vadd (u v : vec) : vec := zip_with Rplus u v.
Definition vsub (u v : vec) : vec := zip_with Rminus u v.
Definition vscale (a : R) (v : vec) : vec := map (Rmult a) v.
Definition madd (A B : mat) : mat := zip_with vadd A B.
Definition msub (A B : mat) : mat := zip_with vsub A B.
Definition mscale (a : R) (A : mat) : mat := map (vscale a) A.
(** [v *= k] and [A *= k], [v / k] and [A / k]. *)
Definition vimul (v : vec) (k : R) : vec := map (fun x => x * k) v.
Definition mimul (A : mat) (k : R) : mat := map (fun row => vimul row k) A.
Definition mdiv (A : mat) (k : R) : mat := map (map (fun x => x / k)) A.

Definition sum_R (v : vec) : R := fold_right Rplus 0 v.
Definition dot (u v : vec) : R := sum_R (zip_with Rmult u v).
Definition sumsq (v : vec) : R := dot v v.

Definition ncols (A : mat) : nat := length (hd [] A).
Definition mcol (A : mat) (j : nat) : vec := map (fun row => nth j row 0) A.
Definition transpose (A : mat) : mat := map (mcol A) (seq 0 (ncols A)).

(** [A @ x], [A @ B], [np.eye n], [np.outer u v]. *)
Definition mat_vec (A : mat) (x : vec) : vec := map (fun row => dot row x) A.
(** A 2-D array without rows still has columns in numpy; a list of rows
    forgets them.  [mmulc c A B] is [A @ B] for a right operand of [c]
    columns, and [mmul] takes [c] from the first row of [B]. *)
Definition mmulc (c : nat) (A B : mat) : mat :=
  map (fun row => map (fun j => dot row (mcol B j)) (seq 0 c)) A.
Definition mmul (A B : mat) : mat := mmulc (ncols B) A B.
Definition eye (n : nat) : mat :=
  map (fun i => map (fun j => if Nat.eqb i j then 1 else 0) (seq 0 n)) (seq 0 n).
Definition outer (u v : vec) : mat := map (fun a => vscale a v) u.

(** [np.linalg.norm] of a 1-D array, and the Frobenius norm of a 2-D one. *)
Definition norm (v : vec) : R := sqrt (sumsq v).
Definition msumsq (A : mat) : R := sum_R (map sumsq A).

Definition square (n : nat) (A : mat) : Prop :=
  length A = n /\ Forall (fun row => length row = n) A.

(** ** Matrix inversion

    [np.linalg.inv] belongs to the linear-algebra provider.  In exact
    arithmetic it returns the inverse of a square matrix that has one and
    raises [LinAlgError] on every other argument; [inv] is that function. *)

Definition is_inverse (A B : mat) : Prop :=
  square (length A) A /\ square (length A) B /\
  mmul A B = eye (length A) /\ mmul B A = eye (length A).

Definition invertible (A : mat) : Prop := exists B, is_inverse A B.
Definition singular (A : mat) : Prop := ~ invertible A.

Definition inv (A : mat) : result mat :=
  match excluded_middle_informative (invertible A) with
  | left H => Ok (proj1_sig (constructive_indefinite_description _ H))
  | right _ => Raise LinAlgError
  end.

(** ** Slices

    [v[a:b]] clips to the bounds of the array, as numpy does. *)
Definition slice {A : Type} (a b : nat) (l : list A) : list A :=
  take (b - a) (drop a l).
Definition mslice (r0 r1 c0 c1 : nat) (A : mat) : mat :=
  map (slice c0 c1) (slice r0 r1 A).

(** [v[a:a+d] += x]: the entries of the slice are increased by [x]. *)
Definition vadd_at (a d : nat) (x v : vec) : vec :=
  take a v ++ vadd (slice a (a + d) v) x ++ drop (a + d) v.
(** [A[r:r+h, c:c+w] += B]. *)
Definition madd_at (r h c w : nat) (B A : mat) : mat :=
  take r A ++ zip_with (fun row brow => vadd_at c w brow row) (slice r (r + h) A) B
         ++ drop (r + h) A.

(** [scipy.linalg.block_diag A B]. *)
Definition block_diag (A B : mat) : mat :=
  map (fun row => row ++ vzero (ncols B)) A ++
  map (fun row => vzero (ncols A) ++ row) B.

(** ** Canonical Gaussians *)

Record NdimGaussian : Type := mkGaussian { eta : vec; lam : mat }.

(** Modelled from the spec: the class [NdimGaussian] of [utils/gaussian.py]
    is not among the sources; [NdimGaussian(d)] is the spec's
    [identity(d)], the pair (0, 0) of a zero vector of size [d] and a zero
    [d] x [d] matrix. *)
Definition NdimGaussian_init (d : nat) : NdimGaussian :=
  {| eta := vzero d; lam := mzero d d |}.

(** The product of two canonical Gaussians: [eta += eta'; lam += lam']. *)
Definition gaussian_add (g g' : NdimGaussian) : NdimGaussian :=
  {| eta := vadd (eta g) (eta g'); lam := madd (lam g) (lam g') |}.

(** ** Arrays of unknown rank

    Measurements, predictions and Jacobians are floats, 1-D or 2-D arrays
    depending on the measurement model. *)
Inductive ndarray : Type :=
  | Scal (x : R)
  | Arr1 (v : vec)
  | Arr2 (A : mat).

(** [x - y], a scalar operand being broadcast.  Operands of two different
    ranks above 0 do not occur in a well-formed graph and raise. *)
Definition nd_sub (x y : ndarray) : result ndarray :=
  match x, y with
  | Scal a, Scal b => Ok (Scal (a - b))
  | Arr1 u, Scal b => Ok (Arr1 (map (fun a => a - b) u))
  | Scal a, Arr1 v => Ok (Arr1 (map (fun b => a - b) v))
  | Arr1 u, Arr1 v => Ok (Arr1 (vsub u v))
  | Arr2 A, Scal b => Ok (Arr2 (map (map (fun a => a - b)) A))
  | Scal a, Arr2 B => Ok (Arr2 (map (map (fun b => a - b)) B))
  | Arr2 A, Arr2 B => Ok (Arr2 (msub A B))
  | _, _ => Raise ValueError
  end.

(** The sum of the squares of all entries. *)
Definition nd_sumsq (x : ndarray) : R :=
  match x with
  | Scal a => a * a
  | Arr1 v => sumsq v
  | Arr2 A => msumsq A
  end.

(** [np.linalg.norm x] with the default order: the root of the sum of the
    squares of all entries, for every rank. *)
Definition nd_norm (x : ndarray) : R := sqrt (nd_sumsq x).

Definition same_shape (x y : ndarray) : bool :=
  match x, y with
  | Scal _, Scal _ => true
  | Arr1 u, Arr1 v => Nat.eqb (length u) (length v)
  | Arr2 A, Arr2 B =>
      Nat.eqb (length A) (length B) &&
      bool_decide (map length A = map length B)
  | _, _ => false
  end.

(** [np.linalg.norm((x, y))]: the tuple is first made an array, which
    needs both members to have one shape ([ValueError] otherwise); the norm
    is then taken over the entries of both members. *)
Definition norm_pair (x y : ndarray) : result R :=
  if same_shape x y then Ok (sqrt (nd_sumsq x + nd_sumsq y))
  else Raise ValueError.

(** ** The classes *)

(** References to variable nodes and to factors. *)
Abbreviation VRef := nat.
Abbreviation FRef := nat.

Module VariableNode.
Record t : Type := mk {
  variableID : nat;
  adj_factors : list FRef;
  mu : vec;
  Sigma : mat;
  belief : NdimGaussian;
  prior : NdimGaussian;
  dofs : nat
}.

Definition set_adj_factors (x : list FRef) (v : t) : t :=
  mk (variableID v) x (mu v) (Sigma v) (belief v) (prior v) (dofs v).
Definition set_mu (x : vec) (v : t) : t :=
  mk (variableID v) (adj_factors v) x (Sigma v) (belief v) (prior v) (dofs v).
Definition set_Sigma (x : mat) (v : t) : t :=
  mk (variableID v) (adj_factors v) (mu v) x (belief v) (prior v) (dofs v).
Definition set_belief (x : NdimGaussian) (v : t) : t :=
  mk (variableID v) (adj_factors v) (mu v) (Sigma v) x (prior v) (dofs v).

(** [VariableNode(variable_id, dofs)]. *)
Definition init (variable_id dofs : nat) : t :=
  {| variableID := variable_id;
     adj_factors := [];
     mu := vzero dofs;
     Sigma := mzero dofs dofs;
     belief := NdimGaussian_init dofs;
     prior := NdimGaussian_init dofs;
     dofs := dofs |}.
End VariableNode.

Module Factor.
Record t : Type := mk {
  factorID : nat;
  dofs_conditional_vars : nat;
  adj_var_nodes : list VRef;
  adj_vIDs : list nat;
  adj_beliefs : list NdimGaussian;
  messages : list NdimGaussian;
  factor : NdimGaussian;
  linpoint : vec;
  measurement : ndarray;
  scale_factor : ndarray;
  gauss_noise_var : R;
  meas_fn : vec -> ndarray;
  jac_fn : vec -> ndarray;
  adaptive_gauss_noise_var : R;
  loss : option string;
  mahalanobis_threshold : R;
  robust_flag : bool;
  eta_damping : R;
  iters_since_relin : Z
}.

Definition set_adj_beliefs (x : list NdimGaussian) (f : t) : t :=
  mk (factorID f) (dofs_conditional_vars f) (adj_var_nodes f) (adj_vIDs f)
     x (messages f) (factor f) (linpoint f) (measurement f)
     (scale_factor f) (gauss_noise_var f) (meas_fn f) (jac_fn f)
     (adaptive_gauss_noise_var f) (loss f) (mahalanobis_threshold f)
     (robust_flag f) (eta_damping f) (iters_since_relin f).
Definition set_messages (x : list NdimGaussian) (f : t) : t :=
  mk (factorID f) (dofs_conditional_vars f) (adj_var_nodes f) (adj_vIDs f)
     (adj_beliefs f) x (factor f) (linpoint f) (measurement f)
     (scale_factor f) (gauss_noise_var f) (meas_fn f) (jac_fn f)
     (adaptive_gauss_noise_var f) (loss f) (mahalanobis_threshold f)
     (robust_flag f) (eta_damping f) (iters_since_relin f).
Definition set_factor (x : NdimGaussian) (f : t) : t :=
  mk (factorID f) (dofs_conditional_vars f) (adj_var_nodes f) (adj_vIDs f)
     (adj_beliefs f) (messages f) x (linpoint f) (measurement f)
     (scale_factor f) (gauss_noise_var f) (meas_fn f) (jac_fn f)
     (adaptive_gauss_noise_var f) (loss f) (mahalanobis_threshold f)
     (robust_flag f) (eta_damping f) (iters_since_relin f).
Definition set_linpoint (x : vec) (f : t) : t :=
  mk (factorID f) (dofs_conditional_vars f) (adj_var_nodes f) (adj_vIDs f)
     (adj_beliefs f) (messages f) (factor f) x (measurement f)
     (scale_factor f) (gauss_noise_var f) (meas_fn f) (jac_fn f)
     (adaptive_gauss_noise_var f) (loss f) (mahalanobis_threshold f)
     (robust_flag f) (eta_damping f) (iters_since_relin f).
Definition set_adaptive_gauss_noise_var (x : R) (f : t) : t :=
  mk (factorID f) (dofs_conditional_vars f) (adj_var_nodes f) (adj_vIDs f)
     (adj_beliefs f) (messages f) (factor f) (linpoint f) (measurement f)
     (scale_factor f) (gauss_noise_var f) (meas_fn f) (jac_fn f)
     x (loss f) (mahalanobis_threshold f)
     (robust_flag f) (eta_damping f) (iters_since_relin f).
Definition set_robust_flag (x : bool) (f : t) : t :=
  mk (factorID f) (dofs_conditional_vars f) (adj_var_nodes f) (adj_vIDs f)
     (adj_beliefs f) (messages f) (factor f) (linpoint f) (measurement f)
     (scale_factor f) (gauss_noise_var f) (meas_fn f) (jac_fn f)
     (adaptive_gauss_noise_var f) (loss f) (mahalanobis_threshold f)
     x (eta_damping f) (iters_since_relin f).
Definition set_eta_damping (x : R) (f : t) : t :=
  mk (factorID f) (dofs_conditional_vars f) (adj_var_nodes f) (adj_vIDs f)
     (adj_beliefs f) (messages f) (factor f) (linpoint f) (measurement f)
     (scale_factor f) (gauss_noise_var f) (meas_fn f) (jac_fn f)
     (adaptive_gauss_noise_var f) (loss f) (mahalanobis_threshold f)
     (robust_flag f) x (iters_since_relin f).
Definition set_iters_since_relin (x : Z) (f : t) : t :=
  mk (factorID f) (dofs_conditional_vars f) (adj_var_nodes f) (adj_vIDs f)
     (adj_beliefs f) (messages f) (factor f) (linpoint f) (measurement f)
     (scale_factor f) (gauss_noise_var f) (meas_fn f) (jac_fn f)
     (adaptive_gauss_noise_var f) (loss f) (mahalanobis_threshold f)
     (robust_flag f) (eta_damping f) x.
End Factor.

Module FactorGraph.
Record t : Type := mk {
  var_nodes : list VRef;
  factors : list FRef;
  nonlinear_factors : bool;
  eta_damping : R;
  beta : R;
  num_undamped_iters : Z;
  min_linear_iters : Z
}.

Definition set_factors (x : list FRef) (g : t) : t :=
  mk (var_nodes g) x (nonlinear_factors g) (eta_damping g) (beta g)
     (num_undamped_iters g) (min_linear_iters g).
End FactorGraph.

(** The store: the objects behind the references, and the graph object. *)
Record Heap : Type := mkHeap {
  var_obj : VRef -> VariableNode.t;
  factor_obj : FRef -> Factor.t;
  graph : FactorGraph.t
}.

Definition fupd {A : Type} (r : nat) (x : A) (st : nat -> A) : nat -> A :=
  fun r' => if Nat.eqb r' r then x else st r'.

Definition set_var (r : VRef) (v : VariableNode.t) (h : Heap) : Heap :=
  mkHeap (fupd r v (var_obj h)) (factor_obj h) (graph h).
Definition set_fac (r : FRef) (f : Factor.t) (h : Heap) : Heap :=
  mkHeap (var_obj h) (fupd r f (factor_obj h)) (graph h).
Definition set_graph (g : FactorGraph.t) (h : Heap) : Heap :=
  mkHeap (var_obj h) (factor_obj h) g.

(** A method of a factor that mutates only the factor, run on the store. *)
Definition on_factor {A : Type} (r : FRef) (m : M Factor.t A) : M Heap A :=
  fun h => let (res, f') := m (factor_obj h r) in (res, set_fac r f' h).

(** ** Belief means, residual and energy *)

(** The loop shared by [compute_residual], [relinearise_factors],
    [robustify_loss] and [compute_factor]:
    [for belief in adj_beliefs: means = concatenate((means, inv(belief.lam) @ belief.eta))]. *)
Fixpoint adj_belief_means (bs : list NdimGaussian) : result vec :=
  match bs with
  | [] => Ok []
  | b :: bs' =>
      let? S := inv (lam b) in
      let? rest := adj_belief_means bs' in
      Ok (mat_vec S (eta b) ++ rest)
  end.

(** [Factor.compute_residual]: returns the pair [(d, self.scale_factor)]. *)
Definition compute_residual (f : Factor.t) : result (ndarray * ndarray) :=
  let? x := adj_belief_means (Factor.adj_beliefs f) in
  let? d := nd_sub (Factor.meas_fn f x) (Factor.measurement f) in
  Ok (d, Factor.scale_factor f).

(** [Factor.energy]: [0.5 * np.linalg.norm(self.compute_residual()) ** 2 / self.adaptive_gauss_noise_var]. *)
Definition Factor_energy (f : Factor.t) : result R :=
  let? t := compute_residual f in
  let? n := norm_pair (fst t) (snd t) in
  Ok (0.5 * n ^ 2 / Factor.adaptive_gauss_noise_var f).

(** [FactorGraph.energy]: the same term summed over [self.factors]. *)
Fixpoint energy_loop (fobj : FRef -> Factor.t) (fs : list FRef) (energy : R) : result R :=
  match fs with
  | [] => Ok energy
  | r :: fs' =>
      let? e := Factor_energy (fobj r) in
      energy_loop fobj fs' (energy + e)
  end.

Definition FactorGraph_energy (h : Heap) : result R :=
  energy_loop (factor_obj h) (FactorGraph.factors (graph h)) 0.

(** The energy in the words of the specification: half the squared norm
    of the residual [h(mu_adj) - z] alone, over the adaptive variance. *)
Definition residual_spec (f : Factor.t) : result ndarray :=
  let? x := adj_belief_means (Factor.adj_beliefs f) in
  nd_sub (Factor.meas_fn f x) (Factor.measurement f).

Definition energy_spec (f : Factor.t) : result R :=
  let? d := residual_spec f in
  Ok (0.5 * nd_norm d ^ 2 / Factor.adaptive_gauss_noise_var f).


(** ** Outlier pruning *)

(** [l.remove(x)] on a list of objects: drops the first occurrence of the
    object; [None] stands for the [ValueError] raised when it is absent. *)
Fixpoint list_remove (x : nat) (l : list nat) : option (list nat) :=
  match l with
  | [] => None
  | y :: l' =>
      if Nat.eqb y x then Some l' else option_map (cons y) (list_remove x l')
  end.

(** The first loop of [remove_outlier], over [enumerate(factor_loss_list)];
    [tmp] is the copy of [self.factors] taken before the loop, [ids] is
    [outlier_factor_ids]. *)
Fixpoint collect_outliers (tmp : list FRef) (idx : nat) (losses : list R)
    (ids : list nat) : M Heap (list nat) :=
  match losses with
  | [] => ret ids
  | factor_loss :: rest =>
      if Rgtb factor_loss 300 then
        let* r := lift (of_option IndexError (tmp !! idx)) in
        let* h := get in
        let ids' := ids ++ [Factor.factorID (factor_obj h r)] in
        let* fs := lift (of_option ValueError
                           (list_remove r (FactorGraph.factors (graph h)))) in
        put (set_graph (FactorGraph.set_factors fs (graph h)) h) ;;;
        collect_outliers tmp (S idx) rest ids'
      else collect_outliers tmp (S idx) rest ids
  end.

(** The inner loop [for adj_factors in var_node.adj_factors: ...], which
    removes from the list it iterates over.  The iterator of a Python list
    holds a position [i]; each step reads the element at [i] in the list
    as it is then, or stops when [i] is past its end, and advances [i].
    [fuel] bounds the number of steps; the length of the list at entry is
    enough ([prune_adj_fuel] below). *)
Fixpoint prune_adj (fuel : nat) (v : VRef) (ids : list nat) (i : nat) : M Heap unit :=
  match fuel with
  | O => ret tt
  | S fuel' => fun h =>
      let adj := VariableNode.adj_factors (var_obj h v) in
      match adj !! i with
      | None => (Ok tt, h)
      | Some r =>
          if bool_decide (Factor.factorID (factor_obj h r) ∈ ids) then
            match list_remove r adj with
            | None => (Raise ValueError, h)
            | Some adj' =>
                prune_adj fuel' v ids (S i)
                  (set_var v (VariableNode.set_adj_factors adj' (var_obj h v)) h)
            end
          else prune_adj fuel' v ids (S i) h
      end
  end.

Definition prune_var (ids : list nat) (v : VRef) : M Heap unit :=
  fun h => prune_adj (length (VariableNode.adj_factors (var_obj h v))) v ids 0 h.

(** [FactorGraph.remove_outlier]. *)
Definition remove_outlier (factor_loss_list : list R) : M Heap unit :=
  let* h := get in
  let tmp := FactorGraph.factors (graph h) in
  let* outlier_factor_ids := collect_outliers tmp 0 factor_loss_list [] in
  let* h' := get in
  for_each (FactorGraph.var_nodes (graph h')) (prune_var outlier_factor_ids).

(** The references held by the graph and by its nodes. *)
Definition var_refers (h : Heap) (v : VRef) (r : FRef) : Prop :=
  r ∈ VariableNode.adj_factors (var_obj h v).

(** ** Robust reweighting *)

Open Scope string_scope.

(** [Factor.robustify_loss].  The two last assignments divide the old
    adaptive variance by the new one; with a new variance of 0 the source
    raises [ZeroDivisionError] (Python floats) or goes on with an infinity
    or NaN (numpy floats), which the division of the reals does not
    show. *)
Definition robustify_loss : M Factor.t unit :=
  let* self := get in
  let old_adaptive_gauss_noise_var := Factor.adaptive_gauss_noise_var self in
  let var := Factor.gauss_noise_var self in
  let tau := Factor.mahalanobis_threshold self in
  (match Factor.loss self with
   | None => modify (Factor.set_adaptive_gauss_noise_var var)
   | Some l =>
       let* adj_means := lift (adj_belief_means (Factor.adj_beliefs self)) in
       let pred_measurement := Factor.meas_fn self (Factor.linpoint self) in
       if String.eqb l "huber" then
         let* diff := lift (nd_sub (Factor.measurement self) pred_measurement) in
         let mahalanobis_dist := nd_norm diff / sqrt var in
         if Rgtb mahalanobis_dist tau then
           modify (Factor.set_adaptive_gauss_noise_var
                     (var * mahalanobis_dist ^ 2 /
                      (2 * (tau * mahalanobis_dist - 0.5 * tau ^ 2)))) ;;;
           modify (Factor.set_robust_flag true)
         else
           modify (Factor.set_robust_flag false) ;;;
           modify (Factor.set_adaptive_gauss_noise_var var)
       else if String.eqb l "constant" then
         let* diff := lift (nd_sub (Factor.measurement self) pred_measurement) in
         let mahalanobis_dist := nd_norm diff / sqrt var in
         if Rgtb mahalanobis_dist tau then
           modify (Factor.set_adaptive_gauss_noise_var (mahalanobis_dist ^ 2)) ;;;
           modify (Factor.set_robust_flag true)
         else
           modify (Factor.set_robust_flag false) ;;;
           modify (Factor.set_adaptive_gauss_noise_var var)
       else ret tt
   end) ;;;
  let* self := get in
  let k := old_adaptive_gauss_noise_var / Factor.adaptive_gauss_noise_var self in
  modify (fun self =>
    Factor.set_factor (mkGaussian (vimul (eta (Factor.factor self)) k)
                                  (lam (Factor.factor self))) self) ;;;
  modify (fun self =>
    Factor.set_factor (mkGaussian (eta (Factor.factor self))
                                  (mimul (lam (Factor.factor self)) k)) self).

Close Scope string_scope.

(** [FactorGraph.robustify_all_factors]. *)
Definition robustify_all_factors : M Heap unit :=
  let* h := get in
  for_each (FactorGraph.factors (graph h)) (fun r => on_factor r robustify_loss).

(** ** Linearisation *)

(** The loop of [compute_factor] for [linpoint is None]:
    [self.linpoint += list(inv(belief.lam) @ belief.eta)]. *)
Fixpoint linpoint_from_beliefs (bs : list NdimGaussian) : M Factor.t unit :=
  match bs with
  | [] => ret tt
  | b :: bs' =>
      let* S := lift (inv (lam b)) in
      modify (fun self =>
        Factor.set_linpoint (Factor.linpoint self ++ mat_vec S (eta b)) self) ;;;
      linpoint_from_beliefs bs'
  end.

(** [Factor.compute_factor linpoint update_self].  The branch for a float
    measurement is written for a 1-D Jacobian and a float prediction, the
    other for a 1-D measurement, a 2-D Jacobian and a 1-D prediction;
    other ranks raise. *)
Definition compute_factor (linpoint : option vec) (update_self : bool)
    : M Factor.t (vec * mat) :=
  (match linpoint with
   | None =>
       modify (Factor.set_linpoint []) ;;;
       let* self := get in
       linpoint_from_beliefs (Factor.adj_beliefs self)
   | Some x => modify (Factor.set_linpoint x)
   end) ;;;
  let* self := get in
  let x0 := Factor.linpoint self in
  let J := Factor.jac_fn self x0 in
  let pred_measurement := Factor.meas_fn self x0 in
  let var := Factor.adaptive_gauss_noise_var self in
  let* res := lift
    (match Factor.measurement self, J, pred_measurement with
     | Scal z, Arr1 J, Scal p =>
         let meas_model_lambda := 1 / var in
         let lambda_factor := mscale meas_model_lambda (outer J J) in
         let eta_factor := vimul (vscale meas_model_lambda J) (dot J x0 + z - p) in
         Ok (eta_factor, lambda_factor)
     | Arr1 z, Arr2 J, Arr1 p =>
         let meas_model_lambda := mdiv (eye (length z)) var in
         let lambda_factor := mmul (mmul (transpose J) meas_model_lambda) J in
         let eta_factor :=
           mat_vec (mmul (transpose J) meas_model_lambda)
                   (vsub (vadd (mat_vec J x0) z) p) in
         Ok (eta_factor, lambda_factor)
     | _, _, _ => Raise ValueError
     end) in
  (if update_self
   then modify (Factor.set_factor (mkGaussian (fst res) (snd res)))
   else ret tt) ;;;
  ret res.

(** [FactorGraph.compute_all_factors]. *)
Definition compute_all_factors : M Heap unit :=
  let* h := get in
  for_each (FactorGraph.factors (graph h))
    (fun r => on_factor r (compute_factor None true ;;; ret tt)).

(** ** Local relinearisation *)

(** The body of the loop of [relinearise_factors] for one factor.  The
    source returns nothing; the value returned here tells whether
    [compute_factor] was called. *)
Definition relinearise_factor (beta : R) (min_linear_iters : Z) : M Factor.t bool :=
  let* factor := get in
  let* adj_means := lift (adj_belief_means (Factor.adj_beliefs factor)) in
  if Rgtb (norm (vsub (Factor.linpoint factor) adj_means)) beta
     && Z.geb (Factor.iters_since_relin factor) min_linear_iters then
    compute_factor (Some adj_means) true ;;;
    modify (Factor.set_iters_since_relin 0) ;;;
    modify (Factor.set_eta_damping 0) ;;;
    ret true
  else
    modify (fun factor =>
      Factor.set_iters_since_relin (Factor.iters_since_relin factor + 1) factor) ;;;
    ret false.

(** [FactorGraph.relinearise_factors]. *)
Definition relinearise_factors : M Heap unit :=
  let* h := get in
  let g := graph h in
  if FactorGraph.nonlinear_factors g then
    for_each (FactorGraph.factors g)
      (fun r => on_factor r
         (relinearise_factor (FactorGraph.beta g) (FactorGraph.min_linear_iters g)
          ;;; ret tt))
  else ret tt.

(** ** The reweighting in the words of the specification *)

(** The Mahalanobis distance [d = ||z - h(linpoint)|| / sigma] of a
    difference [z - h(linpoint)]. *)
Definition mahalanobis (f : Factor.t) (diff : ndarray) : R :=
  nd_norm diff / sqrt (Factor.gauss_noise_var f).

(** Huber: [sigma2 * d^2 / (2 (tau d - tau^2 / 2))] when [d > tau], else
    [sigma2]. *)
Definition huber_var (sigma2 tau d : R) : R :=
  if Rgt_dec d tau
  then sigma2 * d ^ 2 / (2 * (tau * d - 0.5 * tau ^ 2))
  else sigma2.

(** Constant: [d^2] when [d > tau], else [sigma2]. *)
Definition constant_var (sigma2 tau d : R) : R :=
  if Rgt_dec d tau then d ^ 2 else sigma2.

(** The stored factor with [eta] and [lam] multiplied by [k]. *)
Definition gaussian_scale (g : NdimGaussian) (k : R) : NdimGaussian :=
  mkGaussian (vimul (eta g) k) (mimul (lam g) k).

(** A factor whose adaptive variance is set to [new], its flag to [flag],
    and whose stored factor is multiplied by [old / new]. *)
Definition reweighted (new : R) (flag : bool) (f : Factor.t) : Factor.t :=
  Factor.set_factor
    (gaussian_scale (Factor.factor f) (Factor.adaptive_gauss_noise_var f / new))
    (Factor.set_robust_flag flag (Factor.set_adaptive_gauss_noise_var new f)).

(** The variance and the flag [robustify_loss] arrives at, or the
    exception raised before anything is assigned. *)
Definition robust_update (f : Factor.t) : result (R * bool) :=
  let var := Factor.gauss_noise_var f in
  let tau := Factor.mahalanobis_threshold f in
  match Factor.loss f with
  | None => Ok (var, Factor.robust_flag f)
  | Some l =>
      let? adj_means := adj_belief_means (Factor.adj_beliefs f) in
      if String.eqb l "huber" then
        let? diff := nd_sub (Factor.measurement f)
                            (Factor.meas_fn f (Factor.linpoint f)) in
        Ok (huber_var var tau (mahalanobis f diff),
            Rgtb (mahalanobis f diff) tau)
      else if String.eqb l "constant" then
        let? diff := nd_sub (Factor.measurement f)
                            (Factor.meas_fn f (Factor.linpoint f)) in
        Ok (constant_var var tau (mahalanobis f diff),
            Rgtb (mahalanobis f diff) tau)
      else Ok (Factor.adaptive_gauss_noise_var f, Factor.robust_flag f)
  end.

(** ** Belief update *)

(** [l.index(x)]: the first position of [x]; [None] stands for the
    [ValueError] raised when it is absent. *)
Fixpoint index_of (x : nat) (l : list nat) : option nat :=
  match l with
  | [] => None
  | y :: l' => if Nat.eqb y x then Some 0%nat else option_map S (index_of x l')
  end.

(** The first loop of [update_belief]: [eta] and [lam], copies of the
    prior, are increased by the message of every adjacent factor. *)
Fixpoint incoming (fobj : FRef -> Factor.t) (variableID : nat)
    (adj : list FRef) (acc : NdimGaussian) : result NdimGaussian :=
  match adj with
  | [] => Ok acc
  | r :: adj' =>
      let factor := fobj r in
      let? message_ix :=
        of_option ValueError (index_of variableID (Factor.adj_vIDs factor)) in
      let? inward :=
        of_option IndexError (Factor.messages factor !! message_ix) in
      incoming fobj variableID adj' (gaussian_add acc inward)
  end.

(** The body of the second loop: the belief is stored in the slot of the
    variable in the adjacent factor. *)
Definition send_belief (v : VRef) (r : FRef) : M Heap unit :=
  let* h := get in
  let self := var_obj h v in
  let factor := factor_obj h r in
  let* belief_ix :=
    lift (of_option ValueError
            (index_of (VariableNode.variableID self) (Factor.adj_vIDs factor))) in
  if Nat.ltb belief_ix (length (Factor.adj_beliefs factor)) then
    put (set_fac r
           (Factor.set_adj_beliefs
              (<[belief_ix := VariableNode.belief self]> (Factor.adj_beliefs factor))
              factor) h)
  else throw IndexError.

(** [VariableNode.update_belief]. *)
Definition update_belief (v : VRef) : M Heap unit :=
  let* h := get in
  let self := var_obj h v in
  let* b := lift (incoming (factor_obj h) (VariableNode.variableID self)
                           (VariableNode.adj_factors self)
                           (VariableNode.prior self)) in
  modify (fun h => set_var v (VariableNode.set_belief b (var_obj h v)) h) ;;;
  let* S := lift (inv (lam b)) in
  modify (fun h => set_var v (VariableNode.set_Sigma S (var_obj h v)) h) ;;;
  modify (fun h => set_var v (VariableNode.set_mu (mat_vec S (eta b)) (var_obj h v)) h) ;;;
  for_each (VariableNode.adj_factors self) (send_belief v).

(** [FactorGraph.update_all_beliefs]. *)
Definition update_all_beliefs : M Heap unit :=
  let* h := get in
  for_each (FactorGraph.var_nodes (graph h)) update_belief.

(** The message a factor holds for a variable, and the effect on a factor
    of receiving a belief from it. *)
Definition message_to (variableID : nat) (f : Factor.t) : option NdimGaussian :=
  match index_of variableID (Factor.adj_vIDs f) with
  | Some m => Factor.messages f !! m
  | None => None
  end.

Definition receive (b : NdimGaussian) (variableID : nat) (f : Factor.t) : Factor.t :=
  match index_of variableID (Factor.adj_vIDs f) with
  | Some m => Factor.set_adj_beliefs (<[m := b]> (Factor.adj_beliefs f)) f
  | None => f
  end.

(** The information-form product of a prior and messages: the
    component-wise sum, which the first loop arrives at. *)
Definition product_with (prior : NdimGaussian) (msgs : list NdimGaussian) : NdimGaussian :=
  fold_left gaussian_add msgs prior.

(** The store in which [update_belief] stops when the inversion raises:
    the belief is assigned and nothing else. *)
Definition belief_assigned (b : NdimGaussian) (v : VRef) (h : Heap) : Heap :=
  set_var v (VariableNode.set_belief b (var_obj h v)) h.

(** Every adjacent factor of the variable lists its id, and has a message
    and a belief slot at that position. *)
Definition slots_present (h : Heap) (v : VRef) : Prop :=
  forall r, r ∈ VariableNode.adj_factors (var_obj h v) ->
    exists m,
      index_of (VariableNode.variableID (var_obj h v))
               (Factor.adj_vIDs (factor_obj h r)) = Some m /\
      (m < length (Factor.messages (factor_obj h r)))%nat /\
      (m < length (Factor.adj_beliefs (factor_obj h r)))%nat.

(** Adjacency seen from the factors of the graph: wherever a factor lists
    the variable,
    the variable lists the factor, and the position is the one [index]
    finds. *)
Definition mirrored (h : Heap) (v : VRef) : Prop :=
  forall r i, r ∈ FactorGraph.factors (graph h) ->
    Factor.adj_var_nodes (factor_obj h r) !! i = Some v ->
    r ∈ VariableNode.adj_factors (var_obj h v) /\
    index_of (VariableNode.variableID (var_obj h v))
             (Factor.adj_vIDs (factor_obj h r)) = Some i.

(** Invariant 1 at a variable: every slot a factor of the graph keeps for
    it holds its belief. *)
Definition beliefs_in_sync (h : Heap) (v : VRef) : Prop :=
  forall r i, r ∈ FactorGraph.factors (graph h) ->
    Factor.adj_var_nodes (factor_obj h r) !! i = Some v ->
    Factor.adj_beliefs (factor_obj h r) !! i = Some (VariableNode.belief (var_obj h v)).

(** ** Outgoing messages *)

(** What [compute_messages] hands to its sink: the precision of the
    message to the first neighbour ([push_kf]) and to the second
    ([push_lm]).  The sink itself, which plots, is not modelled. *)
Inductive sink_event : Type :=
  | push_kf (L : mat)
  | push_lm (L : mat).

(** The inner loop [for var in range(len(self.adj_vIDs))]: the factor
    times the belief of every neighbour but [v], less the message last
    sent to it. *)
Fixpoint cavity (vobj : VRef -> VariableNode.t) (self : Factor.t) (v : nat)
    (vars : list nat) (mess_start_dim : nat) (acc : NdimGaussian)
    : result NdimGaussian :=
  match vars with
  | [] => Ok acc
  | var :: vars' =>
      let? node := of_option IndexError (Factor.adj_var_nodes self !! var) in
      let var_dofs := VariableNode.dofs (vobj node) in
      let? acc' :=
        if Nat.eqb var v then Ok acc
        else
          let? b := of_option IndexError (Factor.adj_beliefs self !! var) in
          let? m := of_option IndexError (Factor.messages self !! var) in
          Ok (mkGaussian
                (vadd_at mess_start_dim var_dofs (vsub (eta b) (eta m)) (eta acc))
                (madd_at mess_start_dim var_dofs mess_start_dim var_dofs
                         (msub (lam b) (lam m)) (lam acc))) in
      cavity vobj self v vars' (mess_start_dim + var_dofs) acc'
  end.

(** The body of the outer loop for the neighbour [v], whose block starts
    at [start_dim]: the Schur complement onto the block of [v], with the
    [eta] of the message damped. *)
Definition outgoing (vobj : VRef -> VariableNode.t) (eta_damping : R)
    (self : Factor.t) (v start_dim : nat) : result NdimGaussian :=
  let? fac := cavity vobj self v (seq 0 (length (Factor.adj_vIDs self))) 0
                     (Factor.factor self) in
  let eta_factor := eta fac in
  let lam_factor := lam fac in
  let? node := of_option IndexError (Factor.adj_var_nodes self !! v) in
  let mess_dofs := VariableNode.dofs (vobj node) in
  let stop := (start_dim + mess_dofs)%nat in
  let eo := slice start_dim stop eta_factor in
  let eno := take start_dim eta_factor ++ drop stop eta_factor in
  let rows_o := slice start_dim stop lam_factor in
  let rows_top := take start_dim lam_factor in
  let rows_bot := drop stop lam_factor in
  let loo := map (slice start_dim stop) rows_o in
  let lono := zip_with app (map (take start_dim) rows_o) (map (drop stop) rows_o) in
  let lnoo := map (slice start_dim stop) rows_top ++
              map (slice start_dim stop) rows_bot in
  let lnono :=
    zip_with app (map (take start_dim) rows_top) (map (drop stop) rows_top) ++
    zip_with app (map (take start_dim) rows_bot) (map (drop stop) rows_bot) in
  let? lnono_inv := inv lnono in
  let width := length (slice start_dim stop (hd [] lam_factor)) in
  let message_lam := msub loo (mmulc width (mmul lono lnono_inv) lnoo) in
  let new_message_eta := vsub eo (mat_vec (mmul lono lnono_inv) eno) in
  let? old := of_option IndexError (Factor.messages self !! v) in
  Ok (mkGaussian
        (vadd (vscale (1 - eta_damping) new_message_eta)
              (vscale eta_damping (eta old)))
        message_lam).

(** The outer loop: [computed] is the pair of lists [messages_eta],
    [messages_lam], kept as one list of pairs. *)
Fixpoint messages_loop (vobj : VRef -> VariableNode.t) (eta_damping : R)
    (vs : list nat) (start_dim : nat) (computed : list NdimGaussian)
    : M Factor.t (list NdimGaussian) :=
  match vs with
  | [] => ret computed
  | v :: vs' =>
      let* self := get in
      let* msg := lift (outgoing vobj eta_damping self v start_dim) in
      let* node := lift (of_option IndexError (Factor.adj_var_nodes self !! v)) in
      messages_loop vobj eta_damping vs'
        (start_dim + VariableNode.dofs (vobj node)) (computed ++ [msg])
  end.

(** One step of the last loop: [self.messages[v]] is overwritten. *)
Definition commit_message (computed : list NdimGaussian) (v : nat)
    : M Factor.t (list sink_event) :=
  let* self := get in
  let* msg := lift (of_option IndexError (computed !! v)) in
  if Nat.ltb v (length (Factor.messages self)) then
    put (Factor.set_messages (<[v := msg]> (Factor.messages self)) self) ;;;
    ret (if Nat.eqb v 0 then [push_kf (lam msg)]
         else if Nat.eqb v 1 then [push_lm (lam msg)] else [])
  else throw IndexError.

(** The last loop, over the positions [order]; the source commits in the
    order [range(len(self.adj_vIDs))]. *)
Fixpoint commit_loop (computed : list NdimGaussian) (order : list nat)
    : M Factor.t (list sink_event) :=
  match order with
  | [] => ret []
  | v :: order' =>
      let* ev := commit_message computed v in
      let* evs := commit_loop computed order' in
      ret (ev ++ evs)
  end.

(** [Factor.compute_messages eta_damping heatmap]; the value returned is
    what the sink was handed. *)
Definition compute_messages (vobj : VRef -> VariableNode.t) (eta_damping : R)
    : M Factor.t (list sink_event) :=
  let* self := get in
  let positions := seq 0 (length (Factor.adj_vIDs self)) in
  let* computed := messages_loop vobj eta_damping positions 0 [] in
  commit_loop computed positions.

(** [FactorGraph.compute_all_messages local_relin]. *)
Definition compute_all_messages (local_relin : bool) : M Heap unit :=
  let* h := get in
  let g := graph h in
  for_each (FactorGraph.factors g) (fun r =>
    if FactorGraph.nonlinear_factors g && local_relin then
      on_factor r
        (let* factor := get in
         (if Z.eqb (Factor.iters_since_relin factor) (FactorGraph.num_undamped_iters g)
          then modify (Factor.set_eta_damping (FactorGraph.eta_damping g))
          else ret tt) ;;;
         let* factor := get in
         compute_messages (var_obj h) (Factor.eta_damping factor) ;;; ret tt)
    else
      on_factor r (compute_messages (var_obj h) (FactorGraph.eta_damping g) ;;; ret tt)).

(** [FactorGraph.synchronous_iteration local_relin robustify]. *)
Definition synchronous_iteration (local_relin robustify : bool) : M Heap unit :=
  (if robustify then robustify_all_factors else ret tt) ;;;
  let* h := get in
  (if FactorGraph.nonlinear_factors (graph h) && local_relin
   then relinearise_factors else ret tt) ;;;
  compute_all_messages local_relin ;;;
  update_all_beliefs.

(** The message to the neighbour [v] computed from a factor as it stands:
    its block starts where the blocks of the neighbours before it end. *)
Definition block_start (vobj : VRef -> VariableNode.t) (self : Factor.t) (v : nat) : nat :=
  sum_list (map (fun node => VariableNode.dofs (vobj node))
                (take v (Factor.adj_var_nodes self))).

Definition message_from (vobj : VRef -> VariableNode.t) (eta_damping : R)
    (self : Factor.t) (v : nat) : result NdimGaussian :=
  outgoing vobj eta_damping self v (block_start vobj self v).

(** The messages to all neighbours, each computed from the same factor;
    the first exception met, in the order of the positions, is raised. *)
Fixpoint messages_from (vobj : VRef -> VariableNode.t) (eta_damping : R)
    (self : Factor.t) (vs : list nat) : result (list NdimGaussian) :=
  match vs with
  | [] => Ok []
  | v :: vs' =>
      let? msg := message_from vobj eta_damping self v in
      let? rest := messages_from vobj eta_damping self vs' in
      Ok (msg :: rest)
  end.

(** ** Construction of a factor *)

(** [Factor(factor_id, adj_var_nodes, measurement, scale_factor,
    gauss_noise_std, meas_fn, jac_fn, loss, mahalanobis_threshold, *args)];
    the loop over [adj_var_nodes] appends one entry per neighbour to each
    of [adj_vIDs], [adj_beliefs] and [messages]. *)
Definition Factor_init (vobj : VRef -> VariableNode.t) (factor_id : nat)
    (adj_var_nodes : list VRef) (measurement scale_factor : ndarray)
    (gauss_noise_std : R) (meas_fn jac_fn : vec -> ndarray)
    (loss : option string) (mahalanobis_threshold : R) : Factor.t :=
  let dofs_conditional_vars :=
    sum_list (map (fun node => VariableNode.dofs (vobj node)) adj_var_nodes) in
  {| Factor.factorID := factor_id;
     Factor.dofs_conditional_vars := dofs_conditional_vars;
     Factor.adj_var_nodes := adj_var_nodes;
     Factor.adj_vIDs :=
       map (fun node => VariableNode.variableID (vobj node)) adj_var_nodes;
     Factor.adj_beliefs :=
       map (fun node => NdimGaussian_init (VariableNode.dofs (vobj node))) adj_var_nodes;
     Factor.messages :=
       map (fun node => NdimGaussian_init (VariableNode.dofs (vobj node))) adj_var_nodes;
     Factor.factor := NdimGaussian_init dofs_conditional_vars;
     Factor.linpoint := vzero dofs_conditional_vars;
     Factor.measurement := measurement;
     Factor.scale_factor := scale_factor;
     Factor.gauss_noise_var := gauss_noise_std ^ 2;
     Factor.meas_fn := meas_fn;
     Factor.jac_fn := jac_fn;
     Factor.adaptive_gauss_noise_var := gauss_noise_std ^ 2;
     Factor.loss := loss;
     Factor.mahalanobis_threshold := mahalanobis_threshold;
     Factor.robust_flag := false;
     Factor.eta_damping := 0;
     Factor.iters_since_relin := 1 |}.

(** A factor whose messages are still the ones of its construction. *)
Definition pristine (vobj : VRef -> VariableNode.t) (f : Factor.t) : Prop :=
  Factor.adj_vIDs f =
    map (fun node => VariableNode.variableID (vobj node)) (Factor.adj_var_nodes f) /\
  Factor.messages f =
    map (fun node => NdimGaussian_init (VariableNode.dofs (vobj node)))
        (Factor.adj_var_nodes f) /\
  length (Factor.adj_beliefs f) = length (Factor.adj_var_nodes f).

(** A canonical Gaussian of size [d]. *)
Definition gaussian_of_size (d : nat) (g : NdimGaussian) : Prop :=
  length (eta g) = d /\ length (lam g) = d /\
  Forall (fun row => length row = d) (lam g).

(** The zero Gaussian: every entry of [eta] and of [lam] is 0. *)
Definition zero_gaussian (g : NdimGaussian) : Prop :=
  Forall (fun x => x = 0) (eta g) /\
  Forall (Forall (fun x => x = 0)) (lam g).

(** ** Successive relinearisation steps of one factor *)

(** The body of [relinearise_factors] applied to one factor iteration
    after iteration; the booleans tell at which iterations it
    relinearised.  Between two steps the rest of the iteration may change
    the factor ([f0] for [f]) but not the counter, which only the
    constructor and [relinearise_factors] assign. *)
Inductive relin_run (beta : R) (min_linear_iters : Z)
    : Factor.t -> list bool -> Factor.t -> Prop :=
  | relin_run_nil f : relin_run beta min_linear_iters f [] f
  | relin_run_cons f f0 f1 b bs f2 :
      Factor.iters_since_relin f0 = Factor.iters_since_relin f ->
      relinearise_factor beta min_linear_iters f0 = (Ok b, f1) ->
      relin_run beta min_linear_iters f1 bs f2 ->
      relin_run beta min_linear_iters f (b :: bs) f2.

(** ** The joint distribution *)

(** The state of the first loop of [joint_distribution_inf]. *)
Record layout : Type := mkLayout {
  l_eta : vec;
  l_lam : mat;
  l_var_ix : list nat;
  l_tot_n_vars : nat
}.

(** Its body: [var_ix[id] = tot_n_vars] raises beyond the end of [var_ix];
    [lam] is the prior of the variable with id 0, and is extended by
    [block_diag] for every other variable. *)
Definition layout_step (vobj : VRef -> VariableNode.t) (acc : layout) (r : VRef)
    : result layout :=
  let var_node := vobj r in
  let id := VariableNode.variableID var_node in
  if Nat.ltb id (length (l_var_ix acc)) then
    Ok {| l_var_ix := <[id := l_tot_n_vars acc]> (l_var_ix acc);
          l_tot_n_vars := l_tot_n_vars acc + VariableNode.dofs var_node;
          l_eta := l_eta acc ++ eta (VariableNode.prior var_node);
          l_lam := if Nat.eqb id 0 then lam (VariableNode.prior var_node)
                   else block_diag (l_lam acc) (lam (VariableNode.prior var_node)) |}
  else Raise IndexError.

Fixpoint layout_loop (vobj : VRef -> VariableNode.t) (vars : list VRef) (acc : layout)
    : result layout :=
  match vars with
  | [] => Ok acc
  | r :: vars' =>
      let? acc' := layout_step vobj acc r in
      layout_loop vobj vars' acc'
  end.

(** [np.array([])] as an operand of [block_diag] counts as a matrix of one
    row and no column. *)
Definition layout_init (n : nat) : layout :=
  {| l_eta := []; l_lam := [[]]; l_var_ix := repeat 0%nat n; l_tot_n_vars := 0 |}.

(** The innermost loop, over [other_adj_var_node]: for every neighbour of
    larger id, the two off-diagonal blocks.  [ix] reads [var_ix]. *)
Fixpoint off_diagonal (vobj : VRef -> VariableNode.t) (ix : nat -> option nat)
    (fl : mat) (vID v_dofs factor_ix : nat) (others : list VRef)
    (other_factor_ix : nat) (lam : mat) : result mat :=
  match others with
  | [] => Ok lam
  | o :: others' =>
      let other := vobj o in
      let o_dofs := VariableNode.dofs other in
      let? lam' :=
        if Nat.ltb vID (VariableNode.variableID other) then
          let? ix_v := of_option IndexError (ix vID) in
          let? ix_o := of_option IndexError (ix (VariableNode.variableID other)) in
          let lam1 :=
            madd_at ix_v v_dofs ix_o o_dofs
              (mslice factor_ix (factor_ix + v_dofs)
                      other_factor_ix (other_factor_ix + o_dofs) fl) lam in
          Ok (madd_at ix_o o_dofs ix_v v_dofs
                (mslice other_factor_ix (other_factor_ix + o_dofs)
                        factor_ix (factor_ix + v_dofs) fl) lam1)
        else Ok lam in
      off_diagonal vobj ix fl vID v_dofs factor_ix others'
                   (other_factor_ix + o_dofs) lam'
  end.

(** The loop over [adj_var_node] of one factor: the block of [eta], the
    diagonal block of [lam], then the off-diagonal blocks. *)
Fixpoint add_blocks (vobj : VRef -> VariableNode.t) (ix : nat -> option nat)
    (f : Factor.t) (adj : list VRef) (factor_ix : nat) (acc : vec * mat)
    : result (vec * mat) :=
  match adj with
  | [] => Ok acc
  | a :: adj' =>
      let adj_var_node := vobj a in
      let vID := VariableNode.variableID adj_var_node in
      let v_dofs := VariableNode.dofs adj_var_node in
      let fe := eta (Factor.factor f) in
      let fl := lam (Factor.factor f) in
      let? ix_v := of_option IndexError (ix vID) in
      let eta1 :=
        vadd_at ix_v v_dofs (slice factor_ix (factor_ix + v_dofs) fe) (fst acc) in
      let lam1 :=
        madd_at ix_v v_dofs ix_v v_dofs
          (mslice factor_ix (factor_ix + v_dofs) factor_ix (factor_ix + v_dofs) fl)
          (snd acc) in
      let? lam2 := off_diagonal vobj ix fl vID v_dofs factor_ix
                     (Factor.adj_var_nodes f) 0 lam1 in
      add_blocks vobj ix f adj' (factor_ix + v_dofs) (eta1, lam2)
  end.

(** The loop over [self.factors]. *)
Fixpoint add_factors (vobj : VRef -> VariableNode.t) (fobj : FRef -> Factor.t)
    (ix : nat -> option nat) (fs : list FRef) (acc : vec * mat)
    : result (vec * mat) :=
  match fs with
  | [] => Ok acc
  | r :: fs' =>
      let? acc' := add_blocks vobj ix (fobj r)
                     (Factor.adj_var_nodes (fobj r)) 0 acc in
      add_factors vobj fobj ix fs' acc'
  end.

(** [FactorGraph.joint_distribution_inf]: the pair [(eta, lam)] returned.
    Two things the source does are not in this function.  When the last
    variable of the list has id 0, the array [lam] is the [lam] of its
    prior itself and the additions of the second loop are made in it: the
    value returned is the one given here, but the prior is changed by
    the call.  And where a slice [lam[a:a+d, b:b+e]] or [eta[a:a+d]] does
    not lie within the array, numpy raises [ValueError] (or broadcasts)
    and the lists truncate; every slice lies within the array for a
    graph of the data model whose ids are laid out as the list is
    ([data_model] below). *)
Definition joint_distribution_inf (h : Heap) : result (vec * mat) :=
  let vars := FactorGraph.var_nodes (graph h) in
  let? l := layout_loop (var_obj h) vars (layout_init (length vars)) in
  add_factors (var_obj h) (factor_obj h) (fun id => l_var_ix l !! id)
              (FactorGraph.factors (graph h)) (l_eta l, l_lam l).

(** What the first loop makes of the [lam] of the priors it has met, when
    the first of them is the one of the variable of id 0:
    [block_diag(... block_diag(A0, A1) ..., An)]; before any variable the
    array is [np.array([])]. *)
Definition block_diag_all (blocks : list mat) : mat :=
  match blocks with
  | [] => [[]]
  | A :: rest => fold_left block_diag rest A
  end.

(** ** The joint distribution in the words of the specification *)

(** The variable of a given id, and the variables by ascending id. *)
Definition var_of_id (h : Heap) (id : nat) : option VRef :=
  head (List.filter (fun r => Nat.eqb (VariableNode.variableID (var_obj h r)) id)
                    (FactorGraph.var_nodes (graph h))).

Definition vars_by_id (h : Heap) : list VRef :=
  omap (var_of_id h) (seq 0 (length (FactorGraph.var_nodes (graph h)))).

(** Where the block of the variable [id] starts: after the blocks of the
    variables of smaller id. *)
Definition offset_by_id (h : Heap) (id : nat) : option nat :=
  if Nat.ltb id (length (vars_by_id h)) then
    Some (sum_list (map (fun r => VariableNode.dofs (var_obj h r))
                        (take id (vars_by_id h))))
  else None.

(** The entries of a vector and of a matrix. *)
Definition ventry (v : vec) (k : nat) : R := nth k v 0.
Definition mentry (A : mat) (k l : nat) : R := nth l (nth k A []) 0.

(** The size of the joint distribution: the degrees of freedom of all
    variables. *)
Definition joint_size (h : Heap) : nat :=
  sum_list (map (fun r => VariableNode.dofs (var_obj h r)) (vars_by_id h)).

(** A neighbour of a factor, as the joint distribution sees it: its id,
    where its block starts in the joint distribution, the size of the
    block, and where the block starts in the factor. *)
Record slot : Type := mkSlot {
  s_id : nat;
  s_at : nat;
  s_dofs : nat;
  s_from : nat
}.

(** The neighbours [adj] of a factor, the block of the first starting at
    [from] in the factor: the blocks follow each other in the order of
    the neighbours; [at_] gives the start of the block of an id in the
    joint distribution. *)
Fixpoint slots_of (vobj : VRef -> VariableNode.t) (at_ : nat -> nat)
    (adj : list VRef) (from : nat) : list slot :=
  match adj with
  | [] => []
  | a :: adj' =>
      mkSlot (VariableNode.variableID (vobj a)) (at_ (VariableNode.variableID (vobj a)))
             (VariableNode.dofs (vobj a)) from
      :: slots_of vobj at_ adj' (from + VariableNode.dofs (vobj a))
  end.

Definition joint_slots (h : Heap) (f : Factor.t) : list slot :=
  slots_of (var_obj h) (fun id => default 0%nat (offset_by_id h id))
           (Factor.adj_var_nodes f) 0.

(** The index [k] of the joint distribution lies in the block of the
    neighbour [s]. *)
Definition in_block (s : slot) (k : nat) : bool :=
  Nat.leb (s_at s) k && Nat.ltb k (s_at s + s_dofs s).

(** What the block of [s] in [eta_F] adds to the entry [k], and what the
    block of the neighbours [s] and [t] in [lam_F] adds to the entry
    [(k, l)], of the joint distribution. *)
Definition eta_block (fe : vec) (s : slot) (k : nat) : R :=
  if in_block s k then ventry fe (s_from s + (k - s_at s)) else 0.

Definition lam_block (fl : mat) (s t : slot) (k l : nat) : R :=
  if in_block s k && in_block t l
  then mentry fl (s_from s + (k - s_at s)) (s_from t + (l - s_at t))
  else 0.

(** The priors of the variables [vars], each with its block, the blocks
    one after another from [start] in the order of [vars]. *)
Fixpoint prior_blocks (vobj : VRef -> VariableNode.t) (vars : list VRef) (start : nat)
    : list (slot * NdimGaussian) :=
  match vars with
  | [] => []
  | r :: vars' =>
      (mkSlot (VariableNode.variableID (vobj r)) start (VariableNode.dofs (vobj r)) 0,
       VariableNode.prior (vobj r))
      :: prior_blocks vobj vars' (start + VariableNode.dofs (vobj r))
  end.

(** The priors laid out by ascending id: the [eta] blocks concatenated,
    the [lam] blocks on the diagonal. *)
Definition prior_eta_at (h : Heap) (k : nat) : R :=
  sum_R (map (fun b => eta_block (eta (snd b)) (fst b) k)
             (prior_blocks (var_obj h) (vars_by_id h) 0)).

Definition prior_lam_at (h : Heap) (k l : nat) : R :=
  sum_R (map (fun b => lam_block (lam (snd b)) (fst b) (fst b) k l)
             (prior_blocks (var_obj h) (vars_by_id h) 0)).

(** A factor added into the blocks of its adjacent variables: the block of
    every neighbour of [eta_F], and the block of every pair of neighbours
    of [lam_F], which are the diagonal blocks and both copies of the
    off-diagonal ones. *)
Definition factor_eta_at (h : Heap) (f : Factor.t) (k : nat) : R :=
  sum_R (map (fun s => eta_block (eta (Factor.factor f)) s k) (joint_slots h f)).

Definition factor_lam_at (h : Heap) (f : Factor.t) (k l : nat) : R :=
  sum_R (map (fun s =>
                sum_R (map (fun t => lam_block (lam (Factor.factor f)) s t k l)
                           (joint_slots h f)))
             (joint_slots h f)).

(** The joint distribution laid out by id, entry by entry: the priors,
    and every factor of the graph added. *)
Definition eta_joint_at (h : Heap) (k : nat) : R :=
  prior_eta_at h k +
  sum_R (map (fun r => factor_eta_at h (factor_obj h r) k)
             (FactorGraph.factors (graph h))).

Definition lam_joint_at (h : Heap) (k l : nat) : R :=
  prior_lam_at h k l +
  sum_R (map (fun r => factor_lam_at h (factor_obj h r) k l)
             (FactorGraph.factors (graph h))).

Definition eta_joint (h : Heap) : vec :=
  map (eta_joint_at h) (seq 0 (joint_size h)).

Definition lam_joint (h : Heap) : mat :=
  map (fun k => map (lam_joint_at h k) (seq 0 (joint_size h)))
      (seq 0 (joint_size h)).

(** The data model of the specification, as far as the joint distribution
    reads it: the prior of a listed variable has the size of the variable;
    the neighbours of a listed factor are distinct variables of the list,
    and its stored factor has the size of their blocks together. *)
Definition data_model (h : Heap) : Prop :=
  (forall r, r ∈ FactorGraph.var_nodes (graph h) ->
     gaussian_of_size (VariableNode.dofs (var_obj h r))
                      (VariableNode.prior (var_obj h r))) /\
  (forall fr, fr ∈ FactorGraph.factors (graph h) ->
     let f := factor_obj h fr in
     NoDup (Factor.adj_var_nodes f) /\
     (forall r, r ∈ Factor.adj_var_nodes f -> r ∈ FactorGraph.var_nodes (graph h)) /\
     gaussian_of_size
       (sum_list (map (fun r => VariableNode.dofs (var_obj h r)) (Factor.adj_var_nodes f)))
       (Factor.factor f)).

(** The variable list is in id order: its [i]-th entry has id [i]. *)
Definition in_id_order (h : Heap) : Prop :=
  forall i r, FactorGraph.var_nodes (graph h) !! i = Some r ->
    VariableNode.variableID (var_obj h r) = i.

(** The state of the first loop after the variables [pre], all in id
    order, with [n] variables in all. *)
Definition layout_of (vobj : VRef -> VariableNode.t) (n : nat) (pre : list VRef)
    (acc : layout) : Prop :=
  l_eta acc = concat (map (fun r => eta (VariableNode.prior (vobj r))) pre) /\
  l_lam acc = block_diag_all (map (fun r => lam (VariableNode.prior (vobj r))) pre) /\
  length (l_var_ix acc) = n /\
  (forall i, (i < length pre)%nat ->
     l_var_ix acc !! i =
       Some (sum_list (map (fun r => VariableNode.dofs (vobj r)) (take i pre)))) /\
  l_tot_n_vars acc = sum_list (map (fun r => VariableNode.dofs (vobj r)) pre).

(** ** Further notions used by the properties of the other methods *)

(** The pair [(eta_factor, lambda_factor)] that [compute_factor] computes
    at the linearisation point [x0], or the exception it raises. *)
Definition linearise (f : Factor.t) (x0 : vec) : result (vec * mat) :=
  let J := Factor.jac_fn f x0 in
  let pred_measurement := Factor.meas_fn f x0 in
  let var := Factor.adaptive_gauss_noise_var f in
  match Factor.measurement f, J, pred_measurement with
  | Scal z, Arr1 J, Scal p =>
      let meas_model_lambda := 1 / var in
      let lambda_factor := mscale meas_model_lambda (outer J J) in
      let eta_factor := vimul (vscale meas_model_lambda J) (dot J x0 + z - p) in
      Ok (eta_factor, lambda_factor)
  | Arr1 z, Arr2 J, Arr1 p =>
      let meas_model_lambda := mdiv (eye (length z)) var in
      let lambda_factor := mmul (mmul (transpose J) meas_model_lambda) J in
      let eta_factor :=
        mat_vec (mmul (transpose J) meas_model_lambda)
                (vsub (vadd (mat_vec J x0) z) p) in
      Ok (eta_factor, lambda_factor)
  | _, _, _ => Raise ValueError
  end.

(** The belief means up to the first belief whose precision has no
    inverse: what the loop of [compute_factor] has appended to
    [self.linpoint] when it stops. *)
Fixpoint means_until_singular (bs : list NdimGaussian) : vec :=
  match bs with
  | [] => []
  | b :: bs' =>
      match inv (lam b) with
      | inl _ => []
      | inr Sg => mat_vec Sg (eta b) ++ means_until_singular bs'
      end
  end.

(** [FactorGraph.get_means]. *)
Definition get_means (h : Heap) : vec :=
  concat (map (fun r => VariableNode.mu (var_obj h r))
              (FactorGraph.var_nodes (graph h))).

(** [FactorGraph.joint_distribution_cov]; the sizes of [sigma] and [eta]
    agree as far as [joint_distribution_inf] returns a square [lam] of the
    size of [eta], as it does for a graph of the data model. *)
Definition joint_distribution_cov (h : Heap) : result (vec * mat) :=
  let? joint := joint_distribution_inf h in
  let? sigma := inv (snd joint) in
  Ok (mat_vec sigma (fst joint), sigma).

(** The state of the first loop of [joint_distribution_inf] after the
    variables [pre], laid out in the order of the list: the block of the
    [i]-th variable starts after the blocks of the ones before it. *)
Definition list_layout (vobj : VRef -> VariableNode.t) (n : nat) (pre : list VRef)
    (acc : layout) : Prop :=
  l_eta acc = concat (map (fun r => eta (VariableNode.prior (vobj r))) pre) /\
  l_lam acc = block_diag_all (map (fun r => lam (VariableNode.prior (vobj r))) pre) /\
  length (l_var_ix acc) = n /\
  (forall i r, pre !! i = Some r ->
     l_var_ix acc !! VariableNode.variableID (vobj r) =
       Some (sum_list (map (fun r => VariableNode.dofs (vobj r)) (take i pre)))) /\
  l_tot_n_vars acc = sum_list (map (fun r => VariableNode.dofs (vobj r)) pre).

(** The factors of the list [tmp] whose loss, at the same position of the
    loss list, exceeds the threshold of [remove_outlier]. *)
Fixpoint outliers (tmp : list FRef) (losses : list R) : list FRef :=
  match tmp, losses with
  | r :: tmp', factor_loss :: losses' =>
      if Rgtb factor_loss 300 then r :: outliers tmp' losses'
      else outliers tmp' losses'
  | _, _ => []
  end.

(** No two neighbouring entries of a list both satisfy [P]. *)
Fixpoint no_two_adjacent (P : nat -> Prop) (l : list nat) : Prop :=
  match l with
  | x :: l' =>
      match l' with
      | y :: _ => (P x -> ~ P y) /\ no_two_adjacent P l'
      | [] => True
      end
  | [] => True
  end.

(** ** What an iteration leaves alone *)

(** A method keeps a relation between the state at entry and the state it
    reaches, whether it returns or raises. *)
Definition keeps {S A : Type} (R : S -> S -> Prop) (m : M S A) : Prop :=
  forall s, R s (snd (m s)).

(** The states agree on what [P] reads. *)
Definition unchanged {S B : Type} (P : S -> B) : S -> S -> Prop :=
  fun s s' => P s' = P s.

(** The part of a variable that only the construction of the graph
    assigns. *)
Definition Variable_structure (x : VariableNode.t) : nat * list FRef * NdimGaussian * nat :=
  (VariableNode.variableID x, VariableNode.adj_factors x, VariableNode.prior x,
   VariableNode.dofs x).

(** The part of a factor that only its constructor assigns: its id, its
    neighbours, the sizes of its arrays of beliefs and messages, and its
    measurement model. *)
Definition Factor_structure (f : Factor.t) :=
  (Factor.factorID f, Factor.adj_var_nodes f, Factor.adj_vIDs f,
   Factor.dofs_conditional_vars f,
   length (Factor.adj_beliefs f), length (Factor.messages f),
   Factor.measurement f, Factor.scale_factor f, Factor.gauss_noise_var f,
   Factor.meas_fn f, Factor.jac_fn f, Factor.loss f,
   Factor.mahalanobis_threshold f).

(** Everything of a factor but the contents of its beliefs and messages. *)
Definition Factor_potential (f : Factor.t) :=
  (Factor_structure f, Factor.factor f, Factor.linpoint f,
   Factor.adaptive_gauss_noise_var f, Factor.robust_flag f,
   Factor.eta_damping f, Factor.iters_since_relin f).

(** Two stores with the same graph object and the same structure of every
    variable, whose factors agree on what [P] reads. *)
Definition heap_keeps {B : Type} (P : Factor.t -> B) (h h' : Heap) : Prop :=
  graph h' = graph h /\
  (forall v, Variable_structure (var_obj h' v) = Variable_structure (var_obj h v)) /\
  (forall r, P (factor_obj h' r) = P (factor_obj h r)).

(** Two stores whose graphs list the same variables, with the same
    means. *)
Definition same_means (h h' : Heap) : Prop :=
  FactorGraph.var_nodes (graph h') = FactorGraph.var_nodes (graph h) /\
  forall v, VariableNode.mu (var_obj h' v) = VariableNode.mu (var_obj h v).

(** The variable [a] has its block in a joint distribution of size [N]:
    [ix] finds the start [at_] of the block of its id, and the block ends
    within the distribution. *)
Definition slot_fits (vobj : VRef -> VariableNode.t) (ix : nat -> option nat)
    (at_ : nat -> nat) (N : nat) (a : VRef) : Prop :=
  ix (VariableNode.variableID (vobj a)) = Some (at_ (VariableNode.variableID (vobj a))) /\
  (at_ (VariableNode.variableID (vobj a)) + VariableNode.dofs (vobj a) <= N)%nat.

(** ** Concrete graphs used by the examples below *)

(** A scalar measurement [h(x) = x0] of one 1-D variable whose belief has
    mean 0; the measurement is 0, so the residual vanishes. *)
Definition factor_zero_residual : Factor.t :=
  {| Factor.factorID := 0;
     Factor.dofs_conditional_vars := 1;
     Factor.adj_var_nodes := [0%nat];
     Factor.adj_vIDs := [0%nat];
     Factor.adj_beliefs := [mkGaussian [0] [[1]]];
     Factor.messages := [NdimGaussian_init 1];
     Factor.factor := mkGaussian [0] [[1]];
     Factor.linpoint := [0];
     Factor.measurement := Scal 0;
     Factor.scale_factor := Scal 1;
     Factor.gauss_noise_var := 1;
     Factor.meas_fn := fun x => Scal (nth 0 x 0);
     Factor.jac_fn := fun _ => Arr1 [1];
     Factor.adaptive_gauss_noise_var := 1;
     Factor.loss := None;
     Factor.mahalanobis_threshold := 2;
     Factor.robust_flag := false;
     Factor.eta_damping := 0;
     Factor.iters_since_relin := 1 |}.

Definition var_unit_prior (id : nat) (adj : list FRef) : VariableNode.t :=
  {| VariableNode.variableID := id;
     VariableNode.adj_factors := adj;
     VariableNode.mu := [0];
     VariableNode.Sigma := [[1]];
     VariableNode.belief := mkGaussian [0] [[1]];
     VariableNode.prior := mkGaussian [0] [[1]];
     VariableNode.dofs := 1 |}.

Definition graph_of (vs : list VRef) (fs : list FRef) : FactorGraph.t :=
  {| FactorGraph.var_nodes := vs;
     FactorGraph.factors := fs;
     FactorGraph.nonlinear_factors := true;
     FactorGraph.eta_damping := 0;
     FactorGraph.beta := 0.1;
     FactorGraph.num_undamped_iters := 0;
     FactorGraph.min_linear_iters := 3 |}.

Definition heap_zero_residual : Heap :=
  {| var_obj := fun _ => var_unit_prior 0 [0%nat];
     factor_obj := fun _ => factor_zero_residual;
     graph := graph_of [0%nat] [0%nat] |}.

(** One variable with two adjacent unary factors. *)
Definition factor_with_id (id : nat) : Factor.t :=
  {| Factor.factorID := id;
     Factor.dofs_conditional_vars := 1;
     Factor.adj_var_nodes := [0%nat];
     Factor.adj_vIDs := [0%nat];
     Factor.adj_beliefs := [mkGaussian [0] [[1]]];
     Factor.messages := [NdimGaussian_init 1];
     Factor.factor := mkGaussian [0] [[1]];
     Factor.linpoint := [0];
     Factor.measurement := Scal 0;
     Factor.scale_factor := Scal 1;
     Factor.gauss_noise_var := 1;
     Factor.meas_fn := fun x => Scal (nth 0 x 0);
     Factor.jac_fn := fun _ => Arr1 [1];
     Factor.adaptive_gauss_noise_var := 1;
     Factor.loss := None;
     Factor.mahalanobis_threshold := 2;
     Factor.robust_flag := false;
     Factor.eta_damping := 0;
     Factor.iters_since_relin := 1 |}.

Definition heap_two_outliers : Heap :=
  {| var_obj := fun _ => var_unit_prior 0 [0%nat; 1%nat];
     factor_obj := factor_with_id;
     graph := graph_of [0%nat] [0%nat; 1%nat] |}.

(** The Huber scenario: a 1-D factor with measurement 10, prediction 0 at
    the linearisation point, unit variance and threshold 2. *)
Definition factor_huber : Factor.t :=
  {| Factor.factorID := 0;
     Factor.dofs_conditional_vars := 1;
     Factor.adj_var_nodes := [0%nat];
     Factor.adj_vIDs := [0%nat];
     Factor.adj_beliefs := [mkGaussian [0] [[1]]];
     Factor.messages := [NdimGaussian_init 1];
     Factor.factor := mkGaussian [10] [[1]];
     Factor.linpoint := [0];
     Factor.measurement := Scal 10;
     Factor.scale_factor := Scal 1;
     Factor.gauss_noise_var := 1;
     Factor.meas_fn := fun x => Scal (nth 0 x 0);
     Factor.jac_fn := fun _ => Arr1 [1];
     Factor.adaptive_gauss_noise_var := 1;
     Factor.loss := Some "huber"%string;
     Factor.mahalanobis_threshold := 2;
     Factor.robust_flag := false;
     Factor.eta_damping := 0;
     Factor.iters_since_relin := 1 |}.

(** The Huber factor after [robustify_loss], then with its linearisation
    point moved to where the prediction meets the measurement, and after a
    second [robustify_loss], in which the loss does not fire. *)
Definition factor_huber_fired : Factor.t := snd (robustify_loss factor_huber).
Definition factor_huber_moved : Factor.t :=
  Factor.set_linpoint [10] factor_huber_fired.
Definition factor_huber_reverted : Factor.t :=
  snd (robustify_loss factor_huber_moved).

(** A 1-D variable with prior (1, 1) next to one factor that holds the
    message (2, 3) for it. *)
Definition factor_with_message (msg : NdimGaussian) : Factor.t :=
  {| Factor.factorID := 0;
     Factor.dofs_conditional_vars := 1;
     Factor.adj_var_nodes := [0%nat];
     Factor.adj_vIDs := [0%nat];
     Factor.adj_beliefs := [NdimGaussian_init 1];
     Factor.messages := [msg];
     Factor.factor := mkGaussian [0] [[1]];
     Factor.linpoint := [0];
     Factor.measurement := Scal 0;
     Factor.scale_factor := Scal 1;
     Factor.gauss_noise_var := 1;
     Factor.meas_fn := fun x => Scal (nth 0 x 0);
     Factor.jac_fn := fun _ => Arr1 [1];
     Factor.adaptive_gauss_noise_var := 1;
     Factor.loss := None;
     Factor.mahalanobis_threshold := 2;
     Factor.robust_flag := false;
     Factor.eta_damping := 0;
     Factor.iters_since_relin := 1 |}.

Definition var_with_prior (prior : NdimGaussian) : VariableNode.t :=
  {| VariableNode.variableID := 0;
     VariableNode.adj_factors := [0%nat];
     VariableNode.mu := [0];
     VariableNode.Sigma := [[0]];
     VariableNode.belief := NdimGaussian_init 1;
     VariableNode.prior := prior;
     VariableNode.dofs := 1 |}.

Definition heap_one_edge (prior msg : NdimGaussian) : Heap :=
  {| var_obj := fun _ => var_with_prior prior;
     factor_obj := fun _ => factor_with_message msg;
     graph := graph_of [0%nat] [0%nat] |}.

(** A factor due for relinearisation: linearised at 1 while the belief
    mean is 0, three iterations after its last relinearisation. *)
Definition factor_drifted : Factor.t :=
  Factor.set_iters_since_relin 3 (Factor.set_linpoint [1] factor_zero_residual).

(** A 1-D variable with prior (1, 1) and one factor, just constructed,
    next to it. *)
Definition heap_pristine : Heap :=
  {| var_obj := fun _ => var_with_prior (mkGaussian [1] [[1]]);
     factor_obj := fun _ =>
       Factor_init (fun _ => var_with_prior (mkGaussian [1] [[1]]))
                   0 [0%nat] (Scal 0) (Scal 1) 1
                   (fun x => Scal (nth 0 x 0)) (fun _ => Arr1 [1]) None 2;
     graph := graph_of [0%nat] [0%nat] |}.

(** Two 1-D variables with ids 0 and 1 and priors (10, 1) and (20, 2),
    no factor; the variable list names the one with id 1 first. *)
Definition var_id_prior (id : nat) (e l : R) : VariableNode.t :=
  {| VariableNode.variableID := id;
     VariableNode.adj_factors := [];
     VariableNode.mu := [0];
     VariableNode.Sigma := [[0]];
     VariableNode.belief := NdimGaussian_init 1;
     VariableNode.prior := mkGaussian [e] [[l]];
     VariableNode.dofs := 1 |}.

Definition two_vars (r : VRef) : VariableNode.t :=
  match r with
  | O => var_id_prior 0 10 1
  | _ => var_id_prior 1 20 2
  end.

Definition heap_out_of_order : Heap :=
  {| var_obj := two_vars;
     factor_obj := fun _ => factor_zero_residual;
     graph := graph_of [1%nat; 0%nat] [] |}.

Definition heap_in_order : Heap :=
  {| var_obj := two_vars;
     factor_obj := fun _ => factor_zero_residual;
     graph := graph_of [0%nat; 1%nat] [] |}.

(** Scenario 1 of the specification: two 1-D variables with unit prior and
    the factor [h(x) = x0 - x1], [z = 2], [sigma = 1], linearised at the
    origin: [eta_F = (2, -2)], [lam_F = ((1, -1), (-1, 1))].  The beliefs
    are the priors and no message was sent yet. *)
Definition factor_difference : Factor.t :=
  {| Factor.factorID := 0;
     Factor.dofs_conditional_vars := 2;
     Factor.adj_var_nodes := [0%nat; 1%nat];
     Factor.adj_vIDs := [0%nat; 1%nat];
     Factor.adj_beliefs := [mkGaussian [0] [[1]]; mkGaussian [0] [[1]]];
     Factor.messages := [NdimGaussian_init 1; NdimGaussian_init 1];
     Factor.factor := mkGaussian [2; -2] [[1; -1]; [-1; 1]];
     Factor.linpoint := [0; 0];
     Factor.measurement := Scal 2;
     Factor.scale_factor := Scal 1;
     Factor.gauss_noise_var := 1;
     Factor.meas_fn := fun x => Scal (nth 0 x 0 - nth 1 x 0);
     Factor.jac_fn := fun _ => Arr1 [1; -1];
     Factor.adaptive_gauss_noise_var := 1;
     Factor.loss := None;
     Factor.mahalanobis_threshold := 2;
     Factor.robust_flag := false;
     Factor.eta_damping := 0;
     Factor.iters_since_relin := 1 |}.

Definition two_unit_vars (r : VRef) : VariableNode.t :=
  match r with
  | O => var_unit_prior 0 [0%nat]
  | _ => var_unit_prior 1 [0%nat]
  end.

Definition heap_difference : Heap :=
  {| var_obj := two_unit_vars;
     factor_obj := fun _ => factor_difference;
     graph := graph_of [0%nat; 1%nat] [0%nat] |}.

(** The same scenario with the constant loss, and with a loss tag that
    [robustify_loss] does not know. *)
Definition factor_with_loss (l : option string) : Factor.t :=
  {| Factor.factorID := 0;
     Factor.dofs_conditional_vars := 1;
     Factor.adj_var_nodes := [0%nat];
     Factor.adj_vIDs := [0%nat];
     Factor.adj_beliefs := [mkGaussian [0] [[1]]];
     Factor.messages := [NdimGaussian_init 1];
     Factor.factor := mkGaussian [10] [[1]];
     Factor.linpoint := [0];
     Factor.measurement := Scal 10;
     Factor.scale_factor := Scal 1;
     Factor.gauss_noise_var := 1;
     Factor.meas_fn := fun x => Scal (nth 0 x 0);
     Factor.jac_fn := fun _ => Arr1 [1];
     Factor.adaptive_gauss_noise_var := 1;
     Factor.loss := l;
     Factor.mahalanobis_threshold := 2;
     Factor.robust_flag := false;
     Factor.eta_damping := 0;
     Factor.iters_since_relin := 1 |}.

Definition factor_constant : Factor.t := factor_with_loss (Some "constant"%string).
Definition factor_cauchy : Factor.t := factor_with_loss (Some "cauchy"%string).

(** Three 1-D variables whose references are their ids, with priors
    (10, 1), (20, 2) and (30, 3), listed in the order 0, 2, 1. *)
Definition three_vars (r : VRef) : VariableNode.t :=
  match r with
  | O => var_id_prior 0 10 1
  | S O => var_id_prior 1 20 2
  | _ => var_id_prior 2 30 3
  end.

Definition heap_shuffled : Heap :=
  {| var_obj := three_vars;
     factor_obj := fun _ => factor_zero_residual;
     graph := graph_of [0%nat; 2%nat; 1%nat] [] |}.

(** Two unary factors of one variable under local relinearisation with the
    damping 0.5 of the graph and no undamped iteration: the counter of the
    factor 0 is at [num_undamped_iters], the one of the factor 1 is past
    it; neither is damped yet. *)
Definition graph_damped (vs : list VRef) (fs : list FRef) : FactorGraph.t :=
  {| FactorGraph.var_nodes := vs;
     FactorGraph.factors := fs;
     FactorGraph.nonlinear_factors := true;
     FactorGraph.eta_damping := 0.5;
     FactorGraph.beta := 0.1;
     FactorGraph.num_undamped_iters := 0;
     FactorGraph.min_linear_iters := 3 |}.

Definition heap_armed : Heap :=
  {| var_obj := fun _ => var_unit_prior 0 [0%nat; 1%nat];
     factor_obj := fun r =>
       match r with
       | O => Factor.set_iters_since_relin 0 (factor_with_id 0)
       | _ => factor_with_id 1
       end;
     graph := graph_damped [0%nat] [0%nat; 1%nat] |}.

(** A graph of one variable whose id, 5, is not below the number of
    variables. *)
Definition heap_id_out_of_range : Heap :=
  {| var_obj := fun _ => var_unit_prior 5 [];
     factor_obj := fun _ => factor_zero_residual;
     graph := graph_of [0%nat] [] |}.
(** * Properties *)

(** ** The store *)

Lemma fupd_same {A} r (x : A) st : fupd r x st r = x.
Proof. unfold fupd. now rewrite Nat.eqb_refl. Qed.

Lemma fupd_other {A} r r' (x : A) st : r' <> r -> fupd r x st r' = st r'.
Proof.
  intros Hne. unfold fupd. destruct (Nat.eqb_spec r' r); [contradiction|reflexivity].
Qed.

(** ** Inversion *)

Lemma inv_Ok A B : inv A = Ok B -> is_inverse A B.
Proof.
  unfold inv. destruct (excluded_middle_informative _) as [H|H]; [|discriminate].
  intros [= <-]. apply (proj2_sig (constructive_indefinite_description _ H)).
Qed.

Lemma inv_Raise A e : inv A = Raise e <-> e = LinAlgError /\ singular A.
Proof.
  unfold inv, singular.
  destruct (excluded_middle_informative _) as [H|H]; split.
  - discriminate.
  - intros [_ Hs]. contradiction.
  - intros [= <-]. auto.
  - intros [-> _]. reflexivity.
Qed.

Lemma inv_total A : (exists B, inv A = Ok B) \/ inv A = Raise LinAlgError.
Proof.
  unfold inv. destruct (excluded_middle_informative _); eauto.
Qed.

Lemma invertible_inv A : invertible A -> exists B, inv A = Ok B /\ is_inverse A B.
Proof.
  intros H. destruct (inv_total A) as [[B HB]|HB].
  - exists B. split; [assumption|]. now apply inv_Ok.
  - apply inv_Raise in HB as [_ HB]. contradiction.
Qed.

Lemma is_inverse_1x1 a B : is_inverse [[a]] B -> a <> 0 /\ B = [[/ a]].
Proof.
  intros (_ & [HlB HrB] & HAB & _). simpl in *.
  destruct B as [|row [|? ?]]; try discriminate.
  apply Forall_cons in HrB as [Hrow _].
  destruct row as [|b [|? ?]]; try discriminate.
  unfold mmul, ncols, mcol, dot, eye in HAB. simpl in HAB.
  injection HAB as HAB.
  assert (Hab : a * b = 1) by lra.
  assert (Ha : a <> 0) by (intros ->; lra).
  split; [assumption|]. repeat f_equal.
  apply (Rmult_eq_reg_l a); [|assumption]. rewrite Hab. now field.
Qed.

Lemma inv_1x1 a : a <> 0 -> inv [[a]] = Ok [[/ a]].
Proof.
  intros Ha.
  assert (Hinv : invertible [[a]]).
  { exists [[/ a]]. repeat split; simpl; repeat constructor;
      unfold mmul, ncols, mcol, dot, eye; simpl; repeat f_equal; now field. }
  destruct (invertible_inv _ Hinv) as (B & HB & HAB).
  apply is_inverse_1x1 in HAB as [_ ->]. assumption.
Qed.

Lemma inv_1x1_zero : inv [[0]] = Raise LinAlgError.
Proof.
  apply inv_Raise. split; [reflexivity|].
  intros [B HB]. apply is_inverse_1x1 in HB as [HB _]. now apply HB.
Qed.

Lemma inv_1x1_one : inv [[1]] = Ok [[1]].
Proof. rewrite inv_1x1 by lra. now replace (/ 1) with 1 by field. Qed.

(** ** Energy *)

Lemma sumsq_nonneg v : 0 <= sumsq v.
Proof.
  unfold sumsq, dot. induction v as [|a v IH]; simpl; [lra|]. nra.
Qed.

Lemma msumsq_nonneg A : 0 <= msumsq A.
Proof.
  unfold msumsq. induction A as [|r A IH]; simpl; [lra|].
  pose proof (sumsq_nonneg r). lra.
Qed.

Lemma nd_sumsq_nonneg x : 0 <= nd_sumsq x.
Proof.
  destruct x; simpl; [nra | apply sumsq_nonneg | apply msumsq_nonneg].
Qed.

(** What [Factor.energy] computes: the norm runs over the residual and the
    scale factor together. *)
Lemma Factor_energy_value f d s :
  compute_residual f = Ok (d, s) ->
  same_shape d s = true ->
  Factor_energy f =
    Ok (0.5 * (nd_sumsq d + nd_sumsq s) / Factor.adaptive_gauss_noise_var f).
Proof.
  intros Hres Hsh. unfold Factor_energy. rewrite Hres. simpl.
  unfold norm_pair. rewrite Hsh. simpl. do 3 f_equal.
  rewrite Rmult_1_r. apply sqrt_sqrt.
  pose proof (nd_sumsq_nonneg d). pose proof (nd_sumsq_nonneg s). lra.
Qed.

Lemma compute_residual_zero_residual :
  compute_residual factor_zero_residual = Ok (Scal 0, Scal 1).
Proof.
  unfold compute_residual. simpl. rewrite inv_1x1_one. simpl.
  repeat f_equal. unfold dot. simpl. lra.
Qed.

(** C2.  On a factor whose residual [h(mu_adj) - z] is 0, with scale factor
    1 and variance 1, [Factor.energy] and [FactorGraph.energy] return 1/2,
    where half the squared norm of the residual over the variance is 0:
    the scale factor returned with the residual enters the norm. *)
Theorem energy_norm_includes_scale_factor :
  Factor_energy factor_zero_residual = Ok (1 / 2) /\
  FactorGraph_energy heap_zero_residual = Ok (1 / 2) /\
  energy_spec factor_zero_residual = Ok 0.
Proof.
  assert (HE : Factor_energy factor_zero_residual = Ok (1 / 2)).
  { rewrite (Factor_energy_value _ _ _ compute_residual_zero_residual eq_refl).
    f_equal. simpl. lra. }
  split; [exact HE|]. split.
  - unfold FactorGraph_energy. simpl. rewrite HE. simpl.
    f_equal. lra.
  - unfold energy_spec, residual_spec. simpl. rewrite inv_1x1_one. simpl.
    f_equal. unfold nd_norm, dot. simpl.
    match goal with
    | |- context [sqrt ?x] => replace x with 0 by lra
    end.
    rewrite sqrt_0. lra.
Qed.

(** ** Outlier pruning *)

Lemma Rgtb_true x y : x > y -> Rgtb x y = true.
Proof. intros H. unfold Rgtb. destruct (Rgt_dec x y); [reflexivity|contradiction]. Qed.

Lemma Rgtb_false x y : ~ x > y -> Rgtb x y = false.
Proof. intros H. unfold Rgtb. destruct (Rgt_dec x y); [contradiction|reflexivity]. Qed.

Lemma list_remove_length x l l' :
  list_remove x l = Some l' -> length l = S (length l').
Proof.
  revert l'. induction l as [|y l IH]; intros l'; simpl; [discriminate|].
  destruct (Nat.eqb y x).
  - now intros [= ->].
  - destruct (list_remove x l) as [l0|]; simpl; [|discriminate].
    intros [= <-]. simpl. f_equal. now apply IH.
Qed.

(** The bound on the steps of the inner loop does not cut it short: any
    bound of at least the length of the list gives the same run. *)
Lemma prune_adj_fuel fuel1 fuel2 v ids i h :
  (length (VariableNode.adj_factors (var_obj h v)) <= fuel1 + i)%nat ->
  (length (VariableNode.adj_factors (var_obj h v)) <= fuel2 + i)%nat ->
  prune_adj fuel1 v ids i h = prune_adj fuel2 v ids i h.
Proof.
  revert fuel2 i h. induction fuel1 as [|fuel1 IH]; intros fuel2 i h H1 H2.
  - destruct fuel2 as [|fuel2]; [reflexivity|]. simpl.
    rewrite (lookup_ge_None_2 _ i) by (simpl in H1; lia). reflexivity.
  - destruct fuel2 as [|fuel2]; simpl.
    + rewrite (lookup_ge_None_2 _ i) by (simpl in H2; lia). reflexivity.
    + destruct (_ !! i) as [r|] eqn:Hr; [|reflexivity].
      destruct (bool_decide _).
      * destruct (list_remove r _) as [adj'|] eqn:Hrm; [|reflexivity].
        apply list_remove_length in Hrm.
        apply IH; simpl; unfold fupd; rewrite Nat.eqb_refl; simpl; lia.
      * apply IH; lia.
Qed.

Lemma list_remove_elem x l l' :
  list_remove x l = Some l' ->
  (forall r, r ∈ l' -> r ∈ l) /\ (forall r, r ∈ l -> r <> x -> r ∈ l').
Proof.
  revert l'. induction l as [|y l IH]; intros l'; simpl; [discriminate|].
  destruct (Nat.eqb_spec y x) as [->|Hne].
  - intros [= ->]. split.
    + intros r Hr. now right.
    + intros r Hr Hrx. apply elem_of_cons in Hr as [->|Hr]; [contradiction|assumption].
  - destruct (list_remove x l) as [l0|]; simpl; [|discriminate].
    intros [= <-]. destruct (IH l0 eq_refl) as [Hsub Hkeep]. split.
    + intros r Hr. apply elem_of_cons in Hr as [->|Hr]; [left|right; now apply Hsub].
    + intros r Hr Hrx. apply elem_of_cons in Hr as [->|Hr]; [left|right; now apply Hkeep].
Qed.

(** What the inner loop does keep: it touches one variable only, removes
    nothing but references to factors whose id is listed, and adds none. *)
Lemma prune_adj_keeps fuel v ids : forall i h res h',
  prune_adj fuel v ids i h = (res, h') ->
  factor_obj h' = factor_obj h /\ graph h' = graph h /\
  (forall v', v' <> v -> var_obj h' v' = var_obj h v') /\
  (forall r, r ∈ VariableNode.adj_factors (var_obj h' v) ->
     r ∈ VariableNode.adj_factors (var_obj h v)) /\
  (forall r, r ∈ VariableNode.adj_factors (var_obj h v) ->
     Factor.factorID (factor_obj h r) ∉ ids ->
     r ∈ VariableNode.adj_factors (var_obj h' v)).
Proof.
  induction fuel as [|fuel IH]; intros i h res h'; simpl.
  - intros [= _ <-]. repeat split; auto.
  - destruct (_ !! i) as [r0|] eqn:Hr0; [|intros [= _ <-]; repeat split; auto].
    destruct (bool_decide _) eqn:Hid.
    + destruct (list_remove r0 _) as [adj'|] eqn:Hrm;
        [|intros [= _ <-]; repeat split; auto].
      intros Hrun. apply IH in Hrun as (Hf & Hg & Hv & Hsub & Hkeep).
      simpl in *. rewrite fupd_same in Hsub, Hkeep. simpl in *.
      destruct (list_remove_elem _ _ _ Hrm) as [Hsub0 Hkeep0].
      apply bool_decide_eq_true_1 in Hid.
      split; [exact Hf|]. split; [exact Hg|]. split; [|split].
      * intros v' Hne. rewrite (Hv v' Hne). now apply fupd_other.
      * intros r Hr. now apply Hsub0, Hsub.
      * intros r Hr Hnot. apply Hkeep; [|assumption].
        apply Hkeep0; [assumption|]. intros ->. contradiction.
    + intros Hrun. now apply IH in Hrun.
Qed.

(** C1.  A variable adjacent to the factors 0 and 1, both with a loss above
    the threshold: [remove_outlier] drops both from the factor list of the
    graph, but the variable still refers to factor 1.  Removing an entry of
    [adj_factors] inside the loop over it makes the iterator skip the entry
    that follows. *)
Theorem remove_outlier_leaves_dangling_reference :
  exists h',
    remove_outlier [500; 500] heap_two_outliers = (Ok tt, h') /\
    FactorGraph.factors (graph h') = [] /\
    VariableNode.adj_factors (var_obj h' 0%nat) = [1%nat] /\
    var_refers h' 0%nat 1%nat /\
    1%nat ∉ FactorGraph.factors (graph h').
Proof.
  eexists. split.
  - unfold remove_outlier, bind, get. simpl.
    rewrite !Rgtb_true by lra. simpl. unfold bind, lift, get, put. simpl.
    unfold prune_var, bind. simpl. reflexivity.
  - simpl. unfold var_refers. simpl. repeat split.
    + apply list_elem_of_In. simpl. auto.
    + intros H. inversion H.
Qed.

(** ** Robust reweighting *)

Lemma Rgtb_dec x y : Rgtb x y = if Rgt_dec x y then true else false.
Proof. reflexivity. Qed.

(** The run of [robustify_loss] for the Huber loss. *)
Lemma robustify_loss_huber_run f means diff :
  Factor.loss f = Some "huber"%string ->
  adj_belief_means (Factor.adj_beliefs f) = Ok means ->
  nd_sub (Factor.measurement f) (Factor.meas_fn f (Factor.linpoint f)) = Ok diff ->
  robustify_loss f =
    (Ok tt,
     reweighted
       (huber_var (Factor.gauss_noise_var f) (Factor.mahalanobis_threshold f)
                  (mahalanobis f diff))
       (Rgtb (mahalanobis f diff) (Factor.mahalanobis_threshold f)) f).
Proof.
  intros Hloss Hmeans Hdiff.
  unfold robustify_loss, bind, get, lift, modify. cbn beta iota.
  rewrite Hloss, Hmeans. cbn beta iota. rewrite Hdiff.
  change (String.eqb "huber" "huber") with true. cbn beta iota.
  fold (mahalanobis f diff).
  unfold huber_var. rewrite Rgtb_dec.
  destruct (Rgt_dec (mahalanobis f diff) (Factor.mahalanobis_threshold f));
    reflexivity.
Qed.

(** The run of [robustify_loss] when no loss is configured. *)
Lemma robustify_loss_none_run f :
  Factor.loss f = None ->
  robustify_loss f =
    (Ok tt, reweighted (Factor.gauss_noise_var f) (Factor.robust_flag f) f).
Proof.
  intros Hloss. unfold robustify_loss, bind, get, lift, modify. cbn beta iota.
  rewrite Hloss. reflexivity.
Qed.

(** C4.  For a factor with the Huber loss whose adjacent belief means and
    whose difference [z - h(linpoint)] are defined, [robustify_loss] sets
    the adaptive variance to [sigma2 d^2 / (2 (tau d - tau^2/2))] when the
    Mahalanobis distance [d] exceeds [tau] and to [sigma2] otherwise,
    multiplies [eta] and [lam] of the stored factor by [old / new], and
    leaves the linearisation point, the measurement model and every other
    field but the robust flag as they were. *)
Theorem robustify_loss_huber f means diff :
  Factor.loss f = Some "huber"%string ->
  adj_belief_means (Factor.adj_beliefs f) = Ok means ->
  nd_sub (Factor.measurement f) (Factor.meas_fn f (Factor.linpoint f)) = Ok diff ->
  let sigma2 := Factor.gauss_noise_var f in
  let tau := Factor.mahalanobis_threshold f in
  let d := nd_norm diff / sqrt sigma2 in
  let old := Factor.adaptive_gauss_noise_var f in
  let new := if Rgt_dec d tau
             then sigma2 * d ^ 2 / (2 * (tau * d - 0.5 * tau ^ 2))
             else sigma2 in
  exists f',
    robustify_loss f = (Ok tt, f') /\
    Factor.adaptive_gauss_noise_var f' = new /\
    eta (Factor.factor f') = vimul (eta (Factor.factor f)) (old / new) /\
    lam (Factor.factor f') = mimul (lam (Factor.factor f)) (old / new) /\
    Factor.linpoint f' = Factor.linpoint f /\
    Factor.jac_fn f' = Factor.jac_fn f /\
    Factor.meas_fn f' = Factor.meas_fn f /\
    f' = Factor.set_factor (Factor.factor f')
           (Factor.set_robust_flag (Factor.robust_flag f')
              (Factor.set_adaptive_gauss_noise_var new f)).
Proof.
  intros Hloss Hmeans Hdiff sigma2 tau d old new.
  eexists. split.
  - apply (robustify_loss_huber_run f means diff); assumption.
  - repeat split.
Qed.

Lemma adj_belief_means_unit m : adj_belief_means [mkGaussian [m] [[1]]] = Ok [m].
Proof.
  simpl. rewrite inv_1x1_one. simpl. repeat f_equal. unfold dot. simpl. lra.
Qed.

Lemma nd_norm_Scal a : 0 <= a -> nd_norm (Scal a) = a.
Proof. intros Ha. unfold nd_norm. simpl. now apply sqrt_square. Qed.

Lemma robustify_loss_huber_witness :
  exists f',
    robustify_loss factor_huber = (Ok tt, f') /\
    Factor.adaptive_gauss_noise_var f' = 100 / 36 /\
    Factor.linpoint f' = [0].
Proof.
  destruct (robustify_loss_huber factor_huber [0] (Scal (10 - 0)) eq_refl
              (adj_belief_means_unit 0) eq_refl)
    as (f' & Hrun & Hvar & _ & _ & Hlin & _).
  exists f'. split; [exact Hrun|]. split; [|exact Hlin].
  rewrite Hvar. simpl. rewrite nd_norm_Scal by lra. rewrite sqrt_1.
  destruct (Rgt_dec ((10 - 0) / 1) 2) as [_|Hn]; [lra | exfalso; lra].
Defined.

(** [robustify_loss] either raises before it assigns anything, or arrives
    at a variance and a flag and rescales the stored factor. *)
Lemma robustify_loss_run f :
  robustify_loss f =
    match robust_update f with
    | inl e => (inl e, f)
    | inr (new, flag) => (Ok tt, reweighted new flag f)
    end.
Proof.
  unfold robustify_loss, robust_update, bind, rbind, get, lift, modify, ret.
  cbv beta iota zeta.
  destruct (Factor.loss f) as [l|]; [|destruct f; reflexivity].
  destruct (adj_belief_means _) as [e|means]; [reflexivity|]. cbn beta iota.
  destruct (String.eqb l "huber").
  { destruct (nd_sub _ _) as [e|diff]; [reflexivity|]. cbn beta iota.
    unfold huber_var, mahalanobis, Rgtb.
    destruct (Rgt_dec _ _); reflexivity. }
  destruct (String.eqb l "constant").
  { destruct (nd_sub _ _) as [e|diff]; [reflexivity|]. cbn beta iota.
    unfold constant_var, mahalanobis, Rgtb.
    destruct (Rgt_dec _ _); reflexivity. }
  destruct f; reflexivity.
Qed.

Lemma mahalanobis_nonneg f diff :
  0 < Factor.gauss_noise_var f -> 0 <= mahalanobis f diff.
Proof.
  intros Hs. unfold mahalanobis, nd_norm.
  apply Rmult_le_pos; [apply sqrt_pos|].
  apply Rlt_le, Rinv_0_lt_compat, sqrt_lt_R0, Hs.
Qed.

Lemma huber_var_pos sigma2 tau d :
  0 < sigma2 -> 0 < tau -> 0 < huber_var sigma2 tau d.
Proof.
  intros Hs Ht. unfold huber_var. destruct (Rgt_dec d tau) as [Hd|_]; [|exact Hs].
  assert (H0 : 0 < d) by lra.
  assert (H1 : 0 < d * d) by now apply Rmult_lt_0_compat.
  assert (H2 : 0 < tau * (d - tau)) by (apply Rmult_lt_0_compat; lra).
  assert (H3 : 0 < tau * tau) by now apply Rmult_lt_0_compat.
  apply Rdiv_lt_0_compat.
  - apply Rmult_lt_0_compat; [assumption|]. simpl. now rewrite Rmult_1_r.
  - simpl. lra.
Qed.

Lemma constant_var_pos sigma2 tau d :
  0 < sigma2 -> 0 < tau -> 0 < constant_var sigma2 tau d.
Proof.
  intros Hs Ht. unfold constant_var. destruct (Rgt_dec d tau) as [Hd|_]; [|exact Hs].
  simpl. rewrite Rmult_1_r. apply Rmult_lt_0_compat; lra.
Qed.

Lemma robust_update_pos f new flag :
  0 < Factor.gauss_noise_var f ->
  0 < Factor.mahalanobis_threshold f ->
  0 < Factor.adaptive_gauss_noise_var f ->
  robust_update f = Ok (new, flag) ->
  0 < new.
Proof.
  intros Hs Ht Ha. unfold robust_update.
  destruct (Factor.loss f) as [l|]; [|now intros [= <- _]].
  destruct (adj_belief_means _) as [e|means]; [discriminate|]. simpl.
  destruct (String.eqb l "huber").
  { destruct (nd_sub _ _) as [e|diff]; [discriminate|]. simpl.
    intros [= <- _]. now apply huber_var_pos. }
  destruct (String.eqb l "constant").
  { destruct (nd_sub _ _) as [e|diff]; [discriminate|]. simpl.
    intros [= <- _]. now apply constant_var_pos. }
  now intros [= <- _].
Qed.

Lemma vimul_vimul v a b : vimul (vimul v a) b = vimul v (a * b).
Proof.
  unfold vimul. rewrite map_map. apply map_ext. intros x. ring.
Qed.

Lemma vimul_1 v : vimul v 1 = v.
Proof.
  unfold vimul. rewrite <- (map_id v) at 2. apply map_ext. intros x. ring.
Qed.

Lemma mimul_mimul A a b : mimul (mimul A a) b = mimul A (a * b).
Proof.
  unfold mimul. rewrite map_map. apply map_ext. intros row. apply vimul_vimul.
Qed.

Lemma mimul_1 A : mimul A 1 = A.
Proof.
  unfold mimul. rewrite <- (map_id A) at 2. apply map_ext. intros row.
  apply vimul_1.
Qed.

Lemma gaussian_scale_inverse g a b :
  a * b = 1 -> gaussian_scale (gaussian_scale g a) b = g.
Proof.
  intros Hab. destruct g as [e l]. unfold gaussian_scale. simpl.
  now rewrite vimul_vimul, mimul_mimul, Hab, vimul_1, mimul_1.
Qed.

Lemma gaussian_scale_1 g a : a <> 0 -> gaussian_scale g (a / a) = g.
Proof.
  intros Ha. destruct g as [e l]. unfold gaussian_scale. simpl.
  replace (a / a) with 1 by (field; exact Ha). now rewrite vimul_1, mimul_1.
Qed.

Lemma reweighted_same f :
  Factor.adaptive_gauss_noise_var f <> 0 ->
  reweighted (Factor.adaptive_gauss_noise_var f) (Factor.robust_flag f) f = f.
Proof.
  intros Ha. unfold reweighted. rewrite (gaussian_scale_1 _ _ Ha).
  now destruct f.
Qed.

Lemma robust_update_reweighted f new flag :
  robust_update f = Ok (new, flag) ->
  robust_update (reweighted new flag f) = Ok (new, flag).
Proof.
  unfold robust_update. simpl.
  destruct (Factor.loss f) as [l|]; [|now intros [= <- <-]].
  destruct (adj_belief_means (Factor.adj_beliefs f)) as [e|means]; [discriminate|].
  cbn [rbind].
  destruct (String.eqb l "huber").
  { destruct (nd_sub _ _) as [e|diff]; [discriminate|]. cbn [rbind].
    now intros [= <- <-]. }
  destruct (String.eqb l "constant").
  { destruct (nd_sub _ _) as [e|diff]; [discriminate|]. cbn [rbind].
    now intros [= <- <-]. }
  now intros [= <- <-].
Qed.

(** C5, amended.  A factor at its nominal variance ([sigma2 > 0], [tau > 0]) is
    reweighted by [robustify_loss]; when a later [robustify_loss] on the
    factor so stored does not fire and takes the adaptive variance back to
    [sigma2], the stored factor is again the one before the first call. *)
Theorem robustify_round_trip f f1 f2 f3 :
  0 < Factor.gauss_noise_var f ->
  0 < Factor.mahalanobis_threshold f ->
  Factor.adaptive_gauss_noise_var f = Factor.gauss_noise_var f ->
  robustify_loss f = (Ok tt, f1) ->
  Factor.factor f2 = Factor.factor f1 ->
  Factor.adaptive_gauss_noise_var f2 = Factor.adaptive_gauss_noise_var f1 ->
  Factor.gauss_noise_var f2 = Factor.gauss_noise_var f1 ->
  robustify_loss f2 = (Ok tt, f3) ->
  Factor.adaptive_gauss_noise_var f3 = Factor.gauss_noise_var f2 ->
  Factor.factor f3 = Factor.factor f.
Proof.
  intros Hs Ht Hnom Hrun1 Hfac Hada Hvar Hrun2 Hback.
  rewrite robustify_loss_run in Hrun1, Hrun2.
  destruct (robust_update f) as [e|[new1 flag1]] eqn:Hup1; [discriminate|].
  destruct (robust_update f2) as [e|[new2 flag2]] eqn:Hup2; [discriminate|].
  injection Hrun1 as <-. injection Hrun2 as <-.
  apply robust_update_pos in Hup1; [|assumption|assumption|rewrite Hnom; assumption].
  simpl in *. subst new2. rewrite Hfac, Hada, Hvar. simpl.
  apply gaussian_scale_inverse. rewrite Hnom. field. lra.
Qed.

Lemma factor_huber_fired_eq :
  factor_huber_fired =
    reweighted (huber_var 1 2 (mahalanobis factor_huber (Scal (10 - 0))))
               (Rgtb (mahalanobis factor_huber (Scal (10 - 0))) 2) factor_huber.
Proof.
  unfold factor_huber_fired.
  now rewrite (robustify_loss_huber_run factor_huber [0] (Scal (10 - 0)) eq_refl
                 (adj_belief_means_unit 0) eq_refl).
Qed.

Lemma factor_huber_fired_var_pos :
  0 < Factor.adaptive_gauss_noise_var factor_huber_fired.
Proof.
  rewrite factor_huber_fired_eq. simpl. apply huber_var_pos; lra.
Qed.

Lemma robustify_loss_huber_moved :
  robustify_loss factor_huber_moved =
    (Ok tt,
     reweighted
       (huber_var (Factor.gauss_noise_var factor_huber_moved)
                  (Factor.mahalanobis_threshold factor_huber_moved)
                  (mahalanobis factor_huber_moved (Scal (10 - 10))))
       (Rgtb (mahalanobis factor_huber_moved (Scal (10 - 10)))
             (Factor.mahalanobis_threshold factor_huber_moved))
       factor_huber_moved).
Proof.
  apply (robustify_loss_huber_run factor_huber_moved [0] (Scal (10 - 10)));
    unfold factor_huber_moved; rewrite factor_huber_fired_eq;
    [reflexivity | apply (adj_belief_means_unit 0) | reflexivity].
Qed.

Lemma robustify_round_trip_witness :
  Factor.factor factor_huber_reverted = Factor.factor factor_huber.
Proof.
  apply (robustify_round_trip factor_huber factor_huber_fired
           factor_huber_moved factor_huber_reverted).
  - simpl. lra.
  - simpl. lra.
  - reflexivity.
  - rewrite factor_huber_fired_eq.
    apply (robustify_loss_huber_run factor_huber [0] (Scal (10 - 0)) eq_refl
             (adj_belief_means_unit 0) eq_refl).
  - reflexivity.
  - reflexivity.
  - reflexivity.
  - unfold factor_huber_reverted. now rewrite robustify_loss_huber_moved.
  - unfold factor_huber_reverted. rewrite robustify_loss_huber_moved.
    unfold factor_huber_moved. rewrite factor_huber_fired_eq. simpl.
    unfold huber_var at 1, mahalanobis at 1. simpl.
    destruct (Rgt_dec _ _) as [Hgt|_]; [|reflexivity].
    exfalso. revert Hgt. replace (10 - 10) with 0 by lra.
    rewrite (nd_norm_Scal 0), sqrt_1 by lra. lra.
Defined.

Lemma factor_huber_fired_var :
  Factor.adaptive_gauss_noise_var factor_huber_fired = 100 / 36.
Proof.
  rewrite factor_huber_fired_eq. simpl. unfold huber_var, mahalanobis. simpl.
  replace (10 - 0) with 10 by lra. rewrite (nd_norm_Scal 10), sqrt_1 by lra.
  destruct (Rgt_dec _ _) as [_|Hle]; [lra|]. exfalso. apply Hle. lra.
Qed.

Lemma factor_huber_reverted_var :
  Factor.adaptive_gauss_noise_var factor_huber_reverted = 1.
Proof.
  unfold factor_huber_reverted. rewrite robustify_loss_huber_moved.
  unfold factor_huber_moved. rewrite factor_huber_fired_eq. simpl.
  unfold huber_var at 1, mahalanobis at 1. simpl.
  destruct (Rgt_dec _ _) as [Hgt|_]; [|reflexivity].
  exfalso. revert Hgt. replace (10 - 10) with 0 by lra.
  rewrite (nd_norm_Scal 0), sqrt_1 by lra. lra.
Qed.

(** C5 as stated fails for a factor that is not at its nominal variance.
    The Huber factor already reweighted (adaptive variance 100/36, stored
    factor (3.6, 0.36)) is left as it is by [robustify_loss]; once its
    linearisation point has moved to the measurement, the next
    [robustify_loss] does not fire and takes the adaptive variance back to
    the nominal 1: the stored factor is then (10, 1), not the one before
    the first call. *)
Lemma robustify_round_trip_from_reweighted :
  exists f1 f3,
    robustify_loss factor_huber_fired = (Ok tt, f1) /\
    robustify_loss (Factor.set_linpoint [10] f1) = (Ok tt, f3) /\
    Factor.adaptive_gauss_noise_var f3 = Factor.gauss_noise_var factor_huber_fired /\
    Factor.factor factor_huber_fired = mkGaussian [10 * (1 / (100 / 36))] [[1 * (1 / (100 / 36))]] /\
    Factor.factor f3 = mkGaussian [10] [[1]] /\
    Factor.factor f3 <> Factor.factor factor_huber_fired.
Proof.
  assert (Hrun1 : robustify_loss factor_huber_fired = (Ok tt, factor_huber_fired)).
  { pose proof factor_huber_fired_var_pos as Hpos.
    rewrite factor_huber_fired_eq in Hpos |- *.
    set (new := huber_var 1 2 (mahalanobis factor_huber (Scal (10 - 0)))) in *.
    set (flag := Rgtb (mahalanobis factor_huber (Scal (10 - 0))) 2) in *.
    assert (Hup : robust_update factor_huber = Ok (new, flag)).
    { unfold robust_update. simpl. rewrite inv_1x1_one. reflexivity. }
    rewrite robustify_loss_run, (robust_update_reweighted _ _ _ Hup). f_equal.
    apply (reweighted_same (reweighted new flag factor_huber)).
    simpl in Hpos |- *. lra. }
  assert (Hfired : Factor.factor factor_huber_fired =
                   mkGaussian [10 * (1 / (100 / 36))] [[1 * (1 / (100 / 36))]]).
  { pose proof factor_huber_fired_var as Hv. rewrite factor_huber_fired_eq in Hv |- *.
    simpl in Hv |- *. unfold gaussian_scale. simpl. now rewrite Hv. }
  assert (Hrev : Factor.factor factor_huber_reverted = mkGaussian [10] [[1]]).
  { pose proof factor_huber_reverted_var as Hv1.
    unfold factor_huber_reverted in Hv1 |- *. rewrite robustify_loss_huber_moved in Hv1 |- *.
    simpl in Hv1 |- *. unfold gaussian_scale. rewrite Hv1.
    change (Factor.factor factor_huber_moved) with (Factor.factor factor_huber_fired).
    change (Factor.adaptive_gauss_noise_var factor_huber_moved)
      with (Factor.adaptive_gauss_noise_var factor_huber_fired).
    rewrite Hfired, factor_huber_fired_var. simpl. repeat f_equal; field. }
  exists factor_huber_fired, factor_huber_reverted.
  split; [exact Hrun1|]. split.
  { unfold factor_huber_reverted. fold factor_huber_moved.
    now destruct (robustify_loss factor_huber_moved) as [[e|[]] f] eqn:Hr;
      rewrite robustify_loss_huber_moved in Hr; inversion Hr. }
  split; [rewrite factor_huber_reverted_var, factor_huber_fired_eq; reflexivity|].
  split; [exact Hfired|]. split; [exact Hrev|].
  rewrite Hrev, Hfired. intros Heq. injection Heq as Heq _. lra.
Qed.

(** ** Belief update *)

Lemma receive_adj_vIDs b id f : Factor.adj_vIDs (receive b id f) = Factor.adj_vIDs f.
Proof. unfold receive. now destruct (index_of _ _). Qed.

Lemma receive_messages b id f : Factor.messages (receive b id f) = Factor.messages f.
Proof. unfold receive. now destruct (index_of _ _). Qed.

Lemma receive_adj_var_nodes b id f :
  Factor.adj_var_nodes (receive b id f) = Factor.adj_var_nodes f.
Proof. unfold receive. now destruct (index_of _ _). Qed.

Lemma receive_length b id f :
  length (Factor.adj_beliefs (receive b id f)) = length (Factor.adj_beliefs f).
Proof.
  unfold receive. destruct (index_of _ _); [|reflexivity]. simpl.
  apply length_insert.
Qed.

Lemma receive_idem b id f : receive b id (receive b id f) = receive b id f.
Proof.
  unfold receive. destruct (index_of id (Factor.adj_vIDs f)) as [m|] eqn:Hm.
  - simpl. rewrite Hm. unfold Factor.set_adj_beliefs. simpl.
    now rewrite list_insert_insert_eq.
  - now rewrite Hm.
Qed.

Lemma receive_slot b id f m :
  index_of id (Factor.adj_vIDs f) = Some m ->
  (m < length (Factor.adj_beliefs f))%nat ->
  Factor.adj_beliefs (receive b id f) !! m = Some b.
Proof.
  intros Hm Hlt. unfold receive. rewrite Hm. simpl.
  now apply list_lookup_insert_eq.
Qed.

Lemma receive_other_slot b id f m i :
  index_of id (Factor.adj_vIDs f) = Some m -> i <> m ->
  Factor.adj_beliefs (receive b id f) !! i = Factor.adj_beliefs f !! i.
Proof.
  intros Hm Hne. unfold receive. rewrite Hm. simpl.
  apply list_lookup_insert_ne. congruence.
Qed.

(** The first loop: the prior plus the messages held for the variable. *)
Lemma incoming_run fobj id adj : forall acc,
  (forall r, r ∈ adj ->
     exists m, index_of id (Factor.adj_vIDs (fobj r)) = Some m /\
               (m < length (Factor.messages (fobj r)))%nat) ->
  exists msgs,
    Forall2 (fun r msg => message_to id (fobj r) = Some msg) adj msgs /\
    incoming fobj id adj acc = Ok (fold_left gaussian_add msgs acc).
Proof.
  induction adj as [|r adj IH]; intros acc Hs.
  - exists []. split; [constructor|reflexivity].
  - destruct (Hs r) as (m & Hm & Hlt); [left|].
    destruct (lookup_lt_is_Some_2 _ _ Hlt) as [msg Hmsg].
    destruct (IH (gaussian_add acc msg)) as (msgs & HF & Hrun).
    { intros r' Hr'. apply Hs. now right. }
    exists (msg :: msgs). split.
    + constructor; [|assumption]. unfold message_to. now rewrite Hm.
    + simpl. rewrite Hm. simpl. rewrite Hmsg. simpl. exact Hrun.
Qed.

(** The second loop: every adjacent factor receives the belief, nothing
    else changes. *)
Lemma send_beliefs_run v adj : forall h,
  (forall r, r ∈ adj ->
     exists m, index_of (VariableNode.variableID (var_obj h v))
                        (Factor.adj_vIDs (factor_obj h r)) = Some m /\
               (m < length (Factor.adj_beliefs (factor_obj h r)))%nat) ->
  exists h',
    for_each adj (send_belief v) h = (Ok tt, h') /\
    var_obj h' = var_obj h /\ graph h' = graph h /\
    forall r,
      (r ∈ adj ->
       factor_obj h' r =
         receive (VariableNode.belief (var_obj h v))
                 (VariableNode.variableID (var_obj h v)) (factor_obj h r)) /\
      (r ∉ adj -> factor_obj h' r = factor_obj h r).
Proof.
  induction adj as [|r0 adj IH]; intros h Hs.
  - exists h. do 3 (split; [reflexivity|]).
    intros r. split; [intros Hr; inversion Hr|reflexivity].
  - destruct (Hs r0) as (m & Hm & Hlt); [left|].
    pose (b := VariableNode.belief (var_obj h v)).
    pose (id := VariableNode.variableID (var_obj h v)).
    pose (h1 := set_fac r0 (receive b id (factor_obj h r0)) h).
    assert (Hstep : send_belief v r0 h = (Ok tt, h1)).
    { unfold send_belief, bind, get, lift, put, of_option. cbv beta iota zeta.
      rewrite Hm. cbv beta iota.
      apply Nat.ltb_lt in Hlt. rewrite Hlt.
      unfold h1, receive, id, b. now rewrite Hm. }
    assert (Hfac : forall r, Factor.adj_vIDs (factor_obj h1 r) =
                             Factor.adj_vIDs (factor_obj h r) /\
                             length (Factor.adj_beliefs (factor_obj h1 r)) =
                             length (Factor.adj_beliefs (factor_obj h r))).
    { intros r. unfold h1. simpl. destruct (Nat.eq_dec r r0) as [->|Hne].
      - rewrite fupd_same. split; [apply receive_adj_vIDs|apply receive_length].
      - now rewrite fupd_other. }
    destruct (IH h1) as (h' & Hrun & Hvar & Hgraph & Hfobj).
    { intros r Hr. destruct (Hs r) as (m' & Hm' & Hlt'); [now right|].
      exists m'. destruct (Hfac r) as [-> ->]. now split. }
    exists h'. split; [|split; [|split]].
    + simpl. unfold bind. now rewrite Hstep.
    + exact Hvar.
    + exact Hgraph.
    + intros r. destruct (Hfobj r) as [Hin Hout]. split.
      * intros Hr. destruct (decide (r ∈ adj)) as [Hadj|Hadj].
        -- rewrite (Hin Hadj). unfold h1. simpl. fold b id.
           change (VariableNode.belief (var_obj h v)) with b.
           change (VariableNode.variableID (var_obj h v)) with id.
           destruct (Nat.eq_dec r r0) as [->|Hne].
           ++ rewrite fupd_same. apply receive_idem.
           ++ now rewrite fupd_other.
        -- rewrite (Hout Hadj). apply elem_of_cons in Hr as [->|Hr]; [|contradiction].
           unfold h1. simpl. apply fupd_same.
      * intros Hr. apply not_elem_of_cons in Hr as [Hne Hadj].
        rewrite (Hout Hadj). unfold h1. simpl. now apply fupd_other.
Qed.

(** ** Outgoing messages *)

Lemma block_start_S vobj f v node :
  Factor.adj_var_nodes f !! v = Some node ->
  block_start vobj f (S v) =
    (block_start vobj f v + VariableNode.dofs (vobj node))%nat.
Proof.
  intros Hnode. unfold block_start. rewrite (take_S_r _ _ _ Hnode).
  rewrite map_app, sum_list_with_app. simpl. lia.
Qed.

Lemma outgoing_node vobj d f v sd msg :
  outgoing vobj d f v sd = Ok msg ->
  (exists node, Factor.adj_var_nodes f !! v = Some node) /\
  (v < length (Factor.messages f))%nat.
Proof.
  unfold outgoing. destruct (cavity _ _ _ _ _ _) as [e|fac]; [discriminate|].
  simpl. destruct (Factor.adj_var_nodes f !! v) as [node|]; [|discriminate].
  simpl. destruct (inv _) as [e|li]; [discriminate|]. simpl.
  destruct (Factor.messages f !! v) as [old|] eqn:Hold; [|discriminate].
  intros _. split; [eauto|]. now apply lookup_lt_Some in Hold.
Qed.

(** The outer loop never writes to the factor: every message is the one
    computed from the factor as it was at entry, and the block of each
    neighbour starts where the loop says. *)
Lemma messages_loop_run vobj d f n : forall v0 computed,
  messages_loop vobj d (seq v0 n) (block_start vobj f v0) computed f =
    match messages_from vobj d f (seq v0 n) with
    | inl e => (inl e, f)
    | inr ms => (Ok (computed ++ ms), f)
    end.
Proof.
  induction n as [|n IH]; intros v0 computed; simpl.
  - now rewrite app_nil_r.
  - unfold bind, get, lift. cbv beta iota. unfold message_from.
    destruct (outgoing vobj d f v0 (block_start vobj f v0)) as [e|msg] eqn:Hout;
      [reflexivity|]. simpl.
    destruct (outgoing_node _ _ _ _ _ _ Hout) as [[node Hnode] _].
    rewrite Hnode. simpl. rewrite <- (block_start_S _ _ _ _ Hnode).
    rewrite IH. destruct (messages_from vobj d f (seq (S v0) n)) as [e|ms];
      [reflexivity|]. simpl. now rewrite <- app_assoc.
Qed.

Lemma messages_from_length vobj d f vs ms :
  messages_from vobj d f vs = Ok ms ->
  length ms = length vs /\
  forall v, v ∈ vs -> (v < length (Factor.messages f))%nat.
Proof.
  revert ms. induction vs as [|v vs IH]; intros ms; simpl.
  - intros [= <-]. split; [reflexivity|]. intros v Hv. inversion Hv.
  - unfold message_from.
    destruct (outgoing _ _ _ _ _) as [e|msg] eqn:Hout; [discriminate|]. simpl.
    destruct (messages_from _ _ _ _) as [e|rest]; [discriminate|]. simpl.
    intros [= <-]. destruct (IH rest eq_refl) as [Hlen Hlt]. split.
    + simpl. now rewrite Hlen.
    + intros v' Hv'. apply elem_of_cons in Hv' as [->|Hv']; [|now apply Hlt].
      now destruct (outgoing_node _ _ _ _ _ _ Hout).
Qed.

(** The last loop overwrites exactly the positions it visits. *)
Lemma commit_loop_run computed : forall order f,
  (forall v, v ∈ order ->
     (v < length computed)%nat /\ (v < length (Factor.messages f))%nat) ->
  exists evs l',
    commit_loop computed order f = (Ok evs, Factor.set_messages l' f) /\
    length l' = length (Factor.messages f) /\
    forall i, l' !! i = if bool_decide (i ∈ order) then computed !! i
                        else Factor.messages f !! i.
Proof.
  induction order as [|v order IH]; intros f Hb.
  - exists [], (Factor.messages f). split; [now destruct f|]. split; [reflexivity|].
    intros i. rewrite bool_decide_eq_false_2; [reflexivity|]. intros Hi; inversion Hi.
  - destruct (Hb v) as [Hc Hm]; [left|].
    destruct (lookup_lt_is_Some_2 _ _ Hc) as [msg Hmsg].
    set (f1 := Factor.set_messages (<[v := msg]> (Factor.messages f)) f).
    destruct (IH f1) as (evs & l' & Hrun & Hlen & Hl').
    { intros v' Hv'. destruct (Hb v') as [? ?]; [now right|]. split; [assumption|].
      unfold f1. simpl. now rewrite length_insert. }
    eexists _, l'. split; [|split].
    + simpl. unfold bind at 1. unfold commit_message, bind, get, lift, put, ret, of_option.
      cbv beta iota. rewrite Hmsg. cbv beta iota.
      apply Nat.ltb_lt in Hm. rewrite Hm. cbv beta iota. fold f1.
      unfold bind. rewrite Hrun. reflexivity.
    + rewrite Hlen. unfold f1. simpl. apply length_insert.
    + intros i. rewrite Hl'. unfold f1. simpl.
      destruct (decide (i ∈ order)) as [Hi|Hi].
      * rewrite !bool_decide_eq_true_2; [reflexivity|now right|assumption].
      * rewrite (bool_decide_eq_false_2 _ Hi).
        destruct (decide (i = v)) as [->|Hne].
        -- rewrite bool_decide_eq_true_2 by left.
           rewrite list_lookup_insert_eq by assumption. now rewrite Hmsg.
        -- rewrite bool_decide_eq_false_2.
           ++ apply list_lookup_insert_ne. congruence.
           ++ intros Hin. apply elem_of_cons in Hin as [?|?]; contradiction.
Qed.

(** Committing the computed messages in any order of the positions leaves
    the same array of messages. *)
Lemma commit_any_order computed f order :
  let k := length (Factor.adj_vIDs f) in
  length computed = k ->
  (k <= length (Factor.messages f))%nat ->
  Permutation order (seq 0 k) ->
  exists evs,
    commit_loop computed order f =
      (Ok evs, Factor.set_messages (computed ++ drop k (Factor.messages f)) f).
Proof.
  intros k Hlen Hk Hperm.
  assert (Hin : forall i, i ∈ order <-> (i < k)%nat).
  { intros i. rewrite Hperm, elem_of_seq. lia. }
  destruct (commit_loop_run computed order f) as (evs & l' & Hrun & Hl & Hl').
  { intros v Hv. apply Hin in Hv. lia. }
  exists evs. rewrite Hrun. do 2 f_equal. apply list_eq. intros i.
  rewrite Hl'. destruct (decide (i < k)%nat) as [Hi|Hi].
  - rewrite bool_decide_eq_true_2 by now apply Hin.
    rewrite lookup_app_l by lia. reflexivity.
  - rewrite bool_decide_eq_false_2 by now rewrite Hin.
    rewrite lookup_app_r by lia. rewrite lookup_drop. f_equal. lia.
Qed.

(** C9.  Within [compute_messages] every outgoing message is the one
    computed from the factor as it was at entry ([message_from], whose
    cavity subtracts the entry messages); if one of them raises, the
    messages are untouched; otherwise the array is overwritten after all
    are computed, and committing in any order of the neighbours gives the
    array that [compute_messages] leaves. *)
Theorem compute_messages_from_entry_state vobj eta_damping f :
  let k := length (Factor.adj_vIDs f) in
  match messages_from vobj eta_damping f (seq 0 k) with
  | inl e => compute_messages vobj eta_damping f = (Raise e, f)
  | inr computed =>
      let f' := Factor.set_messages (computed ++ drop k (Factor.messages f)) f in
      (forall v, (v < k)%nat ->
         exists msg, message_from vobj eta_damping f v = Ok msg /\
                     Factor.messages f' !! v = Some msg) /\
      (exists evs, compute_messages vobj eta_damping f = (Ok evs, f')) /\
      (forall order, Permutation order (seq 0 k) ->
         exists evs, commit_loop computed order f = (Ok evs, f'))
  end.
Proof.
  intros k.
  assert (Hloop := messages_loop_run vobj eta_damping f k 0%nat []).
  change (block_start vobj f 0) with 0%nat in Hloop.
  destruct (messages_from vobj eta_damping f (seq 0 k)) as [e|computed] eqn:Hfrom.
  - unfold compute_messages, bind, get. cbv beta iota zeta. fold k.
    now rewrite Hloop.
  - destruct (messages_from_length _ _ _ _ _ Hfrom) as [Hlen Hlt].
    rewrite length_seq in Hlen.
    assert (Hk : (k <= length (Factor.messages f))%nat).
    { destruct k as [|k']; [lia|]. specialize (Hlt k').
      rewrite elem_of_seq in Hlt. lia. }
    intros f'. split; [|split].
    + intros v Hv.
      assert (Hsome : exists msg, computed !! v = Some msg)
        by (apply lookup_lt_is_Some_2; lia).
      destruct Hsome as [msg Hmsg]. exists msg. split.
      * clear -Hfrom Hmsg Hv.
        assert (Hgen : forall vs ms i v' m,
                  messages_from vobj eta_damping f vs = Ok ms ->
                  vs !! i = Some v' -> ms !! i = Some m ->
                  message_from vobj eta_damping f v' = Ok m).
        { induction vs as [|a vs IH]; intros ms i v' m; simpl; [now intros _ ?|].
          destruct (message_from _ _ _ a) as [e|ma] eqn:Ha; [discriminate|]. simpl.
          destruct (messages_from _ _ _ vs) as [e|rest]; [discriminate|]. simpl.
          intros [= <-]. destruct i as [|i]; simpl.
          - intros [= <-] [= <-]. exact Ha.
          - now apply IH. }
        apply (Hgen _ _ v v msg Hfrom); [|assumption].
        now rewrite lookup_seq_lt.
      * unfold f'. simpl. rewrite lookup_app_l by lia. exact Hmsg.
    + destruct (commit_any_order computed f (seq 0 k)) as [evs Hevs];
        [assumption|assumption|reflexivity|].
      exists evs. unfold compute_messages, bind, get. cbv beta iota zeta. fold k.
      rewrite Hloop. simpl. exact Hevs.
    + intros order Hperm. now apply commit_any_order.
Qed.

(** ** The run of [update_belief] *)

Lemma Forall2_message_to_unique id (fobj : nat -> Factor.t) adj msgs msgs' :
  Forall2 (fun r msg => message_to id (fobj r) = Some msg) adj msgs ->
  Forall2 (fun r msg => message_to id (fobj r) = Some msg) adj msgs' ->
  msgs = msgs'.
Proof.
  intros H. revert msgs'. induction H as [|r msg adj msgs Hr _ IH]; intros msgs' H'.
  - now inversion H'.
  - inversion H' as [|? msg' ? msgs0 Hr' Hrest]; subst.
    f_equal; [congruence|now apply IH].
Qed.

Lemma product_with_eta prior msgs :
  eta (product_with prior msgs) = fold_left vadd (map eta msgs) (eta prior).
Proof.
  unfold product_with. revert prior.
  induction msgs as [|m msgs IH]; intros prior; [reflexivity|]. simpl. now rewrite IH.
Qed.

Lemma product_with_lam prior msgs :
  lam (product_with prior msgs) = fold_left madd (map lam msgs) (lam prior).
Proof.
  unfold product_with. revert prior.
  induction msgs as [|m msgs IH]; intros prior; [reflexivity|]. simpl. now rewrite IH.
Qed.

Lemma slots_present_messages h v :
  slots_present h v ->
  forall r, r ∈ VariableNode.adj_factors (var_obj h v) ->
    exists m, index_of (VariableNode.variableID (var_obj h v))
                       (Factor.adj_vIDs (factor_obj h r)) = Some m /\
              (m < length (Factor.messages (factor_obj h r)))%nat.
Proof. intros Hs r Hr. destruct (Hs r Hr) as (m & ? & ? & ?). eauto. Qed.

Lemma update_belief_run v h msgs :
  slots_present h v ->
  Forall2 (fun r msg =>
             message_to (VariableNode.variableID (var_obj h v)) (factor_obj h r) = Some msg)
          (VariableNode.adj_factors (var_obj h v)) msgs ->
  let self := var_obj h v in
  let b := product_with (VariableNode.prior self) msgs in
  match inv (lam b) with
  | inl e => update_belief v h = (Raise e, belief_assigned b v h)
  | inr Sg =>
      exists h',
        update_belief v h = (Ok tt, h') /\
        var_obj h' v =
          VariableNode.set_mu (mat_vec Sg (eta b))
            (VariableNode.set_Sigma Sg (VariableNode.set_belief b self)) /\
        (forall v', v' <> v -> var_obj h' v' = var_obj h v') /\
        graph h' = graph h /\
        forall r,
          (r ∈ VariableNode.adj_factors self ->
           factor_obj h' r = receive b (VariableNode.variableID self) (factor_obj h r)) /\
          (r ∉ VariableNode.adj_factors self -> factor_obj h' r = factor_obj h r)
  end.
Proof.
  intros Hs Hmsgs self b.
  destruct (incoming_run (factor_obj h) (VariableNode.variableID self)
              (VariableNode.adj_factors self) (VariableNode.prior self)
              (slots_present_messages h v Hs)) as (msgs' & Hmsgs' & Hinc).
  rewrite <- (Forall2_message_to_unique _ _ _ _ _ Hmsgs Hmsgs') in Hinc.
  fold (product_with (VariableNode.prior self) msgs) in Hinc. fold b in Hinc.
  unfold update_belief, bind, get, lift, modify. cbv beta iota zeta.
  fold self. rewrite Hinc. cbv beta iota.
  destruct (inv (lam b)) as [e|Sg]; [reflexivity|].
  set (h2 := set_var v _ (set_var v _ (set_var v _ h))).
  assert (Hv2 : var_obj h2 v =
                VariableNode.set_mu (mat_vec Sg (eta b))
                  (VariableNode.set_Sigma Sg (VariableNode.set_belief b self))).
  { unfold h2. simpl. now rewrite !fupd_same. }
  destruct (send_beliefs_run v (VariableNode.adj_factors self) h2)
    as (h' & Hrun & Hvar & Hgraph & Hfobj).
  { intros r Hr. destruct (Hs r Hr) as (m & Hm & _ & Hlt). exists m.
    rewrite Hv2. simpl. now split. }
  exists h'. rewrite Hrun. split; [reflexivity|]. rewrite Hvar.
  split; [exact Hv2|]. split; [|split; [exact Hgraph|]].
  - intros v' Hne. unfold h2. simpl. now rewrite !fupd_other.
  - intros r. destruct (Hfobj r) as [Hin Hout]. rewrite Hv2 in Hin. simpl in Hin.
    split; assumption.
Qed.

Lemma receive_belief_in_sync h h' v b :
  slots_present h v ->
  mirrored h v ->
  graph h' = graph h ->
  VariableNode.belief (var_obj h' v) = b ->
  (forall r,
     (r ∈ VariableNode.adj_factors (var_obj h v) ->
      factor_obj h' r =
        receive b (VariableNode.variableID (var_obj h v)) (factor_obj h r)) /\
     (r ∉ VariableNode.adj_factors (var_obj h v) -> factor_obj h' r = factor_obj h r)) ->
  beliefs_in_sync h' v.
Proof.
  intros Hs Hmir Hg Hb Hfobj r i Hfac Hnode. rewrite Hg in Hfac.
  assert (Hsame : Factor.adj_var_nodes (factor_obj h' r) =
                  Factor.adj_var_nodes (factor_obj h r)).
  { destruct (Hfobj r) as [Hin Hout].
    destruct (decide (r ∈ VariableNode.adj_factors (var_obj h v))) as [Hr|Hr].
    - rewrite (Hin Hr). apply receive_adj_var_nodes.
    - now rewrite (Hout Hr). }
  rewrite Hsame in Hnode. destruct (Hmir r i Hfac Hnode) as [Hr Hix].
  destruct (Hs r Hr) as (m & Hm & _ & Hlt).
  assert (m = i) by congruence. subst m.
  destruct (Hfobj r) as [Hin _]. rewrite (Hin Hr), Hb.
  now apply receive_slot.
Qed.

(** C7.  When every adjacent factor has the slots of the variable and the
    summed precision is invertible, [update_belief] sets the belief to the
    component-wise sum of the prior and of the messages [F.messages[m]],
    [m = F.adj_vIDs.index(id)]; sets [Sigma] to the inverse of its [lam]
    and [mu] to [Sigma @ eta]; stores the belief in slot [m] of every
    adjacent factor, so that every slot kept for the variable holds its
    belief when adjacency is mirrored; and changes no prior. *)
Theorem update_belief_sets_product v h msgs Sg :
  slots_present h v ->
  Forall2 (fun r msg =>
             message_to (VariableNode.variableID (var_obj h v)) (factor_obj h r) = Some msg)
          (VariableNode.adj_factors (var_obj h v)) msgs ->
  inv (lam (product_with (VariableNode.prior (var_obj h v)) msgs)) = Ok Sg ->
  let self := var_obj h v in
  let b := product_with (VariableNode.prior self) msgs in
  exists h',
    update_belief v h = (Ok tt, h') /\
    VariableNode.belief (var_obj h' v) = b /\
    eta b = fold_left vadd (map eta msgs) (eta (VariableNode.prior self)) /\
    lam b = fold_left madd (map lam msgs) (lam (VariableNode.prior self)) /\
    VariableNode.Sigma (var_obj h' v) = Sg /\
    is_inverse (lam b) Sg /\
    VariableNode.mu (var_obj h' v) = mat_vec Sg (eta b) /\
    (forall r m,
       r ∈ VariableNode.adj_factors self ->
       index_of (VariableNode.variableID self) (Factor.adj_vIDs (factor_obj h r)) = Some m ->
       Factor.adj_beliefs (factor_obj h' r) !! m = Some b) /\
    (forall r, Factor.messages (factor_obj h' r) = Factor.messages (factor_obj h r)) /\
    (forall v', VariableNode.prior (var_obj h' v') = VariableNode.prior (var_obj h v')) /\
    (mirrored h v -> beliefs_in_sync h' v).
Proof.
  intros Hs Hmsgs Hinv self b.
  pose proof (update_belief_run v h msgs Hs Hmsgs) as Hrun.
  cbv zeta in Hrun. fold self b in Hrun, Hinv. rewrite Hinv in Hrun.
  destruct Hrun as (h' & Hrun & Hv & Hothers & Hgraph & Hfobj).
  exists h'. split; [exact Hrun|].
  assert (Hb : VariableNode.belief (var_obj h' v) = b) by now rewrite Hv.
  split; [exact Hb|].
  split; [apply product_with_eta|]. split; [apply product_with_lam|].
  split; [now rewrite Hv|]. split; [now apply inv_Ok|].
  split; [now rewrite Hv|]. split; [|split; [|split]].
  - intros r m Hr Hm. destruct (Hfobj r) as [Hin _]. rewrite (Hin Hr).
    destruct (Hs r Hr) as (m' & Hm' & _ & Hlt).
    fold self in Hm'. assert (m' = m) by congruence. subst m'.
    now apply receive_slot.
  - intros r. destruct (Hfobj r) as [Hin Hout].
    destruct (decide (r ∈ VariableNode.adj_factors self)) as [Hr|Hr].
    + rewrite (Hin Hr). apply receive_messages.
    + now rewrite (Hout Hr).
  - intros v'. destruct (Nat.eq_dec v' v) as [->|Hne].
    + now rewrite Hv.
    + now rewrite (Hothers v' Hne).
  - intros Hmir. now apply (receive_belief_in_sync h h' v b).
Qed.

Lemma slots_present_one_edge prior msg : slots_present (heap_one_edge prior msg) 0%nat.
Proof.
  intros r _. exists 0%nat. simpl. repeat split; lia.
Qed.

Lemma messages_one_edge prior msg :
  Forall2 (fun r m =>
             message_to (VariableNode.variableID (var_obj (heap_one_edge prior msg) 0%nat))
                        (factor_obj (heap_one_edge prior msg) r) = Some m)
          (VariableNode.adj_factors (var_obj (heap_one_edge prior msg) 0%nat)) [msg].
Proof. repeat constructor. Qed.

Lemma update_belief_sets_product_witness :
  exists h',
    update_belief 0%nat (heap_one_edge (mkGaussian [1] [[1]]) (mkGaussian [2] [[3]]))
      = (Ok tt, h') /\
    VariableNode.belief (var_obj h' 0%nat) = mkGaussian [1 + 2] [[1 + 3]] /\
    VariableNode.Sigma (var_obj h' 0%nat) = [[/ (1 + 3)]] /\
    beliefs_in_sync h' 0%nat.
Proof.
  assert (Hinv : inv [[1 + 3]] = Ok [[/ (1 + 3)]]) by (apply inv_1x1; lra).
  destruct (update_belief_sets_product 0%nat
              (heap_one_edge (mkGaussian [1] [[1]]) (mkGaussian [2] [[3]]))
              [mkGaussian [2] [[3]]] [[/ (1 + 3)]]
              (slots_present_one_edge _ _) (messages_one_edge _ _) Hinv)
    as (h' & Hrun & Hb & _ & _ & HS & _ & _ & _ & _ & _ & Hsync).
  exists h'. split; [exact Hrun|]. split; [exact Hb|]. split; [exact HS|].
  apply Hsync. intros r i Hr Hi. simpl in *.
  destruct i as [|i]; [|discriminate]. split; [exact Hr|reflexivity].
Defined.

(** ** Failure of the belief update *)

Lemma for_each_app {S A} (xs ys : list A) (body : A -> M S unit) s :
  for_each (xs ++ ys) body s =
    match for_each xs body s with
    | (inl e, s') => (inl e, s')
    | (inr _, s') => for_each ys body s'
    end.
Proof.
  revert s. induction xs as [|x xs IH]; intros s; simpl; [reflexivity|].
  unfold bind. destruct (body x s) as [[e|[]] s']; [reflexivity|]. apply IH.
Qed.

(** An exception raised by the body for one element ends the loop with
    that exception, in the state the body left. *)
Lemma for_each_raises {S A} (before after : list A) x (body : A -> M S unit) s s1 e s2 :
  for_each before body s = (Ok tt, s1) ->
  body x s1 = (Raise e, s2) ->
  for_each (before ++ x :: after) body s = (Raise e, s2).
Proof.
  intros Hbefore Hx. rewrite for_each_app, Hbefore. simpl. unfold bind.
  now rewrite Hx.
Qed.

(** C8.  With the slots of the variable present, [update_belief] raises
    the inversion error exactly when the summed precision has no inverse.
    It then stops with the belief assigned and with [mu], [Sigma] and
    every factor, hence every stored belief slot, as before; the sweep
    over the variables and the iteration around it end with the same
    exception in that same state. *)
Theorem update_belief_non_invertible v h msgs :
  slots_present h v ->
  Forall2 (fun r msg =>
             message_to (VariableNode.variableID (var_obj h v)) (factor_obj h r) = Some msg)
          (VariableNode.adj_factors (var_obj h v)) msgs ->
  let b := product_with (VariableNode.prior (var_obj h v)) msgs in
  let h' := belief_assigned b v h in
  (fst (update_belief v h) = Raise LinAlgError <-> singular (lam b)) /\
  (singular (lam b) ->
     update_belief v h = (Raise LinAlgError, h') /\
     VariableNode.belief (var_obj h' v) = b /\
     VariableNode.mu (var_obj h' v) = VariableNode.mu (var_obj h v) /\
     VariableNode.Sigma (var_obj h' v) = VariableNode.Sigma (var_obj h v) /\
     (forall r, factor_obj h' r = factor_obj h r) /\
     (forall h0 before after,
        FactorGraph.var_nodes (graph h0) = before ++ v :: after ->
        for_each before update_belief h0 = (Ok tt, h) ->
        update_all_beliefs h0 = (Raise LinAlgError, h')) /\
     (forall (local_relin robustify : bool) (s0 s1 s2 h0 : Heap) before after,
        (if robustify then robustify_all_factors else @ret Heap unit tt) s0
          = (Ok tt, s1) ->
        (if FactorGraph.nonlinear_factors (graph s1) && local_relin
         then relinearise_factors else @ret Heap unit tt) s1 = (Ok tt, s2) ->
        compute_all_messages local_relin s2 = (Ok tt, h0) ->
        FactorGraph.var_nodes (graph h0) = before ++ v :: after ->
        for_each before update_belief h0 = (Ok tt, h) ->
        synchronous_iteration local_relin robustify s0 = (Raise LinAlgError, h'))).
Proof.
  intros Hs Hmsgs b h'.
  pose proof (update_belief_run v h msgs Hs Hmsgs) as Hrun.
  cbv zeta in Hrun. fold b in Hrun.
  assert (Hfail : singular (lam b) -> update_belief v h = (Raise LinAlgError, h')).
  { intros Hsing. destruct (inv (lam b)) as [e|Sg] eqn:Hinv.
    - apply inv_Raise in Hinv as [-> _]. exact Hrun.
    - apply inv_Ok in Hinv. exfalso. apply Hsing. now exists Sg. }
  split.
  - split; [|intros Hsing; now rewrite (Hfail Hsing)].
    destruct (inv (lam b)) as [e|Sg] eqn:Hinv.
    + intros _. now apply inv_Raise in Hinv.
    + destruct Hrun as (h2 & -> & _). discriminate.
  - intros Hsing. specialize (Hfail Hsing).
    assert (Hsweep : forall h0 before after,
              FactorGraph.var_nodes (graph h0) = before ++ v :: after ->
              for_each before update_belief h0 = (Ok tt, h) ->
              update_all_beliefs h0 = (Raise LinAlgError, h')).
    { intros h0 before after Hnodes Hbefore.
      unfold update_all_beliefs, bind, get. cbv beta iota. rewrite Hnodes.
      now apply (for_each_raises before after v update_belief h0 h). }
    split; [exact Hfail|]. unfold h', belief_assigned. simpl. rewrite fupd_same.
    do 4 (split; [reflexivity|]). split; [exact Hsweep|].
    intros lr rb s0 s1 s2 h0 before after Hrob Hrel Hmsg Hnodes Hbefore.
    unfold synchronous_iteration, bind at 1. rewrite Hrob.
    unfold bind at 1. unfold get. cbv beta iota.
    unfold bind at 1. rewrite Hrel.
    unfold bind at 1. rewrite Hmsg.
    now apply (Hsweep h0 before after).
Qed.

Lemma update_belief_non_invertible_witness :
  fst (update_belief 0%nat
         (heap_one_edge (NdimGaussian_init 1) (NdimGaussian_init 1)))
    = Raise LinAlgError.
Proof.
  apply (update_belief_non_invertible 0%nat
           (heap_one_edge (NdimGaussian_init 1) (NdimGaussian_init 1))
           [NdimGaussian_init 1]
           (slots_present_one_edge _ _) (messages_one_edge _ _)).
  simpl. intros [B HB].
  unfold madd, vadd in HB. simpl in HB.
  replace (0 + 0) with 0 in HB by lra.
  apply is_inverse_1x1 in HB as [HB _]. now apply HB.
Defined.

(** ** Messages at construction *)

Lemma vadd_vzero v : vadd v (vzero (length v)) = v.
Proof.
  unfold vadd, vzero. induction v as [|a v IH]; simpl; [reflexivity|].
  rewrite IH. f_equal. lra.
Qed.

Lemma madd_mzero d A :
  Forall (fun row => length row = d) A -> madd A (mzero (length A) d) = A.
Proof.
  unfold madd, mzero. induction 1 as [|row A Hrow _ IH]; simpl; [reflexivity|].
  rewrite IH. f_equal. fold (vzero d). rewrite <- Hrow. apply vadd_vzero.
Qed.

(** The zero Gaussian is the identity of the product. *)
Lemma gaussian_add_zero d g :
  gaussian_of_size d g -> gaussian_add g (NdimGaussian_init d) = g.
Proof.
  intros (He & Hl & Hrows). destruct g as [e l]. simpl in *.
  unfold gaussian_add, NdimGaussian_init. simpl. f_equal.
  - rewrite <- He. apply vadd_vzero.
  - rewrite <- Hl at 1. now apply madd_mzero.
Qed.

Lemma product_with_zeros d g (n : nat) :
  gaussian_of_size d g ->
  product_with g (repeat (NdimGaussian_init d) n) = g.
Proof.
  intros Hg. unfold product_with. induction n as [|n IH]; simpl; [reflexivity|].
  now rewrite (gaussian_add_zero d g Hg).
Qed.

Lemma Forall_repeat_same {A} (P : A -> Prop) x n : P x -> Forall P (repeat x n).
Proof. intros Hx. induction n; simpl; constructor; assumption. Qed.

Lemma NdimGaussian_init_zero d : zero_gaussian (NdimGaussian_init d).
Proof.
  split; simpl.
  - now apply Forall_repeat_same.
  - apply Forall_repeat_same. now apply Forall_repeat_same.
Qed.

Lemma index_of_lookup id l m : index_of id l = Some m -> l !! m = Some id.
Proof.
  revert m. induction l as [|y l IH]; intros m; simpl; [discriminate|].
  destruct (Nat.eqb_spec y id) as [->|Hne].
  - now intros [= <-].
  - destruct (index_of id l) as [m'|]; simpl; [|discriminate].
    intros [= <-]. simpl. now apply IH.
Qed.

Lemma index_of_elem id l : id ∈ l -> exists m, index_of id l = Some m.
Proof.
  induction l as [|y l IH]; intros Hin; [inversion Hin|]. simpl.
  destruct (Nat.eqb_spec y id) as [->|Hne]; [eauto|].
  apply elem_of_cons in Hin as [->|Hin]; [contradiction|].
  destruct (IH Hin) as [m ->]. simpl. eauto.
Qed.

(** In a pristine factor the message for a variable it lists is the zero
    Gaussian of the size of the neighbour at that position. *)
Lemma pristine_message vobj f id :
  pristine vobj f -> id ∈ Factor.adj_vIDs f ->
  exists m node,
    index_of id (Factor.adj_vIDs f) = Some m /\
    Factor.adj_var_nodes f !! m = Some node /\
    VariableNode.variableID (vobj node) = id /\
    (m < length (Factor.messages f))%nat /\
    (m < length (Factor.adj_beliefs f))%nat /\
    message_to id f = Some (NdimGaussian_init (VariableNode.dofs (vobj node))).
Proof.
  intros (Hids & Hmsgs & Hlen) Hin.
  destruct (index_of_elem _ _ Hin) as [m Hm].
  pose proof (index_of_lookup _ _ _ Hm) as Hlook.
  rewrite Hids, list_lookup_fmap in Hlook.
  destruct (Factor.adj_var_nodes f !! m) as [node|] eqn:Hnode; [|discriminate].
  injection Hlook as Hid. exists m, node.
  pose proof (lookup_lt_Some _ _ _ Hnode) as Hlt.
  repeat split; try assumption.
  - rewrite Hmsgs, length_map. exact Hlt.
  - now rewrite Hlen.
  - unfold message_to. rewrite Hm, Hmsgs, list_lookup_fmap, Hnode. reflexivity.
Qed.

Lemma Forall2_repeat_messages fobj id d adj :
  (forall r, r ∈ adj -> message_to id (fobj r) = Some (NdimGaussian_init d)) ->
  Forall2 (fun (r : nat) msg => message_to id (fobj r : Factor.t) = Some msg)
          adj (repeat (NdimGaussian_init d) (length adj)).
Proof.
  induction adj as [|r adj IH]; intros H; simpl; constructor.
  - apply H. left.
  - apply IH. intros r' Hr'. apply H. now right.
Qed.

(** C10.  A constructed factor holds the zero Gaussian ([eta = 0],
    [lam = 0]) as the message to each neighbour, and the zero Gaussian is
    the identity of the product.  So for a variable whose adjacent factors
    are pristine, [update_belief] sets the belief to the prior itself, and
    raises the inversion error, the belief being assigned, when the
    precision of the prior has no inverse. *)
Theorem update_belief_before_messages :
  (forall vobj factor_id adj_var_nodes measurement scale_factor gauss_noise_std
          meas_fn jac_fn loss mahalanobis_threshold,
     let f := Factor_init vobj factor_id adj_var_nodes measurement scale_factor
                gauss_noise_std meas_fn jac_fn loss mahalanobis_threshold in
     pristine vobj f /\
     forall i msg, Factor.messages f !! i = Some msg -> zero_gaussian msg) /\
  (forall d g, gaussian_of_size d g -> gaussian_add g (NdimGaussian_init d) = g) /\
  (forall h v,
     let self := var_obj h v in
     (forall r, r ∈ VariableNode.adj_factors self ->
        pristine (var_obj h) (factor_obj h r) /\
        VariableNode.variableID self ∈ Factor.adj_vIDs (factor_obj h r)) ->
     (forall r node,
        r ∈ VariableNode.adj_factors self ->
        node ∈ Factor.adj_var_nodes (factor_obj h r) ->
        VariableNode.variableID (var_obj h node) = VariableNode.variableID self ->
        VariableNode.dofs (var_obj h node) = VariableNode.dofs self) ->
     gaussian_of_size (VariableNode.dofs self) (VariableNode.prior self) ->
     (forall Sg, inv (lam (VariableNode.prior self)) = Ok Sg ->
        exists h', update_belief v h = (Ok tt, h') /\
                   VariableNode.belief (var_obj h' v) = VariableNode.prior self) /\
     (singular (lam (VariableNode.prior self)) ->
        update_belief v h =
          (Raise LinAlgError, belief_assigned (VariableNode.prior self) v h))).
Proof.
  split; [|split].
  - intros vobj fid adj z sf std mf jf l tau f. split.
    + unfold pristine, f. simpl. repeat split. now rewrite length_map.
    + intros i msg. unfold f. simpl. rewrite list_lookup_fmap.
      destruct (adj !! i); [|discriminate]. intros [= <-].
      apply NdimGaussian_init_zero.
  - exact gaussian_add_zero.
  - intros h v self Hpr Hids Hprior.
    assert (Hmsg : forall r, r ∈ VariableNode.adj_factors self ->
              exists m, index_of (VariableNode.variableID self)
                                 (Factor.adj_vIDs (factor_obj h r)) = Some m /\
                        (m < length (Factor.messages (factor_obj h r)))%nat /\
                        (m < length (Factor.adj_beliefs (factor_obj h r)))%nat /\
                        message_to (VariableNode.variableID self) (factor_obj h r) =
                          Some (NdimGaussian_init (VariableNode.dofs self))).
    { intros r Hr. destruct (Hpr r Hr) as [Hp Hin].
      destruct (pristine_message _ _ _ Hp Hin)
        as (m & node & Hm & Hnode & Hid & Hlm & Hlb & Hmsg).
      exists m. apply list_elem_of_lookup_2 in Hnode.
      rewrite (Hids r node Hr Hnode Hid) in Hmsg. auto. }
    assert (Hs : slots_present h v).
    { intros r Hr. destruct (Hmsg r Hr) as (m & ? & ? & ? & _). eauto. }
    pose proof (update_belief_run v h _ Hs
                  (Forall2_repeat_messages (factor_obj h) _ _ _
                     (fun r Hr => ltac:(destruct (Hmsg r Hr) as (m & _ & _ & _ & Hm);
                                        exact Hm)))) as Hrun.
    cbv zeta in Hrun. fold self in Hrun.
    rewrite (product_with_zeros _ _ _ Hprior) in Hrun.
    split.
    + intros Sg Hinv. rewrite Hinv in Hrun.
      destruct Hrun as (h' & Hrun & Hv & _). exists h'. split; [exact Hrun|].
      now rewrite Hv.
    + intros Hsing. destruct (inv (lam (VariableNode.prior self))) as [e|Sg] eqn:Hinv.
      * apply inv_Raise in Hinv as [-> _]. exact Hrun.
      * apply inv_Ok in Hinv. exfalso. apply Hsing. now exists Sg.
Qed.

(** ** Local relinearisation *)

Lemma compute_factor_at x f res f1 :
  compute_factor (Some x) true f = (Ok res, f1) ->
  Factor.linpoint f1 = x /\
  Factor.factor f1 = mkGaussian (fst res) (snd res) /\
  f1 = Factor.set_factor (mkGaussian (fst res) (snd res)) (Factor.set_linpoint x f).
Proof.
  unfold compute_factor, bind, get, lift, modify, ret. cbv beta iota zeta.
  match goal with
  | |- context [match ?scrut with inl _ => _ | inr _ => _ end] =>
      destruct scrut as [e|res'] eqn:Hres
  end; [discriminate|].
  intros [= <- <-]. repeat split.
Qed.

Lemma relinearise_factor_run beta m f x_now :
  adj_belief_means (Factor.adj_beliefs f) = Ok x_now ->
  relinearise_factor beta m f =
    if Rgtb (norm (vsub (Factor.linpoint f) x_now)) beta
       && Z.geb (Factor.iters_since_relin f) m
    then match compute_factor (Some x_now) true f with
         | (inl e, f1) => (inl e, f1)
         | (inr _, f1) =>
             (Ok true, Factor.set_eta_damping 0 (Factor.set_iters_since_relin 0 f1))
         end
    else (Ok false,
          Factor.set_iters_since_relin (Factor.iters_since_relin f + 1) f).
Proof.
  intros Hmeans. unfold relinearise_factor, bind at 1, get. cbv beta iota.
  unfold bind at 1, lift. rewrite Hmeans. cbv beta iota.
  destruct (_ && _); [|reflexivity].
  unfold bind at 1. destruct (compute_factor _ _ _) as [[e|res] f1]; reflexivity.
Qed.

Lemma relinearise_factor_gate beta m f b f' :
  relinearise_factor beta m f = (Ok b, f') ->
  (b = true ->
     (m <= Factor.iters_since_relin f)%Z /\ Factor.iters_since_relin f' = 0%Z) /\
  (b = false ->
     Factor.iters_since_relin f' = (Factor.iters_since_relin f + 1)%Z).
Proof.
  destruct (adj_belief_means (Factor.adj_beliefs f)) as [e|x_now] eqn:Hmeans.
  { unfold relinearise_factor, bind, get, lift. rewrite Hmeans. discriminate. }
  rewrite (relinearise_factor_run _ _ _ _ Hmeans).
  destruct (Rgtb _ _ && Z.geb _ _) eqn:Hc.
  - destruct (compute_factor _ _ _) as [[e|res] f1]; [discriminate|].
    intros [= <- <-]. split; [|discriminate]. intros _.
    apply andb_prop in Hc as [_ Hge]. apply Z.geb_le in Hge. now split.
  - intros [= <- <-]. split; [discriminate|]. reflexivity.
Qed.

Lemma commit_message_counter computed v f res f' :
  commit_message computed v f = (res, f') ->
  Factor.iters_since_relin f' = Factor.iters_since_relin f.
Proof.
  unfold commit_message, bind, get, lift, put, throw, ret. cbv beta iota.
  destruct (computed !! v) as [msg|]; simpl; [|now intros [= _ <-]].
  destruct (Nat.ltb v _); now intros [= _ <-].
Qed.

Lemma commit_loop_counter computed order : forall f res f',
  commit_loop computed order f = (res, f') ->
  Factor.iters_since_relin f' = Factor.iters_since_relin f.
Proof.
  induction order as [|v order IH]; intros f res f'; simpl.
  - now intros [= _ <-].
  - unfold bind at 1.
    destruct (commit_message computed v f) as [[e|ev] f1] eqn:H1.
    + intros [= _ <-]. now apply commit_message_counter in H1.
    + apply commit_message_counter in H1. unfold bind, ret.
      destruct (commit_loop computed order f1) as [[e|evs] f2] eqn:H2;
        intros [= _ <-]; rewrite <- H1; now apply (IH _ _ _ H2).
Qed.

(** The other phases of an iteration leave the counter of a factor alone:
    the reweighting, the computation of the messages, and the belief
    received from a variable. *)
Lemma counter_kept_between_steps :
  (forall f res f', robustify_loss f = (res, f') ->
     Factor.iters_since_relin f' = Factor.iters_since_relin f) /\
  (forall vobj d f res f', compute_messages vobj d f = (res, f') ->
     Factor.iters_since_relin f' = Factor.iters_since_relin f) /\
  (forall b id f,
     Factor.iters_since_relin (receive b id f) = Factor.iters_since_relin f).
Proof.
  split; [|split].
  - intros f res f'. rewrite robustify_loss_run.
    destruct (robust_update f) as [e|[new flag]]; now intros [= _ <-].
  - intros vobj d f res f'. unfold compute_messages, bind, get. cbv beta iota zeta.
    pose proof (messages_loop_run vobj d f (length (Factor.adj_vIDs f)) 0%nat [])
      as Hloop.
    change (block_start vobj f 0) with 0%nat in Hloop. rewrite Hloop.
    destruct (messages_from _ _ _ _) as [e|ms]; [now intros [= _ <-]|].
    apply commit_loop_counter.
  - intros b id f. unfold receive. now destruct (index_of _ _).
Qed.

(** From a non-negative counter, a relinearisation at step [j] needs the
    counter to have reached the minimum. *)
Lemma relin_run_first beta m f bs f' :
  relin_run beta m f bs f' ->
  (0 <= Factor.iters_since_relin f)%Z ->
  forall j, bs !! j = Some true ->
  (m <= Factor.iters_since_relin f + Z.of_nat j)%Z.
Proof.
  induction 1 as [|f f0 f1 b bs f2 Hsame Hstep Hrun IH]; intros Hpos j Hj.
  - discriminate.
  - destruct (relinearise_factor_gate _ _ _ _ _ Hstep) as [Ht Hf].
    destruct j as [|j]; simpl in Hj.
    + injection Hj as ->. destruct (Ht eq_refl). lia.
    + destruct b.
      * destruct (Ht eq_refl) as [_ H0].
        assert (m <= Factor.iters_since_relin f1 + Z.of_nat j)%Z by (apply IH; [lia|assumption]).
        lia.
      * specialize (Hf eq_refl).
        assert (m <= Factor.iters_since_relin f1 + Z.of_nat j)%Z by (apply IH; [lia|assumption]).
        lia.
Qed.

(** Two relinearisations of one factor are more than [min_linear_iters]
    iterations apart. *)
Lemma relin_run_gap beta m f bs f' :
  relin_run beta m f bs f' ->
  forall i j, (i < j)%nat -> bs !! i = Some true -> bs !! j = Some true ->
  (m < Z.of_nat j - Z.of_nat i)%Z.
Proof.
  induction 1 as [|f f0 f1 b bs f2 Hsame Hstep Hrun IH]; intros i j Hij Hi Hj.
  - discriminate.
  - destruct j as [|j]; [lia|]. simpl in Hj.
    destruct i as [|i]; simpl in Hi.
    + injection Hi as ->.
      destruct (relinearise_factor_gate _ _ _ _ _ Hstep) as [Ht _].
      destruct (Ht eq_refl) as [_ H0].
      pose proof (relin_run_first _ _ _ _ _ Hrun ltac:(lia) j Hj). lia.
    + assert (m < Z.of_nat j - Z.of_nat i)%Z by (apply IH; [lia|assumption|assumption]).
      lia.
Qed.

(** A loop of methods of distinct factors runs each on the factor as it
    was at entry. *)
Lemma for_each_on_factor (body : M Factor.t unit) rs : forall h h',
  NoDup rs ->
  for_each rs (fun r => on_factor r body) h = (Ok tt, h') ->
  var_obj h' = var_obj h /\ graph h' = graph h /\
  (forall r, r ∈ rs -> body (factor_obj h r) = (Ok tt, factor_obj h' r)) /\
  (forall r, r ∉ rs -> factor_obj h' r = factor_obj h r).
Proof.
  induction rs as [|r0 rs IH]; intros h h' Hnd; simpl.
  - intros [= <-]. repeat split; auto. intros r Hr. inversion Hr.
  - apply NoDup_cons in Hnd as [Hr0 Hnd].
    unfold bind, on_factor at 1.
    destruct (body (factor_obj h r0)) as [[e|[]] f'] eqn:Hbody; [discriminate|].
    intros Hrest. destruct (IH _ _ Hnd Hrest) as (Hv & Hg & Hin & Hout).
    split; [exact Hv|]. split; [exact Hg|]. split.
    + intros r Hr. apply elem_of_cons in Hr as [->|Hr].
      * rewrite (Hout r0 Hr0). simpl. rewrite fupd_same. exact Hbody.
      * rewrite <- (Hin r Hr). simpl. rewrite fupd_other; [reflexivity|].
        intros ->. contradiction.
    + intros r Hr. apply not_elem_of_cons in Hr as [Hne Hr].
      rewrite (Hout r Hr). simpl. now apply fupd_other.
Qed.

Lemma for_each_on_factor_total (body : M Factor.t unit) rs : forall h,
  NoDup rs ->
  (forall r, r ∈ rs -> exists f', body (factor_obj h r) = (Ok tt, f')) ->
  exists h', for_each rs (fun r => on_factor r body) h = (Ok tt, h').
Proof.
  induction rs as [|r0 rs IH]; intros h Hnd Hok; simpl.
  - now exists h.
  - apply NoDup_cons in Hnd as [Hr0 Hnd].
    destruct (Hok r0) as [f' Hbody]; [left|].
    destruct (IH (set_fac r0 f' h) Hnd) as [h' Hrest].
    { intros r Hr. simpl. rewrite fupd_other by (intros ->; contradiction).
      apply Hok. now right. }
    exists h'. unfold bind, on_factor at 1. now rewrite Hbody.
Qed.

(** C6.  For a factor with adjacent belief means [x_now]: the loop body
    calls [compute_factor] at [x_now], resets the counter and the damping
    exactly when the drift exceeds [beta] and the counter has reached
    [min_linear_iters], and otherwise adds one to the counter;
    [relinearise_factors], when non-linear factors are on, returns if the
    body does for every factor, and does this to every factor of the graph
    and nothing to the others; and two relinearisations of a factor are
    more than [min_linear_iters] iterations apart. *)
Theorem relinearise_gate :
  (forall beta m f x_now,
     adj_belief_means (Factor.adj_beliefs f) = Ok x_now ->
     let gate := norm (vsub (Factor.linpoint f) x_now) > beta /\
                 (Factor.iters_since_relin f >= m)%Z in
     (gate ->
      forall res f1,
        compute_factor (Some x_now) true f = (Ok res, f1) ->
        let f' := Factor.set_eta_damping 0 (Factor.set_iters_since_relin 0 f1) in
        relinearise_factor beta m f = (Ok true, f') /\
        Factor.linpoint f' = x_now /\
        Factor.factor f' = mkGaussian (fst res) (snd res) /\
        Factor.iters_since_relin f' = 0%Z /\
        Factor.eta_damping f' = 0) /\
     (~ gate ->
      relinearise_factor beta m f =
        (Ok false,
         Factor.set_iters_since_relin (Factor.iters_since_relin f + 1) f)) /\
     (forall b f', relinearise_factor beta m f = (Ok b, f') -> (b = true <-> gate))) /\
  (forall h,
     FactorGraph.nonlinear_factors (graph h) = true ->
     NoDup (FactorGraph.factors (graph h)) ->
     let step := relinearise_factor (FactorGraph.beta (graph h))
                                    (FactorGraph.min_linear_iters (graph h)) in
     ((forall r, r ∈ FactorGraph.factors (graph h) ->
         exists b f', step (factor_obj h r) = (Ok b, f')) ->
      exists h', relinearise_factors h = (Ok tt, h')) /\
     (forall h', relinearise_factors h = (Ok tt, h') ->
        (forall r, r ∈ FactorGraph.factors (graph h) ->
           exists b, step (factor_obj h r) = (Ok b, factor_obj h' r)) /\
        (forall r, r ∉ FactorGraph.factors (graph h) ->
           factor_obj h' r = factor_obj h r))) /\
  (forall beta m f bs f',
     relin_run beta m f bs f' ->
     forall i j, (i < j)%nat -> bs !! i = Some true -> bs !! j = Some true ->
     (m < Z.of_nat j - Z.of_nat i)%Z).
Proof.
  split; [|split].
  - intros beta m f x_now Hmeans gate.
    pose proof (relinearise_factor_run beta m f x_now Hmeans) as Hrun.
    assert (Hgate : Rgtb (norm (vsub (Factor.linpoint f) x_now)) beta
                    && Z.geb (Factor.iters_since_relin f) m = true <-> gate).
    { unfold gate, Rgtb. rewrite andb_true_iff, Z.geb_le.
      destruct (Rgt_dec _ _); split; intros [? ?]; split; try lia; try easy. }
    split; [|split].
    + intros Hg res f1 Hcf f'. apply Hgate in Hg. rewrite Hg, Hcf in Hrun.
      destruct (compute_factor_at _ _ _ _ Hcf) as (Hlin & Hfac & _).
      split; [exact Hrun|]. unfold f'. simpl. auto.
    + intros Hg. destruct (_ && _); [|exact Hrun].
      exfalso. apply Hg. now apply Hgate.
    + intros b f' Hb. rewrite Hb in Hrun. rewrite <- Hgate.
      destruct (_ && _).
      * destruct (compute_factor _ _ _) as [[e|res] f1]; [discriminate|].
        injection Hrun as -> _. easy.
      * injection Hrun as -> _. easy.
  - intros h Hnl Hnd step.
    assert (Hloop : relinearise_factors h =
              for_each (FactorGraph.factors (graph h))
                       (fun r => on_factor r (step ;;; ret tt)) h).
    { unfold relinearise_factors, bind at 1, get. cbv beta iota zeta.
      now rewrite Hnl. }
    rewrite Hloop. split.
    + intros Hok. apply for_each_on_factor_total; [exact Hnd|].
      intros r Hr. destruct (Hok r Hr) as (b & f' & Hstep).
      exists f'. unfold bind. now rewrite Hstep.
    + intros h' Hrun.
      destruct (for_each_on_factor _ _ _ _ Hnd Hrun) as (_ & _ & Hin & Hout).
      split; [|exact Hout]. intros r Hr.
      specialize (Hin r Hr). unfold bind in Hin.
      destruct (step (factor_obj h r)) as [[e|b] f']; [discriminate|].
      injection Hin as <-. now exists b.
  - exact relin_run_gap.
Qed.

Lemma relinearise_gate_witness :
  exists f',
    relinearise_factor 0.1 3 factor_drifted = (Ok true, f') /\
    Factor.linpoint f' = [0] /\
    Factor.iters_since_relin f' = 0%Z /\
    Factor.eta_damping f' = 0.
Proof.
  destruct (compute_factor (Some [0]) true factor_drifted) as [[e|res] f1] eqn:Hcf;
    [discriminate|].
  destruct (proj1 relinearise_gate 0.1 3%Z factor_drifted [0]
              (adj_belief_means_unit 0)) as (Hrelin & _).
  destruct (Hrelin) with (res := res) (f1 := f1) as (Hrun & Hlin & _ & Hit & Hd).
  - split; [|simpl; lia]. simpl. unfold norm, sumsq, dot. simpl.
    replace ((1 - 0) * (1 - 0) + 0) with 1 by lra. rewrite sqrt_1. lra.
  - exact Hcf.
  - eexists. split; [exact Hrun|]. auto.
Defined.

Lemma update_belief_before_messages_witness :
  exists h',
    update_belief 0%nat heap_pristine = (Ok tt, h') /\
    VariableNode.belief (var_obj h' 0%nat) = mkGaussian [1] [[1]].
Proof.
  destruct update_belief_before_messages as (Hinit & _ & Hupd).
  apply (Hupd heap_pristine 0%nat) with (Sg := [[1]]).
  - intros r _. split.
    + apply Hinit.
    + simpl. apply list_elem_of_In. simpl. auto.
  - intros r node _ _ _. reflexivity.
  - repeat split. simpl. repeat constructor.
  - apply inv_1x1_one.
Defined.

(** ** The joint distribution *)

Lemma head_filter_id (vobj : nat -> VariableNode.t) l : forall k i,
  (forall j r, l !! j = Some r -> VariableNode.variableID (vobj r) = (k + j)%nat) ->
  head (List.filter (fun r => Nat.eqb (VariableNode.variableID (vobj r)) (k + i)) l)
    = l !! i.
Proof.
  induction l as [|a l IH]; intros k i Hid; [reflexivity|]. simpl.
  pose proof (Hid 0%nat a eq_refl) as Ha. rewrite Nat.add_0_r in Ha.
  destruct i as [|i].
  - rewrite Nat.add_0_r, Ha, Nat.eqb_refl. reflexivity.
  - destruct (Nat.eqb_spec (VariableNode.variableID (vobj a)) (k + S i)) as [He|_];
      [lia|].
    replace (k + S i)%nat with (S k + i)%nat by lia. simpl. apply (IH (S k) i).
    intros j r Hj. rewrite (Hid (S j) r Hj). lia.
Qed.

Lemma omap_ext_all {A B} (f g : A -> option B) (l : list A) :
  (forall x, f x = g x) -> omap f l = omap g l.
Proof.
  intros H. induction l as [|a l IH]; [reflexivity|].
  change (omap f (a :: l))
    with (match f a with Some y => y :: omap f l | None => omap f l end).
  change (omap g (a :: l))
    with (match g a with Some y => y :: omap g l | None => omap g l end).
  now rewrite H, IH.
Qed.

Lemma omap_lookup_seq {A} (l pre : list A) :
  omap (fun i => (pre ++ l) !! i) (seq (length pre) (length l)) = l.
Proof.
  revert pre. induction l as [|a l IH]; intros pre; [reflexivity|]. simpl.
  rewrite lookup_app_r, Nat.sub_diag by lia. simpl. f_equal.
  specialize (IH (pre ++ [a])). rewrite length_app in IH. simpl in IH.
  rewrite Nat.add_1_r in IH. rewrite <- IH at 2.
  apply omap_ext_all. intros i. now rewrite <- app_assoc.
Qed.

Lemma vars_by_id_in_order h :
  in_id_order h -> vars_by_id h = FactorGraph.var_nodes (graph h).
Proof.
  intros Hord. unfold vars_by_id.
  etransitivity; [|apply (omap_lookup_seq (FactorGraph.var_nodes (graph h)) [])].
  simpl. apply omap_ext_all. intros i. unfold var_of_id.
  apply (head_filter_id (var_obj h) _ 0%nat i). exact Hord.
Qed.

Lemma block_diag_all_snoc A blocks B :
  block_diag_all ((A :: blocks) ++ [B]) = block_diag (block_diag_all (A :: blocks)) B.
Proof. simpl. now rewrite fold_left_app. Qed.

Lemma layout_of_init vobj n : layout_of vobj n [] (layout_init n).
Proof.
  unfold layout_of, layout_init. simpl. repeat split.
  - apply repeat_length.
  - intros i Hi. lia.
Qed.

Lemma layout_step_in_order vobj n pre acc r :
  layout_of vobj n pre acc ->
  VariableNode.variableID (vobj r) = length pre ->
  (length pre < n)%nat ->
  exists acc', layout_step vobj acc r = Ok acc' /\ layout_of vobj n (pre ++ [r]) acc'.
Proof.
  intros (He & Hl & Hn & Hix & Ht) Hid Hlt.
  unfold layout_step. rewrite Hid, Hn. apply Nat.ltb_lt in Hlt as Hlt'.
  rewrite Hlt'. eexists. split; [reflexivity|].
  unfold layout_of. simpl. repeat split.
  - rewrite He, map_app, concat_app. simpl. now rewrite app_nil_r.
  - destruct pre as [|p pre].
    + reflexivity.
    + simpl length. cbv iota beta. change (Nat.eqb (S (length pre)) 0) with false.
      cbv iota. rewrite Hl. rewrite map_app.
      change (map (fun r0 => lam (VariableNode.prior (vobj r0))) (p :: pre))
        with (lam (VariableNode.prior (vobj p))
              :: map (fun r0 => lam (VariableNode.prior (vobj r0))) pre).
      symmetry. apply block_diag_all_snoc.
  - rewrite length_insert. exact Hn.
  - intros i Hi. rewrite length_app in Hi. simpl in Hi.
    destruct (decide (i = length pre)) as [->|Hne].
    + rewrite list_lookup_insert_eq by lia. rewrite take_app_length, Ht. reflexivity.
    + rewrite list_lookup_insert_ne by lia. rewrite Hix by lia.
      rewrite take_app_le by lia. reflexivity.
  - rewrite Ht, map_app, sum_list_with_app. simpl. lia.
Qed.

Lemma layout_loop_in_order vobj n rest : forall pre acc,
  layout_of vobj n pre acc ->
  (forall j r, rest !! j = Some r ->
     VariableNode.variableID (vobj r) = (length pre + j)%nat) ->
  (length pre + length rest <= n)%nat ->
  exists final,
    layout_loop vobj rest acc = Ok final /\ layout_of vobj n (pre ++ rest) final.
Proof.
  induction rest as [|r rest IH]; intros pre acc Hacc Hid Hlen.
  - exists acc. rewrite app_nil_r. now split.
  - simpl in Hlen.
    destruct (layout_step_in_order vobj n pre acc r Hacc) as (acc' & Hstep & Hacc').
    { rewrite (Hid 0%nat r eq_refl). lia. }
    { lia. }
    destruct (IH (pre ++ [r]) acc' Hacc') as (final & Hloop & Hfinal).
    { intros j r' Hj. rewrite (Hid (S j) r' Hj), length_app. simpl. lia. }
    { rewrite length_app. simpl. lia. }
    exists final. simpl. rewrite Hstep. simpl. rewrite Hloop.
    split; [reflexivity|]. now rewrite <- app_assoc in Hfinal.
Qed.

Lemma off_diagonal_ext vobj ix1 ix2 fl vID v_dofs factor_ix others :
  (forall id, ix1 id = ix2 id) ->
  forall ofi lam,
    off_diagonal vobj ix1 fl vID v_dofs factor_ix others ofi lam =
    off_diagonal vobj ix2 fl vID v_dofs factor_ix others ofi lam.
Proof.
  intros Hix. induction others as [|o others IH]; intros ofi lam; [reflexivity|].
  simpl. rewrite !Hix. destruct (Nat.ltb _ _).
  - destruct (ix2 vID); simpl; [|reflexivity].
    destruct (ix2 _); simpl; [|reflexivity]. apply IH.
  - simpl. apply IH.
Qed.

Lemma add_blocks_ext vobj ix1 ix2 f adj :
  (forall id, ix1 id = ix2 id) ->
  forall factor_ix acc,
    add_blocks vobj ix1 f adj factor_ix acc = add_blocks vobj ix2 f adj factor_ix acc.
Proof.
  intros Hix. induction adj as [|a adj IH]; intros factor_ix acc; [reflexivity|].
  simpl. rewrite Hix. destruct (ix2 _) as [ix_v|]; simpl; [|reflexivity].
  rewrite (off_diagonal_ext vobj ix1 ix2) by exact Hix.
  destruct (off_diagonal _ _ _ _ _ _ _ _ _); simpl; [reflexivity|]. apply IH.
Qed.

Lemma add_factors_ext vobj fobj ix1 ix2 fs :
  (forall id, ix1 id = ix2 id) ->
  forall acc, add_factors vobj fobj ix1 fs acc = add_factors vobj fobj ix2 fs acc.
Proof.
  intros Hix. induction fs as [|r fs IH]; intros acc; [reflexivity|].
  simpl. rewrite (add_blocks_ext vobj ix1 ix2) by exact Hix.
  destruct (add_blocks _ _ _ _ _ _); simpl; [reflexivity|]. apply IH.
Qed.

(** ** Entries of the arrays the joint distribution is built from *)

Ltac list_lia := unfold mat, vec in *; lia.

Lemma sum_R_map_plus {A} (f g : A -> R) l :
  sum_R (map (fun x => f x + g x) l) = sum_R (map f l) + sum_R (map g l).
Proof. induction l as [|x l IH]; simpl; [lra|]. rewrite IH. lra. Qed.

Lemma sum_R_map_ext {A} (f g : A -> R) l :
  (forall x, x ∈ l -> f x = g x) -> sum_R (map f l) = sum_R (map g l).
Proof.
  induction l as [|x l IH]; intros H; simpl; [reflexivity|].
  rewrite (H x) by left. rewrite IH; [reflexivity|].
  intros y Hy. apply H. now right.
Qed.

Lemma ventry_vadd u v i :
  length u = length v -> ventry (vadd u v) i = ventry u i + ventry v i.
Proof.
  unfold ventry, vadd. revert v i.
  induction u as [|a u IH]; intros [|b v] i Hlen; try discriminate.
  - destruct i; simpl; lra.
  - destruct i as [|i]; simpl; [reflexivity|]. apply IH. now injection Hlen.
Qed.

Lemma nth_zip_with_rows {B C} (f : list R -> B -> list C) (l : mat) (k : list B) i db :
  (i < length l)%nat -> (i < length k)%nat ->
  nth i (zip_with f l k) [] = f (nth i l []) (nth i k db).
Proof.
  revert k i. induction l as [|a l IH]; intros [|b k] i Hl Hk; simpl in *; try list_lia.
  destruct i as [|i]; [reflexivity|]. apply IH; list_lia.
Qed.

Lemma slice_length {A} a b (l : list A) :
  (b <= length l)%nat -> length (slice a b l) = (b - a)%nat.
Proof. intros H. unfold slice. rewrite length_take, length_drop. list_lia. Qed.

Lemma ventry_slice a b v i :
  (i < b - a)%nat -> ventry (slice a b v) i = ventry v (a + i).
Proof.
  intros Hi. unfold ventry, slice. rewrite nth_firstn.
  apply Nat.ltb_lt in Hi. rewrite Hi. apply nth_skipn.
Qed.

Lemma vadd_at_length a d x v :
  (a + d <= length v)%nat -> length x = d -> length (vadd_at a d x v) = length v.
Proof.
  intros Hv Hx. unfold vadd_at, vadd. unfold vec in *.
  rewrite !length_app, length_zip_with, length_take, length_drop.
  rewrite slice_length by list_lia. list_lia.
Qed.

(** [v[a:a+d] += x], entry by entry. *)
Lemma vadd_at_entry a d x v k :
  (a + d <= length v)%nat -> length x = d ->
  ventry (vadd_at a d x v) k =
    ventry v k +
    (if Nat.leb a k && Nat.ltb k (a + d) then ventry x (k - a) else 0).
Proof.
  intros Hv Hx. unfold vadd_at. unfold vec in *.
  assert (Hs : length (slice a (a + d) v) = d) by (rewrite slice_length; list_lia).
  assert (Hta : length (take a v) = a) by (rewrite length_take; list_lia).
  assert (Hmid : length (vadd (slice a (a + d) v) x) = d).
  { unfold vadd. rewrite length_zip_with. list_lia. }
  destruct (Nat.leb_spec a k) as [Hak|Hak]; simpl.
  - destruct (Nat.ltb_spec k (a + d)) as [Hkd|Hkd].
    + unfold ventry at 1. rewrite app_nth2 by list_lia. rewrite Hta.
      rewrite app_nth1 by list_lia.
      change (nth (k - a) (vadd (slice a (a + d) v) x) 0)
        with (ventry (vadd (slice a (a + d) v) x) (k - a)).
      rewrite ventry_vadd by list_lia. rewrite ventry_slice by list_lia.
      replace (a + (k - a))%nat with k by list_lia. reflexivity.
    + unfold ventry. rewrite app_nth2 by list_lia. rewrite Hta.
      rewrite app_nth2 by list_lia. rewrite Hmid, nth_skipn.
      replace (a + d + (k - a - d))%nat with k by list_lia. lra.
  - unfold ventry. rewrite app_nth1 by list_lia. rewrite nth_firstn.
    apply Nat.ltb_lt in Hak. rewrite Hak. lra.
Qed.

(** A matrix of [r] rows of length [c]. *)
Lemma madd_at_shape r h c w B A rows cols :
  length A = rows -> Forall (fun row => length row = cols) A ->
  (r + h <= rows)%nat -> (c + w <= cols)%nat ->
  length B = h -> Forall (fun row => length row = w) B ->
  length (madd_at r h c w B A) = rows /\
  Forall (fun row => length row = cols) (madd_at r h c w B A).
Proof.
  intros HA Hrows Hr Hc HB HBrows. unfold madd_at. unfold mat, vec in *. split.
  - rewrite !length_app, length_zip_with, length_take, length_drop.
    rewrite slice_length by list_lia. list_lia.
  - apply Forall_app. split; [now apply Forall_take|].
    apply Forall_app. split; [|now apply Forall_drop].
    assert (Hsl : Forall (fun row => length row = cols) (slice r (r + h) A)).
    { unfold slice. now apply Forall_take, Forall_drop. }
    clear -Hsl HBrows Hc. revert B HBrows.
    induction Hsl as [|row rest Hrow _ IH]; intros [|b B] HB; simpl; constructor.
    + apply Forall_cons in HB as [Hb _]. rewrite vadd_at_length; list_lia.
    + apply Forall_cons in HB as [_ HB]. now apply IH.
Qed.

(** [A[r:r+h, c:c+w] += B], entry by entry. *)
Lemma madd_at_entry r h c w B A rows cols k l :
  length A = rows -> Forall (fun row => length row = cols) A ->
  (r + h <= rows)%nat -> (c + w <= cols)%nat ->
  length B = h -> Forall (fun row => length row = w) B ->
  mentry (madd_at r h c w B A) k l =
    mentry A k l +
    (if (Nat.leb r k && Nat.ltb k (r + h)) && (Nat.leb c l && Nat.ltb l (c + w))
     then mentry B (k - r) (l - c) else 0).
Proof.
  intros HA Hrows Hr Hc HB HBrows. unfold madd_at. unfold mat, vec in *.
  assert (Hs : length (slice r (r + h) A) = h) by (rewrite slice_length; list_lia).
  assert (Hta : length (take r A) = r) by (rewrite length_take; list_lia).
  assert (Hmid : length (zip_with (fun row brow => vadd_at c w brow row)
                                  (slice r (r + h) A) B) = h).
  { rewrite length_zip_with. list_lia. }
  unfold mat, vec in *.
  destruct (Nat.leb_spec r k) as [Hrk|Hrk]; simpl.
  - destruct (Nat.ltb_spec k (r + h)) as [Hkh|Hkh]; simpl.
    + unfold mentry at 1. rewrite app_nth2 by list_lia. rewrite Hta.
      rewrite app_nth1 by list_lia.
      rewrite (nth_zip_with_rows _ _ _ _ []) by list_lia.
      change (nth l (vadd_at c w (nth (k - r) B []) (nth (k - r) (slice r (r + h) A) [])) 0)
        with (ventry (vadd_at c w (nth (k - r) B []) (nth (k - r) (slice r (r + h) A) [])) l).
      assert (Hrow : nth (k - r) (slice r (r + h) A) [] = nth k A []).
      { unfold slice. rewrite nth_firstn.
        assert (Hlt : (k - r <? r + h - r)%nat = true) by (apply Nat.ltb_lt; list_lia).
        rewrite Hlt, nth_skipn. f_equal. list_lia. }
      rewrite Hrow. rewrite vadd_at_entry.
      * reflexivity.
      * rewrite Forall_forall in Hrows.
        rewrite (Hrows (nth k A [])); [list_lia|]. apply list_elem_of_In, nth_In. list_lia.
      * rewrite Forall_forall in HBrows.
        apply HBrows, list_elem_of_In, nth_In. list_lia.
    + unfold mentry. rewrite app_nth2 by list_lia. rewrite Hta.
      rewrite app_nth2 by list_lia. rewrite Hmid, nth_skipn.
      replace (r + h + (k - r - h))%nat with k by list_lia. lra.
  - unfold mentry. rewrite app_nth1 by list_lia. rewrite nth_firstn.
    apply Nat.ltb_lt in Hrk. rewrite Hrk. lra.
Qed.

Lemma mslice_shape r0 h c0 w A rows cols :
  length A = rows -> Forall (fun row => length row = cols) A ->
  (r0 + h <= rows)%nat -> (c0 + w <= cols)%nat ->
  length (mslice r0 (r0 + h) c0 (c0 + w) A) = h /\
  Forall (fun row => length row = w) (mslice r0 (r0 + h) c0 (c0 + w) A).
Proof.
  intros HA Hrows Hr Hc. unfold mslice. unfold mat, vec in *. split.
  - rewrite length_map, slice_length by list_lia. list_lia.
  - apply Forall_map.
    assert (Hsl : Forall (fun row => length row = cols) (slice r0 (r0 + h) A)).
    { unfold slice. now apply Forall_take, Forall_drop. }
    eapply Forall_impl; [exact Hsl|]. intros row Hrow. simpl.
    rewrite slice_length; list_lia.
Qed.

Lemma mslice_entry r0 h c0 w A rows i j :
  length A = rows -> (r0 + h <= rows)%nat ->
  (i < h)%nat -> (j < w)%nat ->
  mentry (mslice r0 (r0 + h) c0 (c0 + w) A) i j = mentry A (r0 + i) (c0 + j).
Proof.
  intros HA Hr Hi Hj. unfold mentry, mslice. unfold mat, vec in *.
  assert (Hnil : slice c0 (c0 + w) (@nil R) = []).
  { unfold slice. now rewrite drop_nil, take_nil. }
  rewrite <- Hnil at 1. rewrite map_nth.
  assert (Hrow : nth i (slice r0 (r0 + h) A) [] = nth (r0 + i) A []).
  { unfold slice. rewrite nth_firstn.
    assert (Hlt : (i <? r0 + h - r0)%nat = true) by (apply Nat.ltb_lt; list_lia).
    now rewrite Hlt, nth_skipn. }
  rewrite Hrow.
  change (nth j (slice c0 (c0 + w) (nth (r0 + i) A [])) 0)
    with (ventry (slice c0 (c0 + w) (nth (r0 + i) A [])) j).
  rewrite ventry_slice by list_lia. reflexivity.
Qed.

(** ** The second loop of [joint_distribution_inf], entry by entry *)

Lemma slots_of_fits_dofs vobj at_ adj : forall from s,
  s ∈ slots_of vobj at_ adj from ->
  exists a, a ∈ adj /\ s_id s = VariableNode.variableID (vobj a) /\
            s_at s = at_ (VariableNode.variableID (vobj a)) /\
            s_dofs s = VariableNode.dofs (vobj a) /\
            (from <= s_from s)%nat /\
            (s_from s + s_dofs s <=
               from + sum_list (map (fun r => VariableNode.dofs (vobj r)) adj))%nat.
Proof.
  induction adj as [|a adj IH]; intros from s Hs; simpl in Hs; [inversion Hs|].
  apply elem_of_cons in Hs as [->|Hs].
  - exists a. simpl. repeat split; try left; lia.
  - destruct (IH _ _ Hs) as (a' & Ha' & Hid & Hat & Hd & Hlo & Hhi).
    exists a'. simpl. repeat split; try assumption; [now right|lia|lia].
Qed.

Lemma slots_of_ids vobj at_ adj : forall from,
  map s_id (slots_of vobj at_ adj from) =
  map (fun a => VariableNode.variableID (vobj a)) adj.
Proof.
  induction adj as [|a adj IH]; intros from; simpl; [reflexivity|].
  now rewrite IH.
Qed.

Section Joint_blocks.
Context (vobj : VRef -> VariableNode.t) (ix : nat -> option nat) (at_ : nat -> nat).
Context (rows N D : nat) (fl : mat).
Hypothesis N_rows : (N <= rows)%nat.
Hypothesis fl_rows : length fl = D.
Hypothesis fl_cols : Forall (fun row => length row = D) fl.

(** One block of the factor added at the blocks of two neighbours. *)
Lemma madd_at_block (lam : mat) (s t : slot) :
  length lam = rows -> Forall (fun row => length row = N) lam ->
  (s_at s + s_dofs s <= N)%nat -> (s_at t + s_dofs t <= N)%nat ->
  (s_from s + s_dofs s <= D)%nat -> (s_from t + s_dofs t <= D)%nat ->
  let lam' :=
    madd_at (s_at s) (s_dofs s) (s_at t) (s_dofs t)
      (mslice (s_from s) (s_from s + s_dofs s) (s_from t) (s_from t + s_dofs t) fl)
      lam in
  length lam' = rows /\ Forall (fun row => length row = N) lam' /\
  forall k l, mentry lam' k l = mentry lam k l + lam_block fl s t k l.
Proof.
  intros Hl Hc Hs Ht Hfs Hft lam'.
  destruct (mslice_shape (s_from s) (s_dofs s) (s_from t) (s_dofs t) fl D D
              fl_rows fl_cols Hfs Hft) as [HB HBrows].
  assert (Hsr : (s_at s + s_dofs s <= rows)%nat) by lia.
  destruct (madd_at_shape (s_at s) (s_dofs s) (s_at t) (s_dofs t) _ lam rows N
              Hl Hc Hsr Ht HB HBrows) as [Hl' Hc'].
  split; [exact Hl'|]. split; [exact Hc'|]. intros k l. unfold lam'.
  rewrite (madd_at_entry _ _ _ _ _ lam rows N k l Hl Hc Hsr Ht HB HBrows).
  f_equal. unfold lam_block, in_block.
  destruct (Nat.leb_spec (s_at s) k) as [H1|H1]; simpl; [|reflexivity].
  destruct (Nat.ltb_spec k (s_at s + s_dofs s)) as [H2|H2]; simpl; [|reflexivity].
  destruct (Nat.leb_spec (s_at t) l) as [H3|H3]; simpl; [|reflexivity].
  destruct (Nat.ltb_spec l (s_at t + s_dofs t)) as [H4|H4]; simpl; [|reflexivity].
  apply (mslice_entry _ _ _ _ fl D); [exact fl_rows|lia|lia|lia].
Qed.

(** The innermost loop: both copies of the block of [s] and of every
    neighbour of larger id. *)
Lemma off_diagonal_run (s : slot) others : forall ofi lam,
  length lam = rows -> Forall (fun row => length row = N) lam ->
  ix (s_id s) = Some (s_at s) ->
  (s_at s + s_dofs s <= N)%nat -> (s_from s + s_dofs s <= D)%nat ->
  (forall o, o ∈ others -> slot_fits vobj ix at_ N o) ->
  (ofi + sum_list (map (fun r => VariableNode.dofs (vobj r)) others) <= D)%nat ->
  exists lam',
    off_diagonal vobj ix fl (s_id s) (s_dofs s) (s_from s) others ofi lam = Ok lam' /\
    length lam' = rows /\ Forall (fun row => length row = N) lam' /\
    forall k l,
      mentry lam' k l =
        mentry lam k l +
        sum_R (map (fun t => if Nat.ltb (s_id s) (s_id t)
                             then lam_block fl s t k l + lam_block fl t s k l
                             else 0)
                   (slots_of vobj at_ others ofi)).
Proof.
  induction others as [|o others IH]; intros ofi lam Hl Hc Hix Hs Hfs Hfit Hsum.
  - exists lam. simpl. split; [reflexivity|]. split; [exact Hl|].
    split; [exact Hc|]. intros k l. lra.
  - simpl in Hsum. destruct (Hfit o) as [Hixo Hfito]; [left|].
    set (t := mkSlot (VariableNode.variableID (vobj o))
                     (at_ (VariableNode.variableID (vobj o)))
                     (VariableNode.dofs (vobj o)) ofi).
    assert (Hrest : forall o', o' ∈ others -> slot_fits vobj ix at_ N o')
      by (intros o' Ho'; apply Hfit; now right).
    simpl. fold t. destruct (Nat.ltb (s_id s) (VariableNode.variableID (vobj o))) eqn:Hlt.
    + rewrite Hix, Hixo. simpl.
      destruct (madd_at_block lam s t Hl Hc Hs Hfito Hfs ltac:(simpl; lia))
        as (Hl1 & Hc1 & He1).
      destruct (madd_at_block _ t s Hl1 Hc1 Hfito Hs ltac:(simpl; lia) Hfs)
        as (Hl2 & Hc2 & He2).
      simpl in He1, He2, Hl1, Hc1, Hl2, Hc2.
      destruct (IH (ofi + VariableNode.dofs (vobj o))%nat _ Hl2 Hc2 Hix Hs Hfs Hrest
                  ltac:(lia)) as (lam' & Hrun & Hl' & Hc' & He').
      exists lam'. split; [exact Hrun|]. split; [exact Hl'|]. split; [exact Hc'|].
      intros k l. rewrite He', He2, He1. lra.
    + simpl.
      destruct (IH (ofi + VariableNode.dofs (vobj o))%nat lam Hl Hc Hix Hs Hfs Hrest
                  ltac:(lia)) as (lam' & Hrun & Hl' & Hc' & He').
      exists lam'. split; [exact Hrun|]. split; [exact Hl'|]. split; [exact Hc'|].
      intros k l. rewrite He'. lra.
Qed.

End Joint_blocks.

(** One block of [eta_F] added at the block of a neighbour. *)
Lemma vadd_at_block (fe eta0 : vec) (s : slot) k :
  (s_at s + s_dofs s <= length eta0)%nat ->
  (s_from s + s_dofs s <= length fe)%nat ->
  ventry (vadd_at (s_at s) (s_dofs s)
                  (slice (s_from s) (s_from s + s_dofs s) fe) eta0) k =
    ventry eta0 k + eta_block fe s k.
Proof.
  intros Hs Hf.
  rewrite vadd_at_entry; [|exact Hs|rewrite slice_length; unfold vec in *; lia].
  f_equal. unfold eta_block, in_block.
  destruct (_ && _) eqn:Hin; [|reflexivity].
  apply andb_true_iff in Hin as [H1 H2].
  apply Nat.leb_le in H1. apply Nat.ltb_lt in H2.
  rewrite ventry_slice by lia. reflexivity.
Qed.

Section Joint_factor.
Context (vobj : VRef -> VariableNode.t) (ix : nat -> option nat) (at_ : nat -> nat).
Context (rows N : nat) (f : Factor.t).
Let D := sum_list (map (fun r => VariableNode.dofs (vobj r)) (Factor.adj_var_nodes f)).
Let fe := eta (Factor.factor f).
Let fl := lam (Factor.factor f).
Hypothesis N_rows : (N <= rows)%nat.
Hypothesis f_size : gaussian_of_size D (Factor.factor f).
Hypothesis f_fits : forall a, a ∈ Factor.adj_var_nodes f -> slot_fits vobj ix at_ N a.

(** The loop over the neighbours of one factor. *)
Lemma add_blocks_run adj : forall from eta0 lam0,
  length eta0 = N ->
  length lam0 = rows -> Forall (fun row => length row = N) lam0 ->
  (forall a, a ∈ adj -> slot_fits vobj ix at_ N a) ->
  (from + sum_list (map (fun r => VariableNode.dofs (vobj r)) adj) <= D)%nat ->
  exists eta' lam',
    add_blocks vobj ix f adj from (eta0, lam0) = Ok (eta', lam') /\
    length eta' = N /\
    length lam' = rows /\ Forall (fun row => length row = N) lam' /\
    (forall k,
       ventry eta' k =
         ventry eta0 k +
         sum_R (map (fun s => eta_block fe s k) (slots_of vobj at_ adj from))) /\
    (forall k l,
       mentry lam' k l =
         mentry lam0 k l +
         sum_R (map (fun s =>
                       lam_block fl s s k l +
                       sum_R (map (fun t => if Nat.ltb (s_id s) (s_id t)
                                            then lam_block fl s t k l + lam_block fl t s k l
                                            else 0)
                                  (slots_of vobj at_ (Factor.adj_var_nodes f) 0)))
                    (slots_of vobj at_ adj from))).
Proof.
  destruct f_size as (Hfe & Hfl & Hflc). fold fe in Hfe. fold fl in Hfl, Hflc.
  induction adj as [|a adj IH]; intros from eta0 lam0 He Hl Hc Hfit Hsum.
  - exists eta0, lam0. simpl. split; [reflexivity|]. split; [exact He|].
    split; [exact Hl|]. split; [exact Hc|]. split; intros; lra.
  - simpl in Hsum. destruct (Hfit a) as [Hixa Hfita]; [left|].
    set (s := mkSlot (VariableNode.variableID (vobj a))
                     (at_ (VariableNode.variableID (vobj a)))
                     (VariableNode.dofs (vobj a)) from).
    assert (Hrest : forall a', a' ∈ adj -> slot_fits vobj ix at_ N a')
      by (intros a' Ha'; apply Hfit; now right).
    assert (Hfs : (s_from s + s_dofs s <= D)%nat) by (simpl; lia).
    destruct (madd_at_block rows N D fl N_rows Hfl Hflc lam0 s s Hl Hc Hfita Hfita Hfs Hfs)
      as (Hl1 & Hc1 & He1).
    destruct (off_diagonal_run vobj ix at_ rows N D fl N_rows Hfl Hflc s
                (Factor.adj_var_nodes f) 0%nat _ Hl1 Hc1 Hixa Hfita Hfs f_fits
                ltac:(simpl; fold D; lia)) as (lam2 & Hoff & Hl2 & Hc2 & He2).
    set (eta1 := vadd_at (s_at s) (s_dofs s)
                   (slice (s_from s) (s_from s + s_dofs s) fe) eta0).
    assert (Hsl : length (slice (s_from s) (s_from s + s_dofs s) fe) = s_dofs s).
    { rewrite slice_length; unfold vec in *; lia. }
    assert (He1' : length eta1 = N).
    { unfold eta1. rewrite vadd_at_length; [exact He| |exact Hsl].
      unfold vec in *. simpl. lia. }
    destruct (IH (from + VariableNode.dofs (vobj a))%nat eta1 lam2 He1' Hl2 Hc2 Hrest
                ltac:(lia)) as (eta' & lam' & Hrun & He' & Hl' & Hc' & Hve & Hme).
    exists eta', lam'. split.
    { simpl. rewrite Hixa. simpl. simpl in Hoff. fold fl fe. rewrite Hoff. simpl.
      exact Hrun. }
    split; [exact He'|]. split; [exact Hl'|]. split; [exact Hc'|]. split.
    + intros k. rewrite Hve. unfold eta1.
      rewrite (vadd_at_block fe eta0 s); [|unfold vec in *; simpl; lia|unfold vec in *; lia].
      simpl. fold s. lra.
    + intros k l. rewrite Hme, He2, He1. simpl. fold s. lra.
Qed.

End Joint_factor.

(** Both copies of every pair of distinct neighbours, taken at the
    neighbour of smaller id, are all the ordered pairs. *)
Lemma sum_pairs_by_id (g : slot -> slot -> R) (S : list slot) :
  NoDup (map s_id S) ->
  sum_R (map (fun s =>
                g s s +
                sum_R (map (fun t => if Nat.ltb (s_id s) (s_id t)
                                     then g s t + g t s else 0) S)) S) =
  sum_R (map (fun s => sum_R (map (g s) S)) S).
Proof.
  induction S as [|a S IH]; intros Hnd; [reflexivity|].
  simpl in Hnd. apply NoDup_cons in Hnd as [Ha Hnd]. specialize (IH Hnd).
  cbn [map sum_R fold_right]. rewrite Nat.ltb_irrefl.
  rewrite (sum_R_map_ext
             (fun s => g s s +
                       ((if Nat.ltb (s_id s) (s_id a) then g s a + g a s else 0) +
                        sum_R (map (fun t => if Nat.ltb (s_id s) (s_id t)
                                             then g s t + g t s else 0) S)))
             (fun s => (if Nat.ltb (s_id s) (s_id a) then g s a + g a s else 0) +
                       (g s s +
                        sum_R (map (fun t => if Nat.ltb (s_id s) (s_id t)
                                             then g s t + g t s else 0) S))))
    by (intros; lra).
  rewrite (sum_R_map_plus
             (fun s => if Nat.ltb (s_id s) (s_id a) then g s a + g a s else 0)).
  unfold sum_R in IH |- *. rewrite IH.
  rewrite (sum_R_map_plus (fun s => g s a) (fun s => sum_R (map (g s) S))).
  unfold sum_R.
  enough (Hpair :
            fold_right Rplus 0
              (map (fun t => if Nat.ltb (s_id a) (s_id t) then g a t + g t a else 0) S) +
            fold_right Rplus 0
              (map (fun s => if Nat.ltb (s_id s) (s_id a) then g s a + g a s else 0) S) =
            fold_right Rplus 0 (map (g a) S) +
            fold_right Rplus 0 (map (fun s => g s a) S)) by lra.
  clear IH Hnd. induction S as [|t S IH]; [simpl; lra|].
  simpl in Ha. apply not_elem_of_cons in Ha as [Hne Ha]. specialize (IH Ha).
  cbn [map fold_right].
  destruct (Nat.ltb_spec (s_id a) (s_id t)) as [H1|H1];
    destruct (Nat.ltb_spec (s_id t) (s_id a)) as [H2|H2]; try lia; lra.
Qed.

Section Joint_factors.
Context (vobj : VRef -> VariableNode.t) (fobj : FRef -> Factor.t).
Context (ix : nat -> option nat) (at_ : nat -> nat) (rows N : nat).
Hypothesis N_rows : (N <= rows)%nat.

(** The loop over the factors: every factor added into the blocks of its
    neighbours. *)
Lemma add_factors_run fs : forall eta0 lam0,
  length eta0 = N ->
  length lam0 = rows -> Forall (fun row => length row = N) lam0 ->
  (forall r, r ∈ fs ->
     gaussian_of_size
       (sum_list (map (fun a => VariableNode.dofs (vobj a)) (Factor.adj_var_nodes (fobj r))))
       (Factor.factor (fobj r)) /\
     (forall a, a ∈ Factor.adj_var_nodes (fobj r) -> slot_fits vobj ix at_ N a) /\
     NoDup (map (fun a => VariableNode.variableID (vobj a))
                (Factor.adj_var_nodes (fobj r)))) ->
  exists eta' lam',
    add_factors vobj fobj ix fs (eta0, lam0) = Ok (eta', lam') /\
    length eta' = N /\
    length lam' = rows /\ Forall (fun row => length row = N) lam' /\
    (forall k,
       ventry eta' k =
         ventry eta0 k +
         sum_R (map (fun r =>
                       sum_R (map (fun s => eta_block (eta (Factor.factor (fobj r))) s k)
                                  (slots_of vobj at_ (Factor.adj_var_nodes (fobj r)) 0)))
                    fs)) /\
    (forall k l,
       mentry lam' k l =
         mentry lam0 k l +
         sum_R (map (fun r =>
                       sum_R (map (fun s =>
                                     sum_R (map (fun t =>
                                                   lam_block (lam (Factor.factor (fobj r)))
                                                             s t k l)
                                                (slots_of vobj at_
                                                   (Factor.adj_var_nodes (fobj r)) 0)))
                                  (slots_of vobj at_ (Factor.adj_var_nodes (fobj r)) 0)))
                    fs)).
Proof.
  induction fs as [|r fs IH]; intros eta0 lam0 He Hl Hc Hfs.
  - exists eta0, lam0. simpl. split; [reflexivity|]. split; [exact He|].
    split; [exact Hl|]. split; [exact Hc|]. split; intros; lra.
  - destruct (Hfs r) as (Hsize & Hfit & Hnd); [left|].
    destruct (add_blocks_run vobj ix at_ rows N (fobj r) N_rows Hsize Hfit
                (Factor.adj_var_nodes (fobj r)) 0%nat eta0 lam0 He Hl Hc Hfit
                ltac:(simpl; lia))
      as (eta1 & lam1 & Hrun1 & He1 & Hl1 & Hc1 & Hve1 & Hme1).
    destruct (IH eta1 lam1 He1 Hl1 Hc1) as (eta' & lam' & Hrun & He' & Hl' & Hc' & Hve & Hme).
    { intros r' Hr'. apply Hfs. now right. }
    exists eta', lam'. split.
    { simpl. rewrite Hrun1. simpl. exact Hrun. }
    split; [exact He'|]. split; [exact Hl'|]. split; [exact Hc'|]. split.
    + intros k. rewrite Hve, Hve1. simpl. lra.
    + intros k l. rewrite Hme, Hme1.
      rewrite (sum_pairs_by_id
                 (fun s t => lam_block (lam (Factor.factor (fobj r))) s t k l)).
      * simpl. lra.
      * now rewrite slots_of_ids.
Qed.

End Joint_factors.

(** ** The shape of the priors laid out *)

Lemma block_diag_square a b (A B : mat) :
  square a A -> square b B -> square (a + b) (block_diag A B).
Proof.
  intros [HA HAr] [HB HBr]. unfold mat, vec in *.
  assert (HcA : ncols A = a).
  { unfold ncols. destruct A as [|row A']; simpl in *; [lia|].
    now apply Forall_cons in HAr as [? _]. }
  assert (HcB : ncols B = b).
  { unfold ncols. destruct B as [|row B']; simpl in *; [lia|].
    now apply Forall_cons in HBr as [? _]. }
  unfold block_diag, square. rewrite HcA, HcB. split.
  - rewrite length_app, !length_map. lia.
  - apply Forall_app. split; apply Forall_map.
    + eapply Forall_impl; [exact HAr|]. intros row Hrow. simpl in Hrow |- *.
      unfold vzero. rewrite length_app, repeat_length. unfold vec in *. lia.
    + eapply Forall_impl; [exact HBr|]. intros row Hrow. simpl in Hrow |- *.
      unfold vzero. rewrite length_app, repeat_length. unfold vec in *. lia.
Qed.

Lemma block_diag_all_square (vobj : VRef -> VariableNode.t) vars :
  vars <> [] ->
  (forall r, r ∈ vars ->
     gaussian_of_size (VariableNode.dofs (vobj r)) (VariableNode.prior (vobj r))) ->
  square (sum_list (map (fun r => VariableNode.dofs (vobj r)) vars))
         (block_diag_all (map (fun r => lam (VariableNode.prior (vobj r))) vars)).
Proof.
  intros Hne Hsize. destruct vars as [|r0 vars]; [contradiction|]. clear Hne.
  induction vars as [|r vars IH] using rev_ind.
  - simpl. rewrite Nat.add_0_r. destruct (Hsize r0) as (_ & Hl & Hc); [left|].
    now split.
  - rewrite app_comm_cons, !map_app. simpl map at 2 4.
    change (map (fun r => lam (VariableNode.prior (vobj r))) (r0 :: vars))
      with (lam (VariableNode.prior (vobj r0)) ::
            map (fun r => lam (VariableNode.prior (vobj r))) vars).
    rewrite block_diag_all_snoc, sum_list_with_app. simpl sum_list_with at 2.
    rewrite Nat.add_0_r. apply block_diag_square.
    + apply IH. intros r' Hr'. apply Hsize.
      apply elem_of_cons in Hr' as [->|Hr']; [left|right]. apply elem_of_app. now left.
    + destruct (Hsize r) as (_ & Hl & Hc); [|now split].
      right. apply elem_of_app. right. left.
Qed.

Lemma concat_prior_eta_length (vobj : VRef -> VariableNode.t) vars :
  (forall r, r ∈ vars ->
     gaussian_of_size (VariableNode.dofs (vobj r)) (VariableNode.prior (vobj r))) ->
  length (concat (map (fun r => eta (VariableNode.prior (vobj r))) vars)) =
  sum_list (map (fun r => VariableNode.dofs (vobj r)) vars).
Proof.
  induction vars as [|r vars IH]; intros Hsize; [reflexivity|]. simpl.
  rewrite length_app, IH by (intros r' Hr'; apply Hsize; now right).
  destruct (Hsize r) as (He & _); [left|]. unfold vec in *. now rewrite He.
Qed.

Lemma prefix_block_fits (f : VRef -> nat) vars i a :
  vars !! i = Some a ->
  (sum_list (map f (take i vars)) + f a <= sum_list (map f vars))%nat.
Proof.
  intros Hi. rewrite <- (take_drop (S i) vars) at 2.
  rewrite (take_S_r _ _ _ Hi), !map_app, !sum_list_with_app. simpl. lia.
Qed.

Lemma list_of_entries (v : vec) n (f : nat -> R) :
  length v = n -> (forall k, (k < n)%nat -> ventry v k = f k) ->
  v = map f (seq 0 n).
Proof.
  intros Hlen He. apply (nth_ext _ _ 0 (f 0%nat)).
  - now rewrite length_map, length_seq.
  - intros k Hk. rewrite map_nth, seq_nth by (unfold vec in *; lia).
    apply He. unfold vec in *. lia.
Qed.

Lemma matrix_of_entries (A : mat) n (f : nat -> nat -> R) :
  square n A -> (forall k l, (k < n)%nat -> (l < n)%nat -> mentry A k l = f k l) ->
  A = map (fun k => map (f k) (seq 0 n)) (seq 0 n).
Proof.
  intros [Hlen Hrows] He. unfold mat, vec in *.
  apply (nth_ext _ _ [] (map (f 0%nat) (seq 0 n))).
  - now rewrite length_map, length_seq.
  - intros k Hk.
    rewrite (map_nth (fun k => map (f k) (seq 0 n))), seq_nth by lia. simpl.
    apply list_of_entries.
    + rewrite Forall_forall in Hrows. apply Hrows, list_elem_of_In, nth_In. lia.
    + intros l Hl. apply He; lia.
Qed.

(** ** The priors laid out, entry by entry *)

Lemma ventry_nil k : ventry [] k = 0.
Proof. unfold ventry. now destruct k. Qed.

Lemma mentry_overflow n (A : mat) k l :
  square n A -> (n <= k)%nat \/ (n <= l)%nat -> mentry A k l = 0.
Proof.
  intros [Hlen Hrows] Hout. unfold mentry. unfold mat, vec in *.
  destruct (Nat.lt_ge_cases k n) as [Hk|Hk].
  - destruct Hout as [Hout|Hl]; [lia|]. apply nth_overflow.
    rewrite Forall_forall in Hrows.
    rewrite (Hrows (nth k A [])); [lia|]. apply list_elem_of_In, nth_In. lia.
  - rewrite (nth_overflow A) by lia. now destruct l.
Qed.

Lemma prior_blocks_app vobj u v : forall start,
  prior_blocks vobj (u ++ v) start =
  prior_blocks vobj u start ++
  prior_blocks vobj v (start + sum_list (map (fun r => VariableNode.dofs (vobj r)) u)).
Proof.
  induction u as [|r u IH]; intros start; simpl.
  - now rewrite Nat.add_0_r.
  - rewrite IH. do 3 f_equal. lia.
Qed.

(** The [eta] of the priors concatenated. *)
Lemma prior_blocks_eta (vobj : VRef -> VariableNode.t) vars : forall start k,
  (forall r, r ∈ vars ->
     gaussian_of_size (VariableNode.dofs (vobj r)) (VariableNode.prior (vobj r))) ->
  sum_R (map (fun b => eta_block (eta (snd b)) (fst b) k)
             (prior_blocks vobj vars start)) =
  if Nat.leb start k
  then ventry (concat (map (fun r => eta (VariableNode.prior (vobj r))) vars)) (k - start)
  else 0.
Proof.
  induction vars as [|r vars IH]; intros start k Hsize.
  - simpl. rewrite ventry_nil. now destruct (Nat.leb start k).
  - cbn [prior_blocks map sum_R fold_right fst snd concat].
    change (fold_right Rplus 0 ?l) with (sum_R l).
    rewrite IH by (intros r' Hr'; apply Hsize; now right).
    destruct (Hsize r) as (He & _); [left|]. unfold vec in *.
    unfold eta_block, in_block. cbn [s_at s_dofs s_from].
    unfold ventry.
    destruct (Nat.leb_spec start k) as [H1|H1]; cbn [andb].
    + destruct (Nat.ltb_spec k (start + VariableNode.dofs (vobj r))) as [H2|H2].
      * rewrite (proj2 (Nat.leb_gt _ _)) by lia.
        rewrite app_nth1 by lia. simpl. lra.
      * rewrite (proj2 (Nat.leb_le _ _)) by lia.
        rewrite app_nth2 by lia. rewrite He.
        replace (k - (start + VariableNode.dofs (vobj r)))%nat
          with (k - start - VariableNode.dofs (vobj r))%nat by lia. lra.
    + rewrite (proj2 (Nat.leb_gt _ _)) by lia. lra.
Qed.

Lemma vzero_entry n l : nth l (vzero n) 0 = 0.
Proof.
  unfold vzero. revert l. induction n as [|n IH]; intros [|l]; simpl; auto.
Qed.

(** [scipy.linalg.block_diag] of two square matrices, entry by entry. *)
Lemma block_diag_entry a b (A B : mat) k l :
  square a A -> square b B ->
  mentry (block_diag A B) k l =
    (if Nat.ltb k a && Nat.ltb l a then mentry A k l else 0) +
    (if Nat.leb a k && Nat.leb a l then mentry B (k - a) (l - a) else 0).
Proof.
  intros HA HB. pose proof HA as [HlA HrA]. pose proof HB as [HlB HrB].
  unfold mat, vec in *.
  assert (HcA : ncols A = a).
  { unfold ncols. destruct A as [|row A']; simpl in *; [lia|].
    now apply Forall_cons in HrA as [? _]. }
  assert (HcB : ncols B = b).
  { unfold ncols. destruct B as [|row B']; simpl in *; [lia|].
    now apply Forall_cons in HrB as [? _]. }
  unfold block_diag. rewrite HcA, HcB. unfold mentry at 1.
  destruct (Nat.ltb_spec k a) as [Hk|Hk]; cbn [andb].
  - rewrite (proj2 (Nat.leb_gt a k)) by lia. cbn [andb].
    rewrite app_nth1 by (rewrite length_map; lia).
    assert (Hnil : (fun row : list R => row ++ vzero b) [] = vzero b) by reflexivity.
    rewrite (nth_indep _ _ ([] ++ vzero b)) by (rewrite length_map; lia).
    rewrite (map_nth (fun row : list R => row ++ vzero b)).
    assert (Hrow : length (nth k A []) = a).
    { rewrite Forall_forall in HrA. apply HrA, list_elem_of_In, nth_In. lia. }
    destruct (Nat.ltb_spec l a) as [Hl|Hl].
    + rewrite app_nth1 by lia. unfold mentry. lra.
    + rewrite app_nth2 by lia. rewrite vzero_entry. lra.
  - rewrite (proj2 (Nat.leb_le a k)) by lia. cbn [andb].
    rewrite app_nth2 by (rewrite length_map; lia). rewrite length_map, HlA.
    destruct (Nat.lt_ge_cases (k - a) b) as [Hkb|Hkb].
    + rewrite (nth_indep _ _ (vzero a ++ [])) by (rewrite length_map; lia).
      rewrite (map_nth (fun row : list R => vzero a ++ row)).
      assert (Hz : length (vzero a) = a) by apply repeat_length.
      destruct (Nat.leb_spec a l) as [Hl|Hl].
      * rewrite app_nth2 by lia. rewrite Hz. unfold mentry. lra.
      * rewrite app_nth1 by lia. rewrite vzero_entry. lra.
    + rewrite (nth_overflow (map (fun row : list R => vzero a ++ row) B))
        by (rewrite length_map; lia).
      rewrite (mentry_overflow b B (k - a) (l - a) HB) by lia.
      destruct l; destruct (Nat.leb a _); simpl; lra.
Qed.

(** The [lam] of the priors on the diagonal. *)
Lemma prior_blocks_lam (vobj : VRef -> VariableNode.t) vars :
  vars <> [] ->
  (forall r, r ∈ vars ->
     gaussian_of_size (VariableNode.dofs (vobj r)) (VariableNode.prior (vobj r))) ->
  forall k l,
    mentry (block_diag_all (map (fun r => lam (VariableNode.prior (vobj r))) vars)) k l =
    sum_R (map (fun b => lam_block (lam (snd b)) (fst b) (fst b) k l)
               (prior_blocks vobj vars 0)).
Proof.
  intros Hne Hsize. destruct vars as [|r0 vars]; [contradiction|]. clear Hne.
  induction vars as [|r vars IH] using rev_ind; intros k l.
  - destruct (Hsize r0) as (_ & Hl & Hc); [left|].
    assert (Hsq : square (VariableNode.dofs (vobj r0)) (lam (VariableNode.prior (vobj r0))))
      by now split.
    simpl. unfold lam_block, in_block. cbn [s_at s_dofs s_from]. simpl.
    rewrite !Nat.sub_0_r.
    destruct (Nat.ltb_spec k (VariableNode.dofs (vobj r0))) as [Hk|Hk]; cbn [andb].
    + destruct (Nat.ltb_spec l (VariableNode.dofs (vobj r0))) as [Hl'|Hl']; [lra|].
      rewrite (mentry_overflow _ _ k l Hsq) by lia. lra.
    + rewrite (mentry_overflow _ _ k l Hsq) by lia. lra.
  - assert (Hold : forall r', r' ∈ r0 :: vars ->
              gaussian_of_size (VariableNode.dofs (vobj r')) (VariableNode.prior (vobj r'))).
    { intros r' Hr'. apply Hsize. rewrite app_comm_cons. apply elem_of_app. now left. }
    specialize (IH Hold).
    destruct (Hsize r) as (_ & Hl & Hc).
    { rewrite app_comm_cons. apply elem_of_app. right. left. }
    assert (HsqB : square (VariableNode.dofs (vobj r)) (lam (VariableNode.prior (vobj r))))
      by now split.
    pose proof (block_diag_all_square vobj (r0 :: vars) ltac:(discriminate) Hold) as HsqA.
    set (a := sum_list (map (fun r => VariableNode.dofs (vobj r)) (r0 :: vars))) in *.
    rewrite app_comm_cons, map_app.
    change (map (fun r => lam (VariableNode.prior (vobj r))) (r0 :: vars))
      with (lam (VariableNode.prior (vobj r0)) ::
            map (fun r => lam (VariableNode.prior (vobj r))) vars).
    cbn [map]. rewrite block_diag_all_snoc.
    rewrite (block_diag_entry a (VariableNode.dofs (vobj r))
               (block_diag_all (lam (VariableNode.prior (vobj r0)) ::
                                map (fun r => lam (VariableNode.prior (vobj r))) vars))
               (lam (VariableNode.prior (vobj r))) k l HsqA HsqB).
    rewrite prior_blocks_app, map_app. fold a.
    assert (Happ : forall (u v : list R), sum_R (u ++ v) = sum_R u + sum_R v).
    { induction u as [|x u IHu]; intros v; simpl; [lra|]. rewrite IHu. lra. }
    rewrite Happ. f_equal.
    + rewrite <- (IH k l).
      change (lam (VariableNode.prior (vobj r0)) ::
              map (fun r => lam (VariableNode.prior (vobj r))) vars)
        with (map (fun r => lam (VariableNode.prior (vobj r))) (r0 :: vars)).
      destruct (Nat.ltb_spec k a) as [Hk|Hk]; cbn [andb].
      * destruct (Nat.ltb_spec l a) as [Hl'|Hl']; [reflexivity|].
        now rewrite (mentry_overflow a _ k l HsqA) by lia.
      * now rewrite (mentry_overflow a _ k l HsqA) by lia.
    + simpl. unfold lam_block, in_block. cbn [s_at s_dofs s_from]. simpl.
      destruct (Nat.leb_spec a k) as [Hk|Hk]; cbn [andb]; [|lra].
      destruct (Nat.ltb_spec k (a + VariableNode.dofs (vobj r))) as [Hk2|Hk2]; cbn [andb].
      * destruct (Nat.leb_spec a l) as [Hl1|Hl1]; cbn [andb]; [|lra].
        destruct (Nat.ltb_spec l (a + VariableNode.dofs (vobj r))) as [Hl2|Hl2]; [lra|].
        rewrite (mentry_overflow _ _ (k - a) (l - a) HsqB) by lia. lra.
      * destruct (Nat.leb a l); [|lra].
        rewrite (mentry_overflow _ _ (k - a) (l - a) HsqB) by lia. lra.
Qed.

(** The claim of C3 fails for a variable list out of id order: with the
    variable of id 1 listed first, [eta] comes in list order and [lam] is
    the prior of the variable of id 0 alone, where the joint distribution
    by id has [eta = (10, 20)] and [lam = diag(1, 2)]. *)
Lemma joint_distribution_inf_list_order :
  joint_distribution_inf heap_out_of_order = Ok ([20; 10], [[1]]) /\
  data_model heap_out_of_order /\
  (exists e0 e1 a b c d,
     eta_joint heap_out_of_order = [e0; e1] /\
     lam_joint heap_out_of_order = [[a; b]; [c; d]] /\
     e0 = 10 /\ e1 = 20 /\ a = 1 /\ b = 0 /\ c = 0 /\ d = 2) /\
  joint_distribution_inf heap_out_of_order <>
    Ok (eta_joint heap_out_of_order, lam_joint heap_out_of_order).
Proof.
  assert (H1 : joint_distribution_inf heap_out_of_order = Ok ([20; 10], [[1]]))
    by reflexivity.
  split; [exact H1|]. split.
  { split.
    - intros r _. destruct r as [|r]; repeat split; repeat constructor.
    - intros fr Hfr. inversion Hfr. }
  split.
  { do 6 eexists. split; [reflexivity|]. split; [reflexivity|].
    unfold eta_joint_at, lam_joint_at, prior_eta_at, prior_lam_at, eta_block,
      lam_block, ventry, mentry. simpl.
    repeat split; lra. }
  rewrite H1. intros Heq. injection Heq as Heq _.
  unfold eta_joint in Heq. simpl in Heq.
  unfold eta_joint_at, prior_eta_at, eta_block, ventry in Heq. simpl in Heq. lra.
Qed.

(** C3, amended.  For a graph of the data model whose variable list is in
    id order, [joint_distribution_inf] returns the joint distribution laid
    out by ascending id: entry by entry, the [eta] of the priors
    concatenated and the block diagonal of their [lam], plus, for every
    factor, the blocks of [eta_F] at the blocks of its neighbours and the
    block of [lam_F] of every pair of neighbours at the blocks of the two,
    which puts the diagonal blocks on the diagonal and both copies of the
    off-diagonal ones off it. *)
Theorem joint_distribution_inf_in_id_order h :
  in_id_order h ->
  data_model h ->
  FactorGraph.var_nodes (graph h) <> [] ->
  joint_distribution_inf h = Ok (eta_joint h, lam_joint h) /\
  vars_by_id h = FactorGraph.var_nodes (graph h).
Proof.
  intros Hord [Hpriors Hfactors] Hne.
  pose proof (vars_by_id_in_order h Hord) as Hvars.
  split; [|exact Hvars].
  unfold joint_distribution_inf. cbv zeta.
  set (vars := FactorGraph.var_nodes (graph h)) in *.
  set (vobj := var_obj h).
  set (dofs := fun r => VariableNode.dofs (vobj r)).
  set (N := sum_list (map dofs vars)).
  assert (HN : joint_size h = N) by (unfold joint_size; now rewrite Hvars).
  destruct (layout_loop_in_order vobj (length vars) vars [] (layout_init _)
              (layout_of_init _ _)) as (final & Hloop & He & Hl & Hn & Hix & _).
  { intros j r Hj. simpl. now apply Hord. }
  { simpl. lia. }
  rewrite Hloop. simpl in He, Hl, Hix |- *.
  set (at_ := fun id => default 0%nat (offset_by_id h id)).
  set (ix := fun id => l_var_ix final !! id).
  assert (Hoff : forall i, (i < length vars)%nat ->
            ix i = Some (at_ i) /\ at_ i = sum_list (map dofs (take i vars))).
  { intros i Hi. unfold ix, at_, offset_by_id. rewrite Hvars. fold vars.
    apply Nat.ltb_lt in Hi as Hi'. rewrite Hi'. simpl. split; [|reflexivity].
    now apply Hix. }
  assert (Hfit : forall a, a ∈ vars -> slot_fits vobj ix at_ N a).
  { intros a Ha. apply list_elem_of_lookup_1 in Ha as [i Hi].
    pose proof (Hord i a Hi) as Hid. fold vobj in Hid.
    destruct (Hoff i) as [Hixi Hati]; [now apply lookup_lt_Some in Hi|].
    unfold slot_fits. rewrite Hid. split; [exact Hixi|]. rewrite Hati.
    apply (prefix_block_fits dofs vars i a Hi). }
  assert (Hinj : forall a b, a ∈ vars -> b ∈ vars ->
            VariableNode.variableID (vobj a) = VariableNode.variableID (vobj b) -> a = b).
  { intros a b Ha Hb Hab.
    apply list_elem_of_lookup_1 in Ha as [i Hi]. apply list_elem_of_lookup_1 in Hb as [j Hj].
    pose proof (Hord i a Hi) as Hia. pose proof (Hord j b Hj) as Hjb.
    fold vobj in Hia, Hjb. assert (i = j) by congruence. subst j. congruence. }
  assert (He0 : length (l_eta final) = N).
  { rewrite He. now apply concat_prior_eta_length. }
  destruct (block_diag_all_square vobj vars Hne Hpriors) as [Hl0 Hc0].
  fold dofs N in Hl0, Hc0. rewrite <- Hl in Hl0, Hc0.
  destruct (add_factors_run vobj (factor_obj h) ix at_ N N (le_n N)
              (FactorGraph.factors (graph h)) (l_eta final) (l_lam final) He0 Hl0 Hc0)
    as (eta' & lam' & Hrun & He' & Hl' & Hc' & Hve & Hme).
  { intros r Hr. destruct (Hfactors r Hr) as (Hnd & Hin & Hsize).
    split; [exact Hsize|]. split; [intros a Ha; now apply Hfit, Hin|].
    apply NoDup_fmap_2_strong; [|exact Hnd].
    intros a b Ha Hb. apply Hinj; now apply Hin. }
  etransitivity; [exact Hrun|]. f_equal. f_equal.
  - unfold eta_joint. rewrite HN. apply list_of_entries; [exact He'|].
    intros k _. rewrite Hve. unfold eta_joint_at, prior_eta_at.
    rewrite Hvars. fold vobj vars.
    rewrite (prior_blocks_eta vobj vars 0 k Hpriors), He. simpl.
    rewrite Nat.sub_0_r. reflexivity.
  - unfold lam_joint. rewrite HN. apply matrix_of_entries; [now split|].
    intros k l _ _. rewrite Hme. unfold lam_joint_at, prior_lam_at.
    rewrite Hvars. fold vobj vars.
    rewrite <- (prior_blocks_lam vobj vars Hne Hpriors k l), Hl. reflexivity.
Qed.

(** Scenario 1 of the specification: the factor [x0 - x1 = 2] between two
    variables of unit prior adds its diagonal blocks and both off-diagonal
    copies. *)
Lemma joint_distribution_inf_in_id_order_witness :
  joint_distribution_inf heap_difference =
    Ok (eta_joint heap_difference, lam_joint heap_difference) /\
  eta_joint_at heap_difference 0 = 2 /\ eta_joint_at heap_difference 1 = -2 /\
  lam_joint_at heap_difference 0 0 = 2 /\ lam_joint_at heap_difference 0 1 = -1 /\
  lam_joint_at heap_difference 1 0 = -1 /\ lam_joint_at heap_difference 1 1 = 2.
Proof.
  split.
  - apply (joint_distribution_inf_in_id_order heap_difference).
    + intros i r Hi. destruct i as [|[|i]]; simpl in Hi; try discriminate;
        injection Hi as <-; reflexivity.
    + split.
      * intros r _. destruct r as [|r]; repeat split; repeat constructor.
      * intros fr _. simpl. split.
        -- repeat constructor; rewrite ?elem_of_cons, ?elem_of_nil; lia.
        -- split; [|repeat split; repeat constructor].
           intros r Hr. rewrite !elem_of_cons, elem_of_nil in Hr |- *. tauto.
    + discriminate.
  - unfold eta_joint_at, lam_joint_at, prior_eta_at, prior_lam_at, factor_eta_at,
      factor_lam_at, eta_block, lam_block, ventry, mentry. simpl.
    repeat split; lra.
Defined.


(** ** The messages of the two-variable scenario *)

Lemma inv_nil : inv [] = Ok [].
Proof.
  assert (Hinv : invertible []).
  { exists []. repeat split; constructor. }
  destruct (invertible_inv _ Hinv) as (B & HB & (_ & [HlB _] & _)).
  simpl in HlB. destruct B; [assumption|discriminate].
Qed.

(** The message of the factor [x0 - x1 = 2] to its first neighbour is the
    Schur complement (1, 1/2), and a unary factor sends itself. *)
Lemma message_from_difference :
  exists e l,
    message_from two_unit_vars 0 factor_difference 0 = Ok (mkGaussian [e] [[l]]) /\
    e = 1 /\ l = 1 / 2.
Proof.
  unfold message_from, outgoing, block_start. simpl.
  unfold vadd_at, madd_at, vadd, vsub, msub, slice. simpl.
  match goal with
  | |- context [inv [[?a]]] => replace a with 2 by lra
  end.
  rewrite inv_1x1 by lra. simpl.
  eexists _, _. split; [reflexivity|].
  unfold dot, mcol. simpl. split; lra.
Qed.

Lemma message_from_unary :
  exists e l,
    message_from (fun _ => var_unit_prior 0 [0%nat]) 0
                 (Factor.set_factor (mkGaussian [5] [[2]]) factor_zero_residual) 0
      = Ok (mkGaussian [e] [[l]]) /\
    e = 5 /\ l = 2.
Proof.
  unfold message_from, outgoing, block_start. simpl.
  rewrite inv_nil. simpl.
  eexists _, _. split; [reflexivity|].
  unfold dot, mcol. simpl. split; lra.
Qed.

(** The joint distribution of the two-variable scenario: the unit priors
    plus the factor, with both off-diagonal copies; its mean is
    (2/3, -2/3). *)
Lemma joint_distribution_inf_difference :
  exists e0 e1 a b c d,
    joint_distribution_inf heap_difference = Ok ([e0; e1], [[a; b]; [c; d]]) /\
    e0 = 2 /\ e1 = -2 /\ a = 2 /\ b = -1 /\ c = -1 /\ d = 2.
Proof.
  do 6 eexists. split; [reflexivity|]. repeat split; lra.
Qed.

(** * Further properties of the methods *)

(** ** Reweighting: the other losses, errors and repeated calls *)

Lemma adj_belief_means_raise bs e :
  adj_belief_means bs = Raise e ->
  e = LinAlgError /\ Exists (fun b => singular (lam b)) bs.
Proof.
  induction bs as [|b bs IH]; simpl; [discriminate|].
  destruct (inv (lam b)) as [e'|Sg] eqn:Hinv; simpl.
  - intros [= <-]. apply inv_Raise in Hinv as [-> Hs]. split; [reflexivity|now left].
  - destruct (adj_belief_means bs) as [e'|rest]; simpl; [|discriminate].
    intros [= <-]. destruct (IH eq_refl) as [-> Hex]. split; [reflexivity|now right].
Qed.

Lemma adj_belief_means_singular bs :
  Exists (fun b => singular (lam b)) bs ->
  adj_belief_means bs = Raise LinAlgError.
Proof.
  induction 1 as [b bs Hs|b bs _ IH]; simpl.
  - destruct (inv (lam b)) as [e|Sg] eqn:Hinv.
    + apply inv_Raise in Hinv as [-> _]. reflexivity.
    + apply inv_Ok in Hinv. exfalso. apply Hs. now exists Sg.
  - destruct (inv (lam b)) as [e|Sg] eqn:Hinv; simpl.
    + apply inv_Raise in Hinv as [-> _]. reflexivity.
    + now rewrite IH.
Qed.

(** X1.  For the constant loss, [robustify_loss] sets the adaptive
    variance to [d^2] when the Mahalanobis distance [d] exceeds the
    threshold and to the nominal variance otherwise, sets [robust_flag] to
    whether it did, and multiplies the stored factor by [old / new]
    without touching the linearisation point. *)
Theorem robustify_loss_constant f means diff :
  Factor.loss f = Some "constant"%string ->
  adj_belief_means (Factor.adj_beliefs f) = Ok means ->
  nd_sub (Factor.measurement f) (Factor.meas_fn f (Factor.linpoint f)) = Ok diff ->
  let sigma2 := Factor.gauss_noise_var f in
  let tau := Factor.mahalanobis_threshold f in
  let d := nd_norm diff / sqrt sigma2 in
  let old := Factor.adaptive_gauss_noise_var f in
  let new := if Rgt_dec d tau then d ^ 2 else sigma2 in
  exists f',
    robustify_loss f = (Ok tt, f') /\
    Factor.adaptive_gauss_noise_var f' = new /\
    Factor.robust_flag f' = (if Rgt_dec d tau then true else false) /\
    Factor.factor f' = gaussian_scale (Factor.factor f) (old / new) /\
    Factor.linpoint f' = Factor.linpoint f.
Proof.
  intros Hloss Hmeans Hdiff sigma2 tau d old new.
  rewrite robustify_loss_run. unfold robust_update.
  rewrite Hloss, Hmeans. cbn [rbind].
  change (String.eqb "constant" "huber") with false.
  change (String.eqb "constant" "constant") with true. cbv iota.
  rewrite Hdiff. cbn [rbind].
  eexists. split; [reflexivity|]. repeat split.
Qed.

Lemma robustify_loss_constant_witness :
  exists f',
    robustify_loss factor_constant = (Ok tt, f') /\
    Factor.adaptive_gauss_noise_var f' = 100.
Proof.
  destruct (robustify_loss_constant factor_constant [0] (Scal (10 - 0)) eq_refl
              (adj_belief_means_unit 0) eq_refl)
    as (f' & Hrun & Hvar & _).
  exists f'. split; [exact Hrun|]. rewrite Hvar. simpl.
  rewrite nd_norm_Scal by lra. rewrite sqrt_1.
  destruct (Rgt_dec ((10 - 0) / 1) 2) as [_|Hn]; [lra | exfalso; lra].
Defined.

Lemma nd_sub_raise x y e : nd_sub x y = Raise e -> e = ValueError.
Proof. destruct x, y; simpl; congruence. Qed.

Lemma robust_update_raise f e :
  robust_update f = Raise e ->
  Factor.loss f <> None /\
  (e = LinAlgError <-> Exists (fun b => singular (lam b)) (Factor.adj_beliefs f)).
Proof.
  unfold robust_update. destruct (Factor.loss f) as [l|]; [|discriminate].
  intros Hup. split; [discriminate|]. revert Hup.
  destruct (adj_belief_means (Factor.adj_beliefs f)) as [e'|means] eqn:Hmeans;
    cbn [rbind].
  - intros [= <-]. apply adj_belief_means_raise in Hmeans as [-> Hex]. easy.
  - assert (Hno : ~ Exists (fun b => singular (lam b)) (Factor.adj_beliefs f)).
    { intros Hex. apply adj_belief_means_singular in Hex. congruence. }
    assert (Hval : e = ValueError -> (e = LinAlgError <->
                     Exists (fun b => singular (lam b)) (Factor.adj_beliefs f))).
    { intros ->. split; [discriminate|contradiction]. }
    destruct (String.eqb l "huber").
    { destruct (nd_sub _ _) as [e'|diff] eqn:Hdiff; cbn [rbind]; [|discriminate].
      intros [= <-]. apply Hval. now apply nd_sub_raise in Hdiff. }
    destruct (String.eqb l "constant"); [|discriminate].
    destruct (nd_sub _ _) as [e'|diff] eqn:Hdiff; cbn [rbind]; [|discriminate].
    intros [= <-]. apply Hval. now apply nd_sub_raise in Hdiff.
Qed.

(** X2.  [robustify_loss] raises the inversion error exactly when a loss is
    configured and some adjacent belief has a precision without inverse
    (the belief means are computed before the loss is looked at), and the
    factor is then left as it was.  With no loss and a nominal variance
    other than 0, the divisor of the final rescaling, it returns. *)
Theorem robustify_loss_raises f :
  (fst (robustify_loss f) = Raise LinAlgError <->
   Factor.loss f <> None /\
   Exists (fun b => singular (lam b)) (Factor.adj_beliefs f)) /\
  (forall f', robustify_loss f = (Raise LinAlgError, f') -> f' = f) /\
  (Factor.loss f = None -> Factor.gauss_noise_var f <> 0 ->
   exists f', robustify_loss f = (Ok tt, f')).
Proof.
  rewrite robustify_loss_run. split; [|split].
  - destruct (robust_update f) as [e|[new flag]] eqn:Hup; simpl.
    + destruct (robust_update_raise f e Hup) as [Hloss Hiff]. split.
      * intros [= ->]. split; [exact Hloss|now apply Hiff].
      * intros [_ Hex]. f_equal. now apply Hiff.
    + split; [discriminate|]. intros [Hloss Hex]. exfalso.
      unfold robust_update in Hup.
      destruct (Factor.loss f); [|contradiction].
      now rewrite (adj_belief_means_singular _ Hex) in Hup.
  - destruct (robust_update f) as [e|[new flag]]; now intros f' [= _ <-].
  - intros Hloss _. unfold robust_update. rewrite Hloss. eexists. reflexivity.
Qed.

Lemma robustify_loss_raises_witness :
  exists f', robustify_loss factor_zero_residual = (Ok tt, f').
Proof.
  destruct (robustify_loss_raises factor_zero_residual) as (_ & _ & Hret).
  apply Hret; [reflexivity|]. simpl. lra.
Defined.

(** X3.  [robustify_loss] keeps the product of the stored factor and the
    adaptive variance: [eta_F * var] and [lam_F * var] are the same before
    and after the call, however often it ran and whichever loss fired. *)
Theorem robustify_loss_keeps_weighted_factor f f' :
  robustify_loss f = (Ok tt, f') ->
  Factor.adaptive_gauss_noise_var f' <> 0 ->
  gaussian_scale (Factor.factor f') (Factor.adaptive_gauss_noise_var f') =
  gaussian_scale (Factor.factor f) (Factor.adaptive_gauss_noise_var f).
Proof.
  rewrite robustify_loss_run.
  destruct (robust_update f) as [e|[new flag]]; [discriminate|].
  intros [= <-]. simpl. intros Hnew.
  destruct (Factor.factor f) as [e l]. unfold gaussian_scale. simpl.
  rewrite vimul_vimul, mimul_mimul.
  replace (Factor.adaptive_gauss_noise_var f / new * new)
    with (Factor.adaptive_gauss_noise_var f) by (field; exact Hnew).
  reflexivity.
Qed.

Lemma robustify_loss_keeps_weighted_factor_witness :
  gaussian_scale (Factor.factor factor_huber_fired)
                 (Factor.adaptive_gauss_noise_var factor_huber_fired) =
  gaussian_scale (Factor.factor factor_huber)
                 (Factor.adaptive_gauss_noise_var factor_huber).
Proof.
  apply robustify_loss_keeps_weighted_factor.
  - rewrite factor_huber_fired_eq.
    apply (robustify_loss_huber_run factor_huber [0] (Scal (10 - 0)) eq_refl
             (adj_belief_means_unit 0) eq_refl).
  - pose proof factor_huber_fired_var_pos. lra.
Defined.

(** X4.  Calling [robustify_loss] again on the factor it left, with the
    beliefs and the linearisation point unchanged, changes nothing: the
    variance found is the same, so the stored factor is multiplied by 1. *)
Theorem robustify_loss_idempotent f f' :
  robustify_loss f = (Ok tt, f') ->
  Factor.adaptive_gauss_noise_var f' <> 0 ->
  robustify_loss f' = (Ok tt, f').
Proof.
  rewrite (robustify_loss_run f).
  destruct (robust_update f) as [e|[new flag]] eqn:Hup; [discriminate|].
  intros [= <-] Hnew. rewrite robustify_loss_run.
  rewrite (robust_update_reweighted _ _ _ Hup).
  f_equal. simpl in Hnew.
  exact (reweighted_same (reweighted new flag f) Hnew).
Qed.

Lemma robustify_loss_idempotent_witness :
  robustify_loss factor_huber_fired = (Ok tt, factor_huber_fired).
Proof.
  apply (robustify_loss_idempotent factor_huber).
  - rewrite factor_huber_fired_eq.
    apply (robustify_loss_huber_run factor_huber [0] (Scal (10 - 0)) eq_refl
             (adj_belief_means_unit 0) eq_refl).
  - pose proof factor_huber_fired_var_pos. lra.
Defined.

(** X5.  A loss tag other than the two known ones changes nothing: once
    the belief means are computed, and the adaptive variance not being 0,
    [robustify_loss] returns with the factor as it was. *)
Theorem robustify_loss_unknown_tag f l means :
  Factor.loss f = Some l ->
  l <> "huber"%string -> l <> "constant"%string ->
  adj_belief_means (Factor.adj_beliefs f) = Ok means ->
  Factor.adaptive_gauss_noise_var f <> 0 ->
  robustify_loss f = (Ok tt, f).
Proof.
  intros Hloss Hh Hc Hmeans Hvar. rewrite robustify_loss_run. unfold robust_update.
  rewrite Hloss, Hmeans. cbn [rbind].
  apply String.eqb_neq in Hh, Hc. rewrite Hh, Hc.
  f_equal. now apply reweighted_same.
Qed.

Lemma robustify_loss_unknown_tag_witness :
  robustify_loss factor_cauchy = (Ok tt, factor_cauchy).
Proof.
  apply (robustify_loss_unknown_tag factor_cauchy "cauchy" [0] eq_refl).
  - discriminate.
  - discriminate.
  - apply (adj_belief_means_unit 0).
  - simpl. lra.
Defined.

(** ** Linearisation *)

Lemma compute_factor_some_run x u f :
  compute_factor (Some x) u f =
    match linearise f x with
    | inl e => (inl e, Factor.set_linpoint x f)
    | inr res =>
        (Ok res,
         if u then Factor.set_factor (mkGaussian (fst res) (snd res))
                                     (Factor.set_linpoint x f)
         else Factor.set_linpoint x f)
    end.
Proof.
  unfold compute_factor, bind, get, lift, modify, ret. cbv beta iota zeta.
  change (match Factor.measurement (Factor.set_linpoint x f) with
          | Scal z => _ | Arr1 z => _ | Arr2 _ => _ end)
    with (linearise f x).
  destruct (linearise f x) as [e|res]; [reflexivity|]. now destruct u.
Qed.

(** X6.  [compute_factor] with [update_self=False] returns the pair it
    returns with [update_self=True] and leaves the stored factor alone, but
    it still overwrites the linearisation point with the one it was given;
    if the measurement model raises, the linearisation point is overwritten
    all the same. *)
Theorem compute_factor_without_update x f :
  fst (compute_factor (Some x) false f) = fst (compute_factor (Some x) true f) /\
  Factor.factor (snd (compute_factor (Some x) false f)) = Factor.factor f /\
  Factor.linpoint (snd (compute_factor (Some x) false f)) = x /\
  Factor.linpoint (snd (compute_factor (Some x) true f)) = x /\
  forall res f',
    compute_factor (Some x) true f = (Ok res, f') ->
    compute_factor (Some x) false f = (Ok res, Factor.set_linpoint x f) /\
    f' = Factor.set_factor (mkGaussian (fst res) (snd res)) (Factor.set_linpoint x f).
Proof.
  rewrite !compute_factor_some_run.
  destruct (linearise f x) as [e|res]; simpl.
  - do 4 (split; [reflexivity|]). discriminate.
  - do 4 (split; [reflexivity|]). intros res' f' [= <- <-]. now split.
Qed.




Lemma means_until_singular_all bs means :
  adj_belief_means bs = Ok means -> means_until_singular bs = means.
Proof.
  revert means. induction bs as [|b bs IH]; intros means; simpl.
  - now intros [= <-].
  - destruct (inv (lam b)) as [e|Sg]; [discriminate|]. simpl.
    destruct (adj_belief_means bs) as [e|rest]; [discriminate|]. simpl.
    intros [= <-]. now rewrite (IH rest eq_refl).
Qed.

Lemma linpoint_from_beliefs_run bs : forall f,
  linpoint_from_beliefs bs f =
    (match adj_belief_means bs with inl e => inl e | inr _ => Ok tt end,
     Factor.set_linpoint (Factor.linpoint f ++ means_until_singular bs) f).
Proof.
  induction bs as [|b bs IH]; intros f; simpl.
  - unfold ret. rewrite app_nil_r. now destruct f.
  - unfold bind at 1, lift. destruct (inv (lam b)) as [e|Sg]; simpl.
    + rewrite app_nil_r. now destruct f.
    + unfold bind, modify. rewrite IH. simpl. rewrite <- app_assoc.
      destruct (adj_belief_means bs); reflexivity.
Qed.

(** X8.  Without a linearisation point, [compute_factor] linearises at the
    adjacent belief means: it does what it does when given them.  If a
    belief precision has no inverse it raises the inversion error with the
    stored factor untouched but the linearisation point already replaced
    by the means of the beliefs that came before. *)
Theorem compute_factor_from_beliefs u f :
  (forall means,
     adj_belief_means (Factor.adj_beliefs f) = Ok means ->
     compute_factor None u f = compute_factor (Some means) u f) /\
  (Exists (fun b => singular (lam b)) (Factor.adj_beliefs f) ->
   compute_factor None u f =
     (Raise LinAlgError,
      Factor.set_linpoint (means_until_singular (Factor.adj_beliefs f)) f)).
Proof.
  split.
  - intros means Hmeans.
    unfold compute_factor. unfold bind at 1 3. unfold bind at 1, modify at 1.
    unfold bind at 1, get at 1. cbv beta iota.
    change (Factor.adj_beliefs (Factor.set_linpoint [] f))
      with (Factor.adj_beliefs f).
    rewrite linpoint_from_beliefs_run, Hmeans.
    rewrite (means_until_singular_all _ _ Hmeans). reflexivity.
  - intros Hex. apply adj_belief_means_singular in Hex.
    unfold compute_factor. unfold bind at 1. unfold bind at 1, modify at 1.
    unfold bind at 1, get at 1. cbv beta iota.
    change (Factor.adj_beliefs (Factor.set_linpoint [] f))
      with (Factor.adj_beliefs f).
    rewrite linpoint_from_beliefs_run, Hex. reflexivity.
Qed.

Lemma compute_factor_from_beliefs_witness :
  compute_factor None true factor_zero_residual =
  compute_factor (Some [0]) true factor_zero_residual.
Proof.
  apply (proj1 (compute_factor_from_beliefs true factor_zero_residual)).
  apply (adj_belief_means_unit 0).
Defined.

(** ** The joint distribution: errors and layout *)

Lemma layout_step_length vobj acc r acc' :
  layout_step vobj acc r = Ok acc' ->
  length (l_var_ix acc') = length (l_var_ix acc) /\
  (VariableNode.variableID (vobj r) < length (l_var_ix acc))%nat.
Proof.
  unfold layout_step.
  destruct (Nat.ltb_spec (VariableNode.variableID (vobj r)) (length (l_var_ix acc)));
    [|discriminate].
  intros [= <-]. simpl. rewrite length_insert. now split.
Qed.

Lemma layout_loop_returns vobj vars : forall acc,
  Forall (fun r => (VariableNode.variableID (vobj r) < length (l_var_ix acc))%nat) vars ->
  exists final,
    layout_loop vobj vars acc = Ok final /\
    length (l_var_ix final) = length (l_var_ix acc).
Proof.
  induction vars as [|r vars IH]; intros acc Hall; simpl.
  - now exists acc.
  - apply Forall_cons in Hall as [Hr Hall].
    unfold layout_step at 1. apply Nat.ltb_lt in Hr as Hr'. rewrite Hr'. cbn [rbind].
    match goal with
    | |- context [layout_loop vobj vars ?a] => destruct (IH a) as (final & Hf & Hl)
    end.
    { simpl. now rewrite length_insert. }
    exists final. split; [exact Hf|]. rewrite Hl. simpl. apply length_insert.
Qed.

Lemma layout_loop_raises vobj vars : forall acc,
  Exists (fun r => (length (l_var_ix acc) <= VariableNode.variableID (vobj r))%nat) vars ->
  layout_loop vobj vars acc = Raise IndexError.
Proof.
  induction vars as [|r vars IH]; intros acc Hex; [inversion Hex|]. simpl.
  destruct (layout_step vobj acc r) as [e|acc'] eqn:Hstep; cbn [rbind].
  - unfold layout_step in Hstep. destruct (Nat.ltb _ _); [discriminate|].
    now injection Hstep as <-.
  - destruct (layout_step_length _ _ _ _ Hstep) as [Hlen Hlt].
    apply IH. rewrite Hlen. apply Exists_cons in Hex as [Hr|Hex]; [lia|exact Hex].
Qed.

Lemma off_diagonal_returns vobj (var_ix : list nat) fl vID v_dofs fi others :
  (vID < length var_ix)%nat ->
  Forall (fun r => (VariableNode.variableID (vobj r) < length var_ix)%nat) others ->
  forall ofi lam,
    exists lam', off_diagonal vobj (fun id => var_ix !! id) fl vID v_dofs fi
                              others ofi lam = Ok lam'.
Proof.
  intros Hv. induction 1 as [|o others Ho _ IH]; intros ofi lam; simpl; [eauto|].
  destruct (lookup_lt_is_Some_2 _ _ Hv) as [iv ->].
  destruct (lookup_lt_is_Some_2 _ _ Ho) as [io ->].
  destruct (Nat.ltb _ _); simpl; apply IH.
Qed.

Lemma add_blocks_returns vobj (var_ix : list nat) f adj :
  Forall (fun r => (VariableNode.variableID (vobj r) < length var_ix)%nat)
         (Factor.adj_var_nodes f) ->
  Forall (fun r => (VariableNode.variableID (vobj r) < length var_ix)%nat) adj ->
  forall fi acc,
    exists acc', add_blocks vobj (fun id => var_ix !! id) f adj fi acc = Ok acc'.
Proof.
  intros Hall. induction 1 as [|a adj Ha _ IH]; intros fi acc; simpl; [eauto|].
  destruct (lookup_lt_is_Some_2 _ _ Ha) as [iv Hiv]. rewrite Hiv. cbn [of_option rbind].
  match goal with
  | |- context [off_diagonal ?a ?b ?c ?d ?e ?g ?o ?p ?q] =>
      destruct (off_diagonal_returns vobj var_ix c d e g o Ha Hall p q) as [lam' ->]
  end.
  cbn [rbind]. apply IH.
Qed.

Lemma add_blocks_in_range vobj (var_ix : list nat) f adj : forall fi acc acc',
  add_blocks vobj (fun id => var_ix !! id) f adj fi acc = Ok acc' ->
  Forall (fun r => (VariableNode.variableID (vobj r) < length var_ix)%nat) adj.
Proof.
  induction adj as [|a adj IH]; intros fi acc acc'; simpl; [constructor|].
  destruct (var_ix !! _) as [iv|] eqn:Hiv; [|discriminate]. cbn [of_option rbind].
  destruct (off_diagonal _ _ _ _ _ _ _ _ _) as [e|lam']; [discriminate|].
  cbn [rbind]. intros Hrun. constructor.
  - now apply lookup_lt_Some in Hiv.
  - now apply IH in Hrun.
Qed.

Lemma add_factors_returns_iff vobj fobj (var_ix : list nat) fs : forall acc,
  (exists acc', add_factors vobj fobj (fun id => var_ix !! id) fs acc = Ok acc') <->
  Forall (fun fr =>
            Forall (fun r => (VariableNode.variableID (vobj r) < length var_ix)%nat)
                   (Factor.adj_var_nodes (fobj fr))) fs.
Proof.
  induction fs as [|r fs IH]; intros acc; simpl.
  - split; [constructor|eauto].
  - split.
    + intros [acc' Hrun].
      destruct (add_blocks _ _ _ _ _ _) as [e|acc1] eqn:Hb; [discriminate|].
      simpl in Hrun. constructor.
      * now apply add_blocks_in_range in Hb.
      * apply (IH acc1). eauto.
    + intros Hall. apply Forall_cons in Hall as [Hr Hall].
      destruct (add_blocks_returns vobj var_ix (fobj r) _ Hr Hr 0%nat acc)
        as [acc1 ->].
      simpl. now apply IH.
Qed.

(** X9.  [joint_distribution_inf] raises [IndexError], at the subscript
    [var_ix[id]] of its first loop, when a listed variable has an id that
    is not below the number of listed variables.  It returns for a graph
    of the data model whose listed variables have distinct ids below
    their number, the first of them the id 0. *)
Theorem joint_distribution_inf_returns h :
  let vars := FactorGraph.var_nodes (graph h) in
  let id r := VariableNode.variableID (var_obj h r) in
  (Exists (fun r => (length vars <= id r)%nat) vars ->
   joint_distribution_inf h = Raise IndexError) /\
  (Forall (fun r => (id r < length vars)%nat) vars ->
   NoDup (map id vars) ->
   (forall r, head vars = Some r -> id r = 0%nat) ->
   data_model h ->
   exists joint, joint_distribution_inf h = Ok joint).
Proof.
  intros vars id. unfold joint_distribution_inf. cbv zeta. fold vars.
  set (n := length vars).
  assert (Hn : length (l_var_ix (layout_init n)) = n) by apply repeat_length.
  split.
  - intros Hex. rewrite layout_loop_raises; [reflexivity|]. now rewrite Hn.
  - intros Hvars _ _ [_ Hfactors]. rewrite <- Hn in Hvars.
    destruct (layout_loop_returns _ _ _ Hvars) as (final & Hf & Hl).
    rewrite Hf. cbn [rbind]. apply add_factors_returns_iff.
    apply Forall_forall. intros fr Hfr. apply Forall_forall. intros r Hr.
    destruct (Hfactors fr Hfr) as (_ & Hin & _). rewrite Hl.
    rewrite Forall_forall in Hvars. now apply Hvars, Hin.
Qed.

Lemma joint_distribution_inf_returns_witness :
  joint_distribution_inf heap_id_out_of_range = Raise IndexError /\
  exists joint, joint_distribution_inf heap_difference = Ok joint.
Proof.
  split.
  - apply (joint_distribution_inf_returns heap_id_out_of_range).
    left. simpl. lia.
  - apply (joint_distribution_inf_returns heap_difference).
    + repeat constructor; simpl; lia.
    + simpl. repeat constructor; rewrite ?elem_of_cons, ?elem_of_nil; lia.
    + intros r [= <-]. reflexivity.
    + split.
      * intros r _. destruct r as [|r]; repeat split; repeat constructor.
      * intros fr _. simpl. split.
        -- repeat constructor; rewrite ?elem_of_cons, ?elem_of_nil; lia.
        -- split; [|repeat split; repeat constructor].
           intros r Hr. rewrite !elem_of_cons, elem_of_nil in Hr |- *. tauto.
Defined.

Lemma list_layout_init vobj n : list_layout vobj n [] (layout_init n).
Proof.
  unfold list_layout, layout_init. simpl. repeat split.
  - apply repeat_length.
  - intros i r Hi. discriminate.
Qed.

Lemma list_layout_step vobj n pre acc r :
  list_layout vobj n pre acc ->
  (VariableNode.variableID (vobj r) < n)%nat ->
  (VariableNode.variableID (vobj r) = 0%nat <-> pre = []) ->
  (forall p, p ∈ pre ->
     VariableNode.variableID (vobj p) <> VariableNode.variableID (vobj r)) ->
  exists acc', layout_step vobj acc r = Ok acc' /\ list_layout vobj n (pre ++ [r]) acc'.
Proof.
  intros (He & Hl & Hn & Hix & Ht) Hlt Hzero Hfresh.
  unfold layout_step. rewrite Hn. apply Nat.ltb_lt in Hlt as Hlt'. rewrite Hlt'.
  eexists. split; [reflexivity|]. unfold list_layout. simpl. repeat split.
  - rewrite He, map_app, concat_app. simpl. now rewrite app_nil_r.
  - destruct pre as [|p pre].
    + rewrite (proj2 Hzero eq_refl). reflexivity.
    + destruct (Nat.eqb_spec (VariableNode.variableID (vobj r)) 0) as [Hz|_].
      { apply Hzero in Hz. discriminate. }
      rewrite Hl, map_app.
      change (map (fun r0 => lam (VariableNode.prior (vobj r0))) (p :: pre))
        with (lam (VariableNode.prior (vobj p))
              :: map (fun r0 => lam (VariableNode.prior (vobj r0))) pre).
      symmetry. apply block_diag_all_snoc.
  - rewrite length_insert. exact Hn.
  - intros i r' Hi. destruct (decide (i < length pre)%nat) as [Hin|Hout].
    + rewrite lookup_app_l in Hi by lia.
      rewrite list_lookup_insert_ne.
      * rewrite (Hix i r' Hi). rewrite take_app_le by lia. reflexivity.
      * intros Heq. apply (Hfresh r'); [|now symmetry].
        now apply list_elem_of_lookup_2 in Hi.
    + rewrite lookup_app_r in Hi by lia.
      destruct (i - length pre)%nat as [|k] eqn:Hk; simpl in Hi; [|discriminate].
      injection Hi as <-. assert (i = length pre) by lia. subst i.
      rewrite list_lookup_insert_eq by lia. rewrite take_app_length, Ht. reflexivity.
  - rewrite Ht, map_app, sum_list_with_app. simpl. lia.
Qed.

Lemma list_layout_loop vobj n rest : forall pre acc,
  list_layout vobj n pre acc ->
  Forall (fun r => (VariableNode.variableID (vobj r) < n)%nat) rest ->
  NoDup (map (fun r => VariableNode.variableID (vobj r)) (pre ++ rest)) ->
  (forall j r, (pre ++ rest) !! j = Some r ->
     (VariableNode.variableID (vobj r) = 0%nat <-> j = 0%nat)) ->
  exists final,
    layout_loop vobj rest acc = Ok final /\ list_layout vobj n (pre ++ rest) final.
Proof.
  induction rest as [|r rest IH]; intros pre acc Hacc Hlt Hnd Hzero.
  - exists acc. rewrite app_nil_r. now split.
  - apply Forall_cons in Hlt as [Hr Hlt].
    destruct (list_layout_step vobj n pre acc r Hacc Hr) as (acc' & Hstep & Hacc').
    { rewrite (Hzero (length pre) r).
      - destruct pre; simpl; split; try discriminate; try lia; reflexivity.
      - rewrite lookup_app_r by lia. now rewrite Nat.sub_diag. }
    { intros p Hp Heq. rewrite map_app in Hnd. apply NoDup_app in Hnd as (_ & Hdis & _).
      apply (Hdis (VariableNode.variableID (vobj p))).
      - apply list_elem_of_fmap. now exists p.
      - rewrite Heq. simpl. left. }
    destruct (IH (pre ++ [r]) acc' Hacc' Hlt) as (final & Hloop & Hfinal).
    { now rewrite <- app_assoc. }
    { intros j r'. rewrite <- app_assoc. apply Hzero. }
    exists final. simpl. rewrite Hstep. simpl. rewrite Hloop.
    split; [reflexivity|]. now rewrite <- app_assoc in Hfinal.
Qed.

(** X10.  When the ids of the listed variables are distinct and in range
    and the variable listed first is the one with id 0,
    [joint_distribution_inf] lays the joint distribution out in the order
    of the variable list, whatever the ids of the others: [eta] is the
    concatenation of the priors in list order, [lam] their block diagonal,
    and the factors are added at the offsets [var_ix], where the block of
    the [i]-th listed variable starts after the blocks listed before it. *)
Theorem joint_distribution_inf_list_layout h :
  let vars := FactorGraph.var_nodes (graph h) in
  let id r := VariableNode.variableID (var_obj h r) in
  Forall (fun r => (id r < length vars)%nat) vars ->
  NoDup (map id vars) ->
  (forall r, head vars = Some r -> id r = 0%nat) ->
  exists var_ix : list nat,
    (forall i r, vars !! i = Some r ->
       var_ix !! id r =
         Some (sum_list (map (fun r => VariableNode.dofs (var_obj h r)) (take i vars)))) /\
    joint_distribution_inf h =
      add_factors (var_obj h) (factor_obj h) (fun k => var_ix !! k)
        (FactorGraph.factors (graph h))
        (concat (map (fun r => eta (VariableNode.prior (var_obj h r))) vars),
         block_diag_all (map (fun r => lam (VariableNode.prior (var_obj h r))) vars)).
Proof.
  intros vars id Hlt Hnd Hhead.
  destruct (list_layout_loop (var_obj h) (length vars) vars [] (layout_init _)
              (list_layout_init _ _) Hlt Hnd)
    as (final & Hloop & He & Hl & _ & Hix & _).
  { intros j r Hj. simpl in Hj. split.
    - intros Hz. destruct vars as [|r0 vars0] eqn:Hv; [discriminate|].
      destruct j as [|j]; [reflexivity|]. exfalso.
      simpl in Hj, Hnd. apply NoDup_cons in Hnd as [Hnotin _].
      apply Hnotin. rewrite (Hhead r0 eq_refl).
      apply list_elem_of_fmap. exists r. split; [now symmetry|].
      now apply list_elem_of_lookup_2 in Hj.
    - intros ->. apply Hhead. now destruct vars. }
  exists (l_var_ix final). split; [exact Hix|].
  unfold joint_distribution_inf. cbv zeta. fold vars. rewrite Hloop. simpl.
  now rewrite He, Hl.
Qed.

Lemma joint_distribution_inf_list_layout_witness :
  exists var_ix : list nat,
    var_ix !! 2%nat = Some 1%nat /\ var_ix !! 1%nat = Some 2%nat /\
    joint_distribution_inf heap_shuffled =
      Ok ([10; 30; 20], [[1; 0; 0]; [0; 3; 0]; [0; 0; 2]]).
Proof.
  destruct (joint_distribution_inf_list_layout heap_shuffled)
    as (var_ix & Hix & Hjoint).
  - repeat constructor.
  - simpl. repeat constructor; rewrite ?elem_of_cons, ?elem_of_nil; lia.
  - intros r [= <-]. reflexivity.
  - exists var_ix. split; [exact (Hix 1%nat 2%nat eq_refl)|].
    split; [exact (Hix 2%nat 1%nat eq_refl)|].
    rewrite Hjoint. reflexivity.
Defined.

(** ** Outlier pruning: what it returns, keeps and removes *)

Lemma list_remove_in x l : x ∈ l -> exists l', list_remove x l = Some l'.
Proof.
  induction l as [|y l IH]; intros Hin; [inversion Hin|]. simpl.
  destruct (Nat.eqb_spec y x) as [->|Hne]; [eauto|].
  apply elem_of_cons in Hin as [->|Hin]; [contradiction|].
  destruct (IH Hin) as [l' ->]. simpl. eauto.
Qed.

Lemma list_remove_NoDup x l l' :
  NoDup l -> list_remove x l = Some l' ->
  NoDup l' /\ forall r, r ∈ l' <-> r ∈ l /\ r <> x.
Proof.
  revert l'. induction l as [|y l IH]; intros l' Hnd; simpl; [discriminate|].
  apply NoDup_cons in Hnd as [Hy Hnd].
  destruct (Nat.eqb_spec y x) as [->|Hne].
  - intros [= <-]. split; [exact Hnd|]. intros r. rewrite elem_of_cons. split.
    + intros Hr. split; [now right|]. intros ->. contradiction.
    + intros [[->|Hr] Hrx]; [contradiction|assumption].
  - destruct (list_remove x l) as [l0|]; simpl; [|discriminate].
    intros [= <-]. destruct (IH l0 Hnd eq_refl) as [Hnd0 Hiff]. split.
    + apply NoDup_cons. split; [|exact Hnd0]. intros Hin. apply Hiff in Hin as [? _].
      contradiction.
    + intros r. rewrite !elem_of_cons, Hiff. split.
      * intros [->|[Hr Hrx]]; [split; [now left|assumption]|split; [now right|assumption]].
      * intros [[->|Hr] Hrx]; [now left|right; now split].
Qed.

Lemma list_remove_at x pre suf :
  x ∉ pre -> list_remove x (pre ++ x :: suf) = Some (pre ++ suf).
Proof.
  induction pre as [|y pre IH]; intros Hx; simpl.
  - now rewrite Nat.eqb_refl.
  - apply not_elem_of_cons in Hx as [Hne Hx].
    destruct (Nat.eqb_spec y x) as [->|_]; [contradiction|].
    now rewrite (IH Hx).
Qed.

(** The first loop on a factor list without repetition: it returns when
    the losses are no more than the factors, with the ids of the outliers
    collected and the outliers gone from the list of the graph. *)
Lemma collect_outliers_run losses : forall suf pre ids h,
  NoDup (FactorGraph.factors (graph h)) ->
  NoDup suf ->
  (forall r, r ∈ suf -> r ∈ FactorGraph.factors (graph h)) ->
  (length losses <= length suf)%nat ->
  exists h',
    collect_outliers (pre ++ suf) (length pre) losses ids h =
      (Ok (ids ++ map (fun r => Factor.factorID (factor_obj h r)) (outliers suf losses)),
       h') /\
    var_obj h' = var_obj h /\ factor_obj h' = factor_obj h /\
    FactorGraph.var_nodes (graph h') = FactorGraph.var_nodes (graph h) /\
    NoDup (FactorGraph.factors (graph h')) /\
    forall r, r ∈ FactorGraph.factors (graph h') <->
              r ∈ FactorGraph.factors (graph h) /\ r ∉ outliers suf losses.
Proof.
  induction losses as [|loss losses IH]; intros suf pre ids h Hcur Hsuf Hin Hlen.
  - exists h.
    replace (outliers suf []) with (@nil nat) by now destruct suf.
    simpl. rewrite app_nil_r. split; [reflexivity|].
    do 3 (split; [reflexivity|]). split; [exact Hcur|].
    intros r. split; [|now intros [? _]].
    intros Hr. split; [exact Hr|]. intros H. inversion H.
  - destruct suf as [|r suf]; [simpl in Hlen; lia|]. simpl in Hlen.
    apply NoDup_cons in Hsuf as [Hr Hsuf].
    assert (Hstep : forall ids0 h0,
              (forall r', r' ∈ suf -> r' ∈ FactorGraph.factors (graph h0)) ->
              NoDup (FactorGraph.factors (graph h0)) ->
              exists h',
                collect_outliers (pre ++ r :: suf) (S (length pre)) losses ids0 h0 =
                  (Ok (ids0 ++ map (fun r => Factor.factorID (factor_obj h0 r))
                                   (outliers suf losses)), h') /\
                var_obj h' = var_obj h0 /\ factor_obj h' = factor_obj h0 /\
                FactorGraph.var_nodes (graph h') = FactorGraph.var_nodes (graph h0) /\
                NoDup (FactorGraph.factors (graph h')) /\
                forall r', r' ∈ FactorGraph.factors (graph h') <->
                           r' ∈ FactorGraph.factors (graph h0) /\
                           r' ∉ outliers suf losses).
    { intros ids0 h0 Hin0 Hcur0.
      destruct (IH suf (pre ++ [r]) ids0 h0 Hcur0 Hsuf Hin0) as (h' & Hrun & Hrest);
        [lia|].
      exists h'. rewrite <- app_assoc, length_app in Hrun. simpl in Hrun.
      rewrite Nat.add_1_r in Hrun. now split. }
    simpl. destruct (Rgtb loss 300) eqn:Hgt.
    + unfold bind at 1, lift. rewrite lookup_app_r, Nat.sub_diag by lia.
      cbn [lookup list_lookup of_option]. unfold bind at 1, get.
      unfold bind at 1. cbv beta iota.
      destruct (list_remove_in r (FactorGraph.factors (graph h)))
        as [cur' Hrm]; [apply Hin; left|].
      rewrite Hrm. cbn [of_option]. unfold bind at 1, put. cbv beta iota.
      destruct (list_remove_NoDup _ _ _ Hcur Hrm) as [Hcur' Hiff].
      match goal with
      | |- context [collect_outliers _ _ _ ?i ?s] =>
          destruct (Hstep i s) as (h' & Hrun & Hv & Hf & Hvn & Hnd & Hmem)
      end.
      { intros r' Hr'. simpl. apply Hiff. split; [apply Hin; now right|].
        intros ->. contradiction. }
      { exact Hcur'. }
      exists h'. split.
      { rewrite Hrun. simpl. now rewrite <- app_assoc. }
      split; [exact Hv|]. split; [exact Hf|]. split; [exact Hvn|].
      split; [exact Hnd|].
      intros r'. rewrite Hmem. simpl. rewrite Hiff, not_elem_of_cons. tauto.
    + destruct (Hstep ids h) as (h' & Hrun & Hrest).
      { intros r' Hr'. apply Hin. now right. }
      { exact Hcur. }
      exists h'. now split.
Qed.

(** The inner loop raises nothing: the entry it removes is in the list. *)
Lemma prune_adj_returns fuel v ids : forall i h,
  exists h', prune_adj fuel v ids i h = (Ok tt, h').
Proof.
  induction fuel as [|fuel IH]; intros i h; simpl; [now exists h|].
  destruct (_ !! i) as [r|] eqn:Hr; [|now exists h].
  destruct (bool_decide _); [|apply IH].
  destruct (list_remove_in r (VariableNode.adj_factors (var_obj h v))) as [adj' ->];
    [now apply list_elem_of_lookup_2 in Hr|].
  apply IH.
Qed.

(** Past the end of the list the inner loop stops. *)
Lemma prune_adj_past_end fuel v ids i h :
  (length (VariableNode.adj_factors (var_obj h v)) <= i)%nat ->
  prune_adj fuel v ids i h = (Ok tt, h).
Proof.
  intros Hi. destruct fuel as [|fuel]; simpl; [reflexivity|].
  now rewrite lookup_ge_None_2.
Qed.

Lemma no_two_adjacent_tail P x l : no_two_adjacent P (x :: l) -> no_two_adjacent P l.
Proof. destruct l as [|y l]; simpl; [auto|]. now intros [_ ?]. Qed.

(** On a list without repetition in which no two neighbours are both
    listed for removal, the inner loop removes every listed entry: the
    entry it skips after a removal is one it would have kept. *)
Lemma prune_adj_clean v ids fuel : forall pre suf h,
  VariableNode.adj_factors (var_obj h v) = pre ++ suf ->
  (length suf <= fuel)%nat ->
  Forall (fun r => Factor.factorID (factor_obj h r) ∉ ids) pre ->
  NoDup (pre ++ suf) ->
  no_two_adjacent (fun r => Factor.factorID (factor_obj h r) ∈ ids) suf ->
  exists h',
    prune_adj fuel v ids (length pre) h = (Ok tt, h') /\
    Forall (fun r => Factor.factorID (factor_obj h r) ∉ ids)
           (VariableNode.adj_factors (var_obj h' v)).
Proof.
  induction fuel as [|fuel IH]; intros pre suf h Hadj Hfuel Hpre Hnd Hsp.
  - destruct suf; [|simpl in Hfuel; lia]. exists h. split; [reflexivity|].
    rewrite Hadj, app_nil_r. exact Hpre.
  - simpl. rewrite Hadj. destruct suf as [|x suf].
    + rewrite lookup_ge_None_2 by (rewrite app_nil_r; lia).
      exists h. split; [reflexivity|]. rewrite Hadj, app_nil_r. exact Hpre.
    + rewrite lookup_app_r, Nat.sub_diag by lia. cbn [lookup list_lookup].
      simpl in Hfuel.
      destruct (bool_decide_reflect (Factor.factorID (factor_obj h x) ∈ ids))
        as [Hout|Hin].
      * assert (Hx : x ∉ pre).
        { apply NoDup_app in Hnd as (_ & Hdis & _). intros Hp.
          apply (Hdis x Hp). left. }
        rewrite (list_remove_at x pre suf Hx).
        set (h1 := set_var v _ h).
        assert (Hadj1 : VariableNode.adj_factors (var_obj h1 v) = pre ++ suf).
        { unfold h1. simpl. now rewrite fupd_same. }
        assert (Hnd1 : NoDup (pre ++ suf)).
        { apply NoDup_app in Hnd as (Hp & Hdis & Hs).
          apply NoDup_cons in Hs as [_ Hs]. apply NoDup_app. split; [exact Hp|].
          split; [|exact Hs]. intros r Hr Hrs. apply (Hdis r Hr). now right. }
        destruct suf as [|y suf].
        -- exists h1. split.
           ++ apply prune_adj_past_end. rewrite Hadj1, app_nil_r. lia.
           ++ rewrite Hadj1, app_nil_r. exact Hpre.
        -- destruct Hsp as [Hxy Hsp].
           destruct (IH (pre ++ [y]) suf h1) as (h' & Hrun & Hclean).
           ++ now rewrite <- app_assoc.
           ++ simpl in Hfuel. lia.
           ++ apply Forall_app. split; [exact Hpre|]. constructor; [|constructor].
              intros Hy. now apply Hxy.
           ++ now rewrite <- app_assoc.
           ++ now apply no_two_adjacent_tail in Hsp.
           ++ exists h'. rewrite length_app in Hrun. simpl in Hrun.
              rewrite Nat.add_1_r in Hrun. now split.
      * destruct (IH (pre ++ [x]) suf h) as (h' & Hrun & Hclean).
        -- now rewrite <- app_assoc.
        -- lia.
        -- apply Forall_app. split; [exact Hpre|]. now repeat constructor.
        -- now rewrite <- app_assoc.
        -- now apply no_two_adjacent_tail in Hsp.
        -- exists h'. rewrite length_app in Hrun. simpl in Hrun.
           rewrite Nat.add_1_r in Hrun. now split.
Qed.

(** The inner loop changes nothing of the variable but its list. *)
Lemma prune_adj_fields fuel v ids : forall i h res h',
  prune_adj fuel v ids i h = (res, h') ->
  var_obj h' v =
    VariableNode.set_adj_factors (VariableNode.adj_factors (var_obj h' v)) (var_obj h v).
Proof.
  induction fuel as [|fuel IH]; intros i h res h'; simpl.
  - intros [= _ <-]. now destruct (var_obj h v).
  - destruct (_ !! i) as [r0|]; [|intros [= _ <-]; now destruct (var_obj h v)].
    destruct (bool_decide _).
    + destruct (list_remove r0 _) as [adj'|];
        [|intros [= _ <-]; now destruct (var_obj h v)].
      intros Hrun. apply IH in Hrun. rewrite Hrun. simpl. now rewrite fupd_same.
    + apply IH.
Qed.

(** The second loop of [remove_outlier] over any list of variables. *)
Lemma prune_loop_run ids vs : forall h,
  exists h',
    for_each vs (prune_var ids) h = (Ok tt, h') /\
    factor_obj h' = factor_obj h /\ graph h' = graph h /\
    (forall v, var_obj h' v =
       VariableNode.set_adj_factors (VariableNode.adj_factors (var_obj h' v))
                                    (var_obj h v)) /\
    (forall v, v ∉ vs -> var_obj h' v = var_obj h v) /\
    (forall v r, r ∈ VariableNode.adj_factors (var_obj h' v) ->
       r ∈ VariableNode.adj_factors (var_obj h v)) /\
    (forall v r, r ∈ VariableNode.adj_factors (var_obj h v) ->
       Factor.factorID (factor_obj h r) ∉ ids ->
       r ∈ VariableNode.adj_factors (var_obj h' v)).
Proof.
  induction vs as [|x vs IH]; intros h.
  - exists h. simpl. split; [reflexivity|]. do 2 (split; [reflexivity|]).
    split; [intros v; now destruct (var_obj h v)|]. split; auto.
  - simpl. unfold bind at 1.
    destruct (prune_adj_returns
                (length (VariableNode.adj_factors (var_obj h x))) x ids 0%nat h)
      as [h1 Hx].
    unfold prune_var at 1. rewrite Hx.
    pose proof (prune_adj_fields _ _ _ _ _ _ _ Hx) as Hfld.
    apply prune_adj_keeps in Hx as (Hf1 & Hg1 & Hv1 & Hsub1 & Hkeep1).
    destruct (IH h1) as (h' & Hrun & Hf & Hg & Hflds & Hv & Hsub & Hkeep).
    exists h'. split; [exact Hrun|].
    split; [now rewrite Hf|]. split; [now rewrite Hg|].
    assert (Hother : forall v, v <> x -> var_obj h1 v = var_obj h v)
      by (intros v Hne; now apply Hv1).
    split; [|split; [|split]].
    + intros v. rewrite (Hflds v) at 1.
      destruct (Nat.eq_dec v x) as [->|Hne].
      * rewrite Hfld. reflexivity.
      * now rewrite (Hother v Hne).
    + intros v Hv'. apply not_elem_of_cons in Hv' as [Hne Hv'].
      rewrite (Hv v Hv'). now apply Hother.
    + intros v r Hr. apply Hsub in Hr.
      destruct (Nat.eq_dec v x) as [->|Hne]; [now apply Hsub1|].
      now rewrite <- (Hother v Hne).
    + intros v r Hr Hid. apply Hkeep; [|now rewrite Hf1].
      destruct (Nat.eq_dec v x) as [->|Hne]; [now apply Hkeep1|].
      now rewrite (Hother v Hne).
Qed.

(** A variable of the list whose adjacency has no repetition and no two
    neighbouring entries to remove ends without any entry to remove. *)
Lemma prune_loop_clean ids v vs : forall h h',
  v ∈ vs ->
  NoDup (VariableNode.adj_factors (var_obj h v)) ->
  no_two_adjacent (fun r => Factor.factorID (factor_obj h r) ∈ ids)
                  (VariableNode.adj_factors (var_obj h v)) ->
  for_each vs (prune_var ids) h = (Ok tt, h') ->
  Forall (fun r => Factor.factorID (factor_obj h r) ∉ ids)
         (VariableNode.adj_factors (var_obj h' v)).
Proof.
  induction vs as [|x vs IH]; intros h h' Hin Hnd Hsp; [inversion Hin|].
  simpl. unfold bind at 1.
  destruct (Nat.eq_dec x v) as [->|Hne].
  - destruct (prune_adj_clean v ids
                (length (VariableNode.adj_factors (var_obj h v))) [] _ h eq_refl)
      as (h1 & Hx & Hclean); [lia|constructor|exact Hnd|exact Hsp|].
    unfold prune_var at 1. simpl in Hx. rewrite Hx. intros Hrun.
    destruct (prune_loop_run ids vs h1) as (h2 & Hrun2 & _ & _ & _ & _ & Hsub & _).
    rewrite Hrun in Hrun2. injection Hrun2 as <-.
    apply Forall_forall. intros r Hr. apply Hsub in Hr.
    rewrite Forall_forall in Hclean. now apply Hclean.
  - apply elem_of_cons in Hin as [->|Hin]; [contradiction|].
    destruct (prune_var ids x h) as [[e|[]] h1] eqn:Hx; [discriminate|].
    unfold prune_var in Hx.
    apply prune_adj_keeps in Hx as (Hf1 & _ & Hv1 & _ & _).
    intros Hrun. rewrite <- Hf1. apply (IH h1 h' Hin); [| |exact Hrun].
    + now rewrite (Hv1 v) by auto.
    + now rewrite (Hv1 v), Hf1 by auto.
Qed.

(** The first loop done, [remove_outlier] continues with the second. *)
Lemma remove_outlier_split losses h ids h1 :
  collect_outliers (FactorGraph.factors (graph h)) 0 losses [] h = (Ok ids, h1) ->
  remove_outlier losses h =
    for_each (FactorGraph.var_nodes (graph h1)) (prune_var ids) h1.
Proof.
  intros Hrun. unfold remove_outlier, bind at 1, get. cbv beta iota zeta.
  unfold bind at 1. rewrite Hrun. reflexivity.
Qed.

(** X11.  On a factor list without repetition and with no more losses than
    factors, [remove_outlier] returns; the graph keeps exactly the factors
    whose loss is not above 300; the factor objects and the variable list
    are untouched; a variable gains no reference, changes in nothing but
    its adjacency list, and keeps every reference to a factor whose id is
    not the id of a removed factor. *)
Theorem remove_outlier_returns losses h :
  NoDup (FactorGraph.factors (graph h)) ->
  (length losses <= length (FactorGraph.factors (graph h)))%nat ->
  exists h',
    remove_outlier losses h = (Ok tt, h') /\
    factor_obj h' = factor_obj h /\
    FactorGraph.var_nodes (graph h') = FactorGraph.var_nodes (graph h) /\
    (forall r, r ∈ FactorGraph.factors (graph h') <->
       r ∈ FactorGraph.factors (graph h) /\
       r ∉ outliers (FactorGraph.factors (graph h)) losses) /\
    (forall v, var_obj h' v =
       VariableNode.set_adj_factors (VariableNode.adj_factors (var_obj h' v))
                                    (var_obj h v)) /\
    (forall v r, var_refers h' v r -> var_refers h v r) /\
    (forall v r, var_refers h v r ->
       Factor.factorID (factor_obj h r) ∉
         map (fun r => Factor.factorID (factor_obj h r))
             (outliers (FactorGraph.factors (graph h)) losses) ->
       var_refers h' v r).
Proof.
  intros Hnd Hlen.
  destruct (collect_outliers_run losses (FactorGraph.factors (graph h)) [] [] h
              Hnd Hnd (fun r Hr => Hr) Hlen)
    as (h1 & Hrun & Hv1 & Hf1 & Hvn1 & _ & Hmem).
  simpl in Hrun. rewrite (remove_outlier_split _ _ _ _ Hrun).
  destruct (prune_loop_run
              (map (fun r => Factor.factorID (factor_obj h r))
                   (outliers (FactorGraph.factors (graph h)) losses))
              (FactorGraph.var_nodes (graph h1)) h1)
    as (h' & Hloop & Hf & Hg & Hflds & _ & Hsub & Hkeep).
  exists h'. split; [exact Hloop|].
  split; [now rewrite Hf|]. split; [now rewrite Hg|].
  split; [intros r; now rewrite Hg|].
  unfold var_refers. rewrite Hv1 in Hflds, Hsub, Hkeep. rewrite Hf1 in Hkeep.
  split; [exact Hflds|]. split; [exact Hsub|exact Hkeep].
Qed.

Lemma remove_outlier_returns_witness :
  exists h',
    remove_outlier [500; 0] heap_two_outliers = (Ok tt, h') /\
    forall r, r ∈ FactorGraph.factors (graph h') <->
       r ∈ FactorGraph.factors (graph heap_two_outliers) /\
       r ∉ outliers (FactorGraph.factors (graph heap_two_outliers)) [500; 0].
Proof.
  destruct (remove_outlier_returns [500; 0] heap_two_outliers)
    as (h' & Hrun & _ & _ & Hmem & _).
  - simpl. repeat constructor; rewrite ?elem_of_cons, ?elem_of_nil; lia.
  - simpl. lia.
  - exists h'. split; [exact Hrun|exact Hmem].
Defined.

(** X12.  A listed variable whose adjacency list has no repetition and no
    two neighbouring factors that are both removed ends with no reference
    to a factor carrying a removed id: the skipped entry after a removal is
    then one the loop would have kept. *)
Theorem remove_outlier_prunes_isolated_outliers losses h v :
  NoDup (FactorGraph.factors (graph h)) ->
  (length losses <= length (FactorGraph.factors (graph h)))%nat ->
  v ∈ FactorGraph.var_nodes (graph h) ->
  NoDup (VariableNode.adj_factors (var_obj h v)) ->
  no_two_adjacent
    (fun r => Factor.factorID (factor_obj h r) ∈
       map (fun r => Factor.factorID (factor_obj h r))
           (outliers (FactorGraph.factors (graph h)) losses))
    (VariableNode.adj_factors (var_obj h v)) ->
  exists h',
    remove_outlier losses h = (Ok tt, h') /\
    forall r, var_refers h' v r ->
      Factor.factorID (factor_obj h r) ∉
        map (fun r => Factor.factorID (factor_obj h r))
            (outliers (FactorGraph.factors (graph h)) losses).
Proof.
  intros Hnd Hlen Hv Hadj Hsp.
  destruct (collect_outliers_run losses (FactorGraph.factors (graph h)) [] [] h
              Hnd Hnd (fun r Hr => Hr) Hlen)
    as (h1 & Hrun & Hv1 & Hf1 & Hvn1 & _ & _).
  simpl in Hrun. rewrite (remove_outlier_split _ _ _ _ Hrun).
  destruct (prune_loop_run
              (map (fun r => Factor.factorID (factor_obj h r))
                   (outliers (FactorGraph.factors (graph h)) losses))
              (FactorGraph.var_nodes (graph h1)) h1)
    as (h' & Hloop & _).
  exists h'. split; [exact Hloop|].
  apply prune_loop_clean with (v := v) in Hloop.
  - rewrite Hf1 in Hloop. rewrite Forall_forall in Hloop. exact Hloop.
  - now rewrite Hvn1.
  - now rewrite Hv1.
  - now rewrite Hv1, Hf1.
Qed.

Lemma remove_outlier_prunes_isolated_outliers_witness :
  exists h',
    remove_outlier [500; 0] heap_two_outliers = (Ok tt, h') /\
    forall r, var_refers h' 0%nat r ->
      Factor.factorID (factor_obj heap_two_outliers r) ∉
        map (fun r => Factor.factorID (factor_obj heap_two_outliers r))
            (outliers (FactorGraph.factors (graph heap_two_outliers)) [500; 0]).
Proof.
  apply (remove_outlier_prunes_isolated_outliers [500; 0] heap_two_outliers 0%nat).
  - simpl. repeat constructor; rewrite ?elem_of_cons, ?elem_of_nil; lia.
  - simpl. lia.
  - simpl. left.
  - simpl. repeat constructor; rewrite ?elem_of_cons, ?elem_of_nil; lia.
  - simpl. rewrite Rgtb_true, Rgtb_false by lra. simpl. split; [|exact I].
    intros _. rewrite elem_of_cons, elem_of_nil. lia.
Defined.

(** The first loop over two runs of losses. *)
Lemma collect_outliers_app tmp l1 l2 : forall idx ids h,
  collect_outliers tmp idx (l1 ++ l2) ids h =
    match collect_outliers tmp idx l1 ids h with
    | (inr ids', h') => collect_outliers tmp (idx + length l1) l2 ids' h'
    | (inl e, h') => (inl e, h')
    end.
Proof.
  induction l1 as [|x l1 IH]; intros idx ids h.
  - simpl. now rewrite Nat.add_0_r.
  - simpl. replace (idx + S (length l1))%nat with (S idx + length l1)%nat by lia.
    destruct (Rgtb x 300); [|apply IH].
    unfold bind, lift, get, put. destruct (tmp !! idx) as [r|]; [|reflexivity].
    cbn [of_option]. cbv beta iota.
    destruct (list_remove r _) as [fs|]; [|reflexivity].
    cbn [of_option]. cbv beta iota. apply IH.
Qed.

(** Past the end of the copied list the first loss above 300 raises. *)
Lemma collect_outliers_past_end tmp losses : forall idx ids h,
  (length tmp <= idx)%nat ->
  Exists (fun x => x > 300) losses ->
  collect_outliers tmp idx losses ids h = (Raise IndexError, h).
Proof.
  induction losses as [|x losses IH]; intros idx ids h Hidx Hex;
    [inversion Hex|].
  simpl. destruct (Rgtb x 300) eqn:Hx.
  - unfold bind at 1, lift. now rewrite lookup_ge_None_2.
  - apply IH; [lia|]. apply Exists_cons in Hex as [Hgt|Hex]; [|exact Hex].
    rewrite Rgtb_true in Hx by exact Hgt. discriminate.
Qed.

(** X13.  More losses than factors, one of the surplus above 300: the
    lookup in the copied list raises [IndexError].  By then the graph has
    lost the factors whose loss is above 300, and no variable has been
    pruned: every reference to a removed factor is still in place. *)
Theorem remove_outlier_surplus_loss losses surplus h :
  NoDup (FactorGraph.factors (graph h)) ->
  length losses = length (FactorGraph.factors (graph h)) ->
  Exists (fun x => x > 300) surplus ->
  exists h',
    remove_outlier (losses ++ surplus) h = (Raise IndexError, h') /\
    var_obj h' = var_obj h /\ factor_obj h' = factor_obj h /\
    forall r, r ∈ FactorGraph.factors (graph h') <->
      r ∈ FactorGraph.factors (graph h) /\
      r ∉ outliers (FactorGraph.factors (graph h)) losses.
Proof.
  intros Hnd Hlen Hex.
  destruct (collect_outliers_run losses (FactorGraph.factors (graph h)) [] [] h
              Hnd Hnd (fun r Hr => Hr)) as (h1 & Hrun & Hv1 & Hf1 & _ & _ & Hmem);
    [lia|].
  simpl in Hrun. exists h1. split; [|split; [exact Hv1|split; [exact Hf1|exact Hmem]]].
  unfold remove_outlier, bind at 1, get. cbv beta iota zeta.
  unfold bind at 1. rewrite collect_outliers_app, Hrun.
  rewrite collect_outliers_past_end; [reflexivity|lia|exact Hex].
Qed.

Lemma remove_outlier_surplus_loss_witness :
  exists h',
    remove_outlier ([500; 0] ++ [500]) heap_two_outliers = (Raise IndexError, h') /\
    var_obj h' = var_obj heap_two_outliers.
Proof.
  destruct (remove_outlier_surplus_loss [500; 0] [500] heap_two_outliers)
    as (h' & Hrun & Hv & _).
  - simpl. repeat constructor; rewrite ?elem_of_cons, ?elem_of_nil; lia.
  - reflexivity.
  - left. lra.
  - exists h'. split; [exact Hrun|exact Hv].
Defined.

(** ** Energy: sign, and the effect of the reweighting *)

Lemma Factor_energy_nonneg f e :
  0 < Factor.adaptive_gauss_noise_var f -> Factor_energy f = Ok e -> 0 <= e.
Proof.
  intros Hvar. unfold Factor_energy.
  destruct (compute_residual f) as [ex|t]; [discriminate|]. simpl.
  destruct (norm_pair _ _) as [ex|n]; [discriminate|]. simpl.
  intros [= <-]. apply Rmult_le_pos; [|left; now apply Rinv_0_lt_compat].
  apply Rmult_le_pos; [lra|]. apply pow2_ge_0.
Qed.

Lemma energy_loop_nonneg fobj fs : forall acc e,
  (forall r, r ∈ fs -> 0 < Factor.adaptive_gauss_noise_var (fobj r)) ->
  energy_loop fobj fs acc = Ok e -> acc <= e.
Proof.
  induction fs as [|r fs IH]; intros acc e Hvar; simpl.
  - intros [= <-]. lra.
  - destruct (Factor_energy (fobj r)) as [ex|er] eqn:Her; [discriminate|]. simpl.
    intros Hrun. apply IH in Hrun; [|intros r' Hr'; apply Hvar; now right].
    apply Factor_energy_nonneg in Her; [lra|]. apply Hvar. left.
Qed.

(** X14.  With a positive adaptive variance at every factor of the graph,
    the energy [FactorGraph.energy] returns is not negative. *)
Theorem FactorGraph_energy_nonneg h e :
  (forall r, r ∈ FactorGraph.factors (graph h) ->
     0 < Factor.adaptive_gauss_noise_var (factor_obj h r)) ->
  FactorGraph_energy h = Ok e ->
  0 <= e.
Proof.
  intros Hvar Hrun. unfold FactorGraph_energy in Hrun.
  now apply energy_loop_nonneg in Hrun.
Qed.

Lemma FactorGraph_energy_zero_residual :
  FactorGraph_energy heap_zero_residual = Ok (0 + 0.5 * (0 * 0 + 1 * 1) / 1).
Proof.
  unfold FactorGraph_energy. simpl.
  now rewrite (Factor_energy_value _ _ _ compute_residual_zero_residual eq_refl).
Qed.

Lemma FactorGraph_energy_nonneg_witness : 0 <= 0 + 0.5 * (0 * 0 + 1 * 1) / 1.
Proof.
  apply (FactorGraph_energy_nonneg heap_zero_residual).
  - intros r _. simpl. lra.
  - exact FactorGraph_energy_zero_residual.
Defined.

(** The reweighting leaves the residual as it is. *)
Lemma compute_residual_reweighted new flag f :
  compute_residual (reweighted new flag f) = compute_residual f.
Proof. reflexivity. Qed.

(** X15.  [robustify_loss] changes the energy of the factor by the ratio of
    the variances: the residual is the same, the weight is the new
    variance.  So a factor whose variance was raised weighs less in the
    energy, by as much as its stored factor was scaled down. *)
Theorem robustify_loss_scales_energy f f' e :
  robustify_loss f = (Ok tt, f') ->
  Factor.adaptive_gauss_noise_var f <> 0 ->
  Factor_energy f = Ok e ->
  Factor_energy f' =
    Ok (e * (Factor.adaptive_gauss_noise_var f / Factor.adaptive_gauss_noise_var f')).
Proof.
  rewrite robustify_loss_run.
  destruct (robust_update f) as [ex|[new flag]]; [discriminate|].
  intros [= <-] Hold. unfold Factor_energy.
  rewrite compute_residual_reweighted.
  destruct (compute_residual f) as [ex|t]; [discriminate|]. simpl.
  destruct (norm_pair _ _) as [ex|n]; [discriminate|]. simpl.
  intros [= <-]. f_equal. unfold Rdiv. generalize (/ new). intros k.
  field. exact Hold.
Qed.

Lemma compute_residual_huber :
  compute_residual factor_huber = Ok (Scal (0 - 10), Scal 1).
Proof.
  unfold compute_residual. simpl. rewrite inv_1x1_one. simpl.
  repeat f_equal. unfold dot. simpl. lra.
Qed.

Lemma robustify_loss_scales_energy_witness :
  Factor_energy factor_huber_fired =
    Ok (0.5 * (nd_sumsq (Scal (0 - 10)) + nd_sumsq (Scal 1)) / 1 *
        (Factor.adaptive_gauss_noise_var factor_huber /
         Factor.adaptive_gauss_noise_var factor_huber_fired)).
Proof.
  apply (robustify_loss_scales_energy factor_huber).
  - unfold factor_huber_fired.
    now rewrite (robustify_loss_huber_run factor_huber [0] (Scal (10 - 0)) eq_refl
                   (adj_belief_means_unit 0) eq_refl).
  - simpl. lra.
  - exact (Factor_energy_value _ _ _ compute_residual_huber eq_refl).
Defined.

(** ** The belief update, repeated *)

Lemma message_to_receive b id' id f :
  message_to id (receive b id' f) = message_to id f.
Proof.
  unfold message_to. now rewrite receive_adj_vIDs, receive_messages.
Qed.

Lemma Forall2_message_to_receive (fobj fobj' : FRef -> Factor.t) id b id' adj msgs :
  (forall r, r ∈ adj -> fobj' r = receive b id' (fobj r)) ->
  Forall2 (fun r msg => message_to id (fobj r) = Some msg) adj msgs ->
  Forall2 (fun r msg => message_to id (fobj' r) = Some msg) adj msgs.
Proof.
  intros Hrecv HF. induction HF as [|r msg adj msgs Hr HF IH]; constructor.
  - rewrite (Hrecv r) by left. now rewrite message_to_receive.
  - apply IH. intros r' Hr'. apply Hrecv. now right.
Qed.

(** X16.  [update_belief] reads the prior and the messages and writes
    neither: when it has returned, calling it again returns and changes
    nothing, neither the variable nor any factor. *)
Theorem update_belief_idempotent v h h1 :
  slots_present h v ->
  update_belief v h = (Ok tt, h1) ->
  exists h2,
    update_belief v h1 = (Ok tt, h2) /\
    (forall v', var_obj h2 v' = var_obj h1 v') /\
    (forall r, factor_obj h2 r = factor_obj h1 r) /\
    graph h2 = graph h1.
Proof.
  intros Hs Hrun1.
  destruct (incoming_run (factor_obj h) (VariableNode.variableID (var_obj h v))
              (VariableNode.adj_factors (var_obj h v)) (VariableNode.prior (var_obj h v))
              (slots_present_messages h v Hs)) as (msgs & Hmsgs & _).
  pose proof (update_belief_run v h msgs Hs Hmsgs) as Hrun. cbv zeta in Hrun.
  set (self := var_obj h v) in *.
  set (b := product_with (VariableNode.prior self) msgs) in *.
  destruct (inv (lam b)) as [e|Sg] eqn:Hinv; [rewrite Hrun in Hrun1; discriminate|].
  destruct Hrun as (h' & Hrun & Hv & Hothers & Hgraph & Hfobj).
  rewrite Hrun in Hrun1. injection Hrun1 as ->.
  assert (Hadj : VariableNode.adj_factors (var_obj h1 v) = VariableNode.adj_factors self)
    by now rewrite Hv.
  assert (Hid : VariableNode.variableID (var_obj h1 v) = VariableNode.variableID self)
    by now rewrite Hv.
  assert (Hprior : VariableNode.prior (var_obj h1 v) = VariableNode.prior self)
    by now rewrite Hv.
  assert (Hrecv : forall r, r ∈ VariableNode.adj_factors self ->
            factor_obj h1 r = receive b (VariableNode.variableID self) (factor_obj h r))
    by (intros r Hr; now apply Hfobj).
  assert (Hs1 : slots_present h1 v).
  { intros r Hr. rewrite Hadj in Hr. rewrite Hid, (Hrecv r Hr).
    rewrite receive_adj_vIDs, receive_messages, receive_length. now apply Hs. }
  assert (Hmsgs1 : Forall2 (fun r msg =>
            message_to (VariableNode.variableID (var_obj h1 v)) (factor_obj h1 r) = Some msg)
            (VariableNode.adj_factors (var_obj h1 v)) msgs).
  { rewrite Hadj, Hid.
    now apply (Forall2_message_to_receive (factor_obj h) (factor_obj h1) _ b
                 (VariableNode.variableID self)). }
  pose proof (update_belief_run v h1 msgs Hs1 Hmsgs1) as Hrun2. cbv zeta in Hrun2.
  rewrite Hprior in Hrun2. fold b in Hrun2. rewrite Hinv in Hrun2.
  destruct Hrun2 as (h2 & Hrun2 & Hv2 & Hothers2 & Hgraph2 & Hfobj2).
  exists h2. split; [exact Hrun2|]. split; [|split; [|exact Hgraph2]].
  - intros v'. destruct (Nat.eq_dec v' v) as [->|Hne]; [|now apply Hothers2].
    rewrite Hv2, Hv. reflexivity.
  - intros r. destruct (Hfobj2 r) as [Hin Hout].
    destruct (decide (r ∈ VariableNode.adj_factors (var_obj h1 v))) as [Hr|Hr].
    + rewrite (Hin Hr), Hid. rewrite Hadj in Hr. rewrite (Hrecv r Hr).
      apply receive_idem.
    + now apply Hout.
Qed.

Lemma update_belief_idempotent_witness :
  exists h1 h2,
    update_belief 0%nat (heap_one_edge (mkGaussian [1] [[1]]) (mkGaussian [2] [[3]]))
      = (Ok tt, h1) /\
    update_belief 0%nat h1 = (Ok tt, h2) /\
    forall r, factor_obj h2 r = factor_obj h1 r.
Proof.
  pose proof (update_belief_run 0%nat
                (heap_one_edge (mkGaussian [1] [[1]]) (mkGaussian [2] [[3]]))
                [mkGaussian [2] [[3]]]
                (slots_present_one_edge _ _) (messages_one_edge _ _)) as Hrun.
  cbv zeta in Hrun. simpl in Hrun.
  match type of Hrun with
  | match ?x with _ => _ end =>
      assert (Hinv : x = Ok [[/ (1 + 3)]]) by (apply inv_1x1; lra);
      rewrite Hinv in Hrun
  end.
  destruct Hrun as (h1 & Hrun & _).
  destruct (update_belief_idempotent 0%nat _ h1 (slots_present_one_edge _ _) Hrun)
    as (h2 & Hrun2 & _ & Hf & _).
  exists h1, h2. split; [exact Hrun|]. split; [exact Hrun2|exact Hf].
Defined.

(** ** What an iteration leaves alone *)

Section Keeps.
Context {S : Type} (R : S -> S -> Prop).
Hypothesis R_refl : forall s, R s s.
Hypothesis R_trans : forall a b c, R a b -> R b c -> R a c.

Lemma keeps_ret {A} (a : A) : keeps R (ret a).
Proof. intros s. apply R_refl. Qed.

Lemma keeps_throw {A} e : keeps R (@throw S A e).
Proof. intros s. apply R_refl. Qed.

Lemma keeps_lift {A} (r : result A) : keeps R (lift r).
Proof. intros s. apply R_refl. Qed.

Lemma keeps_get : keeps R get.
Proof. intros s. apply R_refl. Qed.

Lemma keeps_modify f : (forall s, R s (f s)) -> keeps R (modify f).
Proof. intros H s. apply H. Qed.

Lemma keeps_bind {A B} (m : M S A) (k : A -> M S B) :
  keeps R m -> (forall a, keeps R (k a)) -> keeps R (bind m k).
Proof.
  intros Hm Hk s. unfold bind. specialize (Hm s).
  destruct (m s) as [[e|a] s']; [exact Hm|].
  apply (R_trans _ s'); [exact Hm|apply Hk].
Qed.

Lemma keeps_bind_get {B} (k : S -> M S B) :
  (forall s, R s (snd (k s s))) -> keeps R (bind get k).
Proof. intros H s. apply H. Qed.

Lemma keeps_for_each {A} xs (body : A -> M S unit) :
  (forall x, keeps R (body x)) -> keeps R (for_each xs body).
Proof.
  intros H. induction xs as [|x xs IH]; [apply keeps_ret|].
  simpl. apply keeps_bind; [apply H|intros _; exact IH].
Qed.

End Keeps.

Lemma unchanged_refl {S B} (P : S -> B) s : unchanged P s s.
Proof. reflexivity. Qed.

Lemma unchanged_trans {S B} (P : S -> B) a b c :
  unchanged P a b -> unchanged P b c -> unchanged P a c.
Proof. unfold unchanged. congruence. Qed.

Lemma heap_keeps_refl {B} (P : Factor.t -> B) h : heap_keeps P h h.
Proof. now repeat split. Qed.

Lemma heap_keeps_trans {B} (P : Factor.t -> B) a b c :
  heap_keeps P a b -> heap_keeps P b c -> heap_keeps P a c.
Proof.
  intros (Hg1 & Hv1 & Hf1) (Hg2 & Hv2 & Hf2). split; [congruence|].
  split; intros x; [rewrite Hv2|rewrite Hf2]; auto.
Qed.

(** A method of a factor run on the store. *)
Lemma on_factor_keeps {A B} (P : Factor.t -> B) r (m : M Factor.t A) :
  keeps (unchanged P) m -> keeps (heap_keeps P) (on_factor r m).
Proof.
  intros H h. unfold on_factor. specialize (H (factor_obj h r)).
  destruct (m (factor_obj h r)) as [res f']. simpl in *.
  split; [reflexivity|]. split; [reflexivity|]. intros r'. simpl. unfold fupd.
  destruct (Nat.eqb_spec r' r) as [->|_]; [exact H|reflexivity].
Qed.

(** The messages and the belief slots: any [P] that reads of them at most
    their number is kept by [compute_messages] and [update_belief]. *)
Section Messages_and_beliefs.
Context {B : Type} (P : Factor.t -> B).
Hypothesis P_messages : forall ms f,
  length ms = length (Factor.messages f) -> P (Factor.set_messages ms f) = P f.
Hypothesis P_adj_beliefs : forall bs f,
  length bs = length (Factor.adj_beliefs f) -> P (Factor.set_adj_beliefs bs f) = P f.

Lemma messages_loop_keeps vobj eta_damping vs : forall start_dim computed,
  keeps (unchanged P) (messages_loop vobj eta_damping vs start_dim computed).
Proof.
  induction vs as [|v vs IH]; intros start_dim computed; simpl.
  - apply keeps_ret, unchanged_refl.
  - apply keeps_bind; [apply unchanged_trans|apply keeps_get, unchanged_refl|].
    intros self.
    apply keeps_bind; [apply unchanged_trans|apply keeps_lift, unchanged_refl|].
    intros msg.
    apply keeps_bind; [apply unchanged_trans|apply keeps_lift, unchanged_refl|].
    intros node. apply IH.
Qed.

Lemma commit_message_keeps computed v :
  keeps (unchanged P) (commit_message computed v).
Proof.
  unfold commit_message. apply keeps_bind_get. intros self.
  unfold bind, lift. destruct (of_option _ _) as [e|msg]; [reflexivity|].
  destruct (Nat.ltb _ _); [|reflexivity]. simpl.
  apply P_messages, length_insert.
Qed.

Lemma commit_loop_keeps computed order :
  keeps (unchanged P) (commit_loop computed order).
Proof.
  induction order as [|v order IH]; simpl.
  - apply keeps_ret, unchanged_refl.
  - apply keeps_bind; [apply unchanged_trans|apply commit_message_keeps|].
    intros ev.
    apply keeps_bind; [apply unchanged_trans|exact IH|].
    intros evs. apply keeps_ret, unchanged_refl.
Qed.

Lemma compute_messages_keeps vobj eta_damping :
  keeps (unchanged P) (compute_messages vobj eta_damping).
Proof.
  unfold compute_messages.
  apply keeps_bind; [apply unchanged_trans|apply keeps_get, unchanged_refl|].
  intros self.
  apply keeps_bind; [apply unchanged_trans|apply messages_loop_keeps|].
  intros computed. apply commit_loop_keeps.
Qed.

Lemma set_var_keeps v x h :
  Variable_structure x = Variable_structure (var_obj h v) ->
  heap_keeps P h (set_var v x h).
Proof.
  intros Hx. split; [reflexivity|]. split; [|reflexivity]. intros v'. simpl.
  unfold fupd. destruct (Nat.eqb_spec v' v) as [->|_]; [exact Hx|reflexivity].
Qed.

Lemma send_belief_keeps v r : keeps (heap_keeps P) (send_belief v r).
Proof.
  unfold send_belief. apply keeps_bind_get. intros h.
  unfold bind, lift. destruct (of_option _ _) as [e|ix]; [apply heap_keeps_refl|].
  destruct (Nat.ltb _ _); [|apply heap_keeps_refl]. simpl.
  split; [reflexivity|]. split; [reflexivity|]. intros r'. simpl. unfold fupd.
  destruct (Nat.eqb_spec r' r) as [->|_]; [|reflexivity].
  apply P_adj_beliefs, length_insert.
Qed.

Lemma update_belief_keeps v : keeps (heap_keeps P) (update_belief v).
Proof.
  unfold update_belief.
  apply keeps_bind; [apply heap_keeps_trans|apply keeps_get, heap_keeps_refl|].
  intros h0.
  apply keeps_bind; [apply heap_keeps_trans|apply keeps_lift, heap_keeps_refl|].
  intros b.
  apply keeps_bind; [apply heap_keeps_trans| |].
  { apply keeps_modify. intros h. now apply set_var_keeps. }
  intros _.
  apply keeps_bind; [apply heap_keeps_trans|apply keeps_lift, heap_keeps_refl|].
  intros Sg.
  apply keeps_bind; [apply heap_keeps_trans| |].
  { apply keeps_modify. intros h. now apply set_var_keeps. }
  intros _.
  apply keeps_bind; [apply heap_keeps_trans| |].
  { apply keeps_modify. intros h. now apply set_var_keeps. }
  intros _.
  apply keeps_for_each; [apply heap_keeps_refl|apply heap_keeps_trans|].
  intros r. apply send_belief_keeps.
Qed.

Lemma update_all_beliefs_keeps : keeps (heap_keeps P) update_all_beliefs.
Proof.
  unfold update_all_beliefs.
  apply keeps_bind; [apply heap_keeps_trans|apply keeps_get, heap_keeps_refl|].
  intros h0.
  apply keeps_for_each; [apply heap_keeps_refl|apply heap_keeps_trans|].
  intros v. apply update_belief_keeps.
Qed.

End Messages_and_beliefs.

Lemma Factor_structure_messages ms f :
  length ms = length (Factor.messages f) ->
  Factor_structure (Factor.set_messages ms f) = Factor_structure f.
Proof. intros H. unfold Factor_structure. simpl. now rewrite H. Qed.

Lemma Factor_structure_adj_beliefs bs f :
  length bs = length (Factor.adj_beliefs f) ->
  Factor_structure (Factor.set_adj_beliefs bs f) = Factor_structure f.
Proof. intros H. unfold Factor_structure. simpl. now rewrite H. Qed.

Lemma Factor_potential_messages ms f :
  length ms = length (Factor.messages f) ->
  Factor_potential (Factor.set_messages ms f) = Factor_potential f.
Proof.
  intros H. unfold Factor_potential.
  now rewrite (Factor_structure_messages ms f H).
Qed.

Lemma Factor_potential_adj_beliefs bs f :
  length bs = length (Factor.adj_beliefs f) ->
  Factor_potential (Factor.set_adj_beliefs bs f) = Factor_potential f.
Proof.
  intros H. unfold Factor_potential.
  now rewrite (Factor_structure_adj_beliefs bs f H).
Qed.

Ltac keeps_structure_step :=
  first
    [ apply keeps_bind; [apply unchanged_trans| |intros ?]
    | apply keeps_get, unchanged_refl
    | apply keeps_lift, unchanged_refl
    | apply keeps_ret, unchanged_refl
    | apply keeps_modify; intros ?; reflexivity ].

Lemma robustify_loss_keeps : keeps (unchanged Factor_structure) robustify_loss.
Proof.
  intros f. rewrite robustify_loss_run.
  destruct (robust_update f) as [e|[new flag]]; reflexivity.
Qed.

Lemma linpoint_from_beliefs_keeps bs :
  keeps (unchanged Factor_structure) (linpoint_from_beliefs bs).
Proof.
  induction bs as [|b bs IH]; simpl; [apply keeps_ret, unchanged_refl|].
  repeat keeps_structure_step. exact IH.
Qed.

Lemma compute_factor_keeps linpoint update_self :
  keeps (unchanged Factor_structure) (compute_factor linpoint update_self).
Proof.
  unfold compute_factor. keeps_structure_step.
  - destruct linpoint as [x|]; repeat keeps_structure_step.
    apply linpoint_from_beliefs_keeps.
  - repeat keeps_structure_step. destruct update_self; keeps_structure_step.
Qed.

Lemma relinearise_factor_keeps beta min_linear_iters :
  keeps (unchanged Factor_structure) (relinearise_factor beta min_linear_iters).
Proof.
  unfold relinearise_factor. repeat keeps_structure_step.
  destruct (_ && _).
  - keeps_structure_step; [apply compute_factor_keeps|].
    repeat keeps_structure_step.
  - repeat keeps_structure_step.
Qed.

Lemma robustify_all_factors_keeps :
  keeps (heap_keeps Factor_structure) robustify_all_factors.
Proof.
  unfold robustify_all_factors.
  apply keeps_bind; [apply heap_keeps_trans|apply keeps_get, heap_keeps_refl|].
  intros h0.
  apply keeps_for_each; [apply heap_keeps_refl|apply heap_keeps_trans|].
  intros r. apply on_factor_keeps, robustify_loss_keeps.
Qed.

Lemma relinearise_factors_keeps :
  keeps (heap_keeps Factor_structure) relinearise_factors.
Proof.
  unfold relinearise_factors.
  apply keeps_bind; [apply heap_keeps_trans|apply keeps_get, heap_keeps_refl|].
  intros h0. destruct (FactorGraph.nonlinear_factors _);
    [|apply keeps_ret, heap_keeps_refl].
  apply keeps_for_each; [apply heap_keeps_refl|apply heap_keeps_trans|].
  intros r. apply on_factor_keeps.
  keeps_structure_step; [apply relinearise_factor_keeps|keeps_structure_step].
Qed.

Lemma compute_all_messages_keeps local_relin :
  keeps (heap_keeps Factor_structure) (compute_all_messages local_relin).
Proof.
  unfold compute_all_messages.
  apply keeps_bind; [apply heap_keeps_trans|apply keeps_get, heap_keeps_refl|].
  intros h0.
  apply keeps_for_each; [apply heap_keeps_refl|apply heap_keeps_trans|].
  intros r. destruct (_ && _); apply on_factor_keeps.
  - keeps_structure_step; [keeps_structure_step|].
    keeps_structure_step; [destruct (Z.eqb _ _); keeps_structure_step|].
    keeps_structure_step; [keeps_structure_step|].
    keeps_structure_step; [|keeps_structure_step].
    apply compute_messages_keeps, Factor_structure_messages.
  - keeps_structure_step; [|keeps_structure_step].
    apply compute_messages_keeps, Factor_structure_messages.
Qed.

(** X17.  Whatever its arguments and whether it returns or raises,
    [synchronous_iteration] leaves the structure of the graph alone: the
    graph object with its lists and settings, the id, neighbours, prior
    and size of every variable, and of every factor the id, the
    neighbours, the measurement model with its nominal variance, loss and
    threshold, and the number of belief slots and messages. *)
Theorem synchronous_iteration_keeps_structure local_relin robustify h :
  let h' := snd (synchronous_iteration local_relin robustify h) in
  graph h' = graph h /\
  (forall v, Variable_structure (var_obj h' v) = Variable_structure (var_obj h v)) /\
  (forall r, Factor_structure (factor_obj h' r) = Factor_structure (factor_obj h r)).
Proof.
  revert h. change (keeps (heap_keeps Factor_structure)
                      (synchronous_iteration local_relin robustify)).
  unfold synchronous_iteration.
  apply keeps_bind; [apply heap_keeps_trans| |intros _].
  { destruct robustify; [apply robustify_all_factors_keeps|].
    apply keeps_ret, heap_keeps_refl. }
  apply keeps_bind; [apply heap_keeps_trans|apply keeps_get, heap_keeps_refl|].
  intros h0.
  apply keeps_bind; [apply heap_keeps_trans| |intros _].
  { destruct (_ && _); [apply relinearise_factors_keeps|].
    apply keeps_ret, heap_keeps_refl. }
  apply keeps_bind; [apply heap_keeps_trans|apply compute_all_messages_keeps|].
  intros _. apply update_all_beliefs_keeps.
  apply Factor_structure_adj_beliefs.
Qed.

(** Without local relinearisation every factor computes its messages with
    the damping of the graph, and nothing else of it is assigned. *)
Lemma compute_all_messages_global local_relin h :
  FactorGraph.nonlinear_factors (graph h) && local_relin = false ->
  heap_keeps Factor_potential h (snd (compute_all_messages local_relin h)).
Proof.
  intros Hcond. unfold compute_all_messages, bind, get. cbv beta iota.
  rewrite Hcond.
  refine (keeps_for_each (heap_keeps Factor_potential) (heap_keeps_refl _)
            (heap_keeps_trans _) _ _ _ h).
  intros r. apply on_factor_keeps.
  apply keeps_bind; [apply unchanged_trans| |intros ?; apply keeps_ret, unchanged_refl].
  apply compute_messages_keeps, Factor_potential_messages.
Qed.

Lemma synchronous_iteration_global local_relin h :
  FactorGraph.nonlinear_factors (graph h) && local_relin = false ->
  heap_keeps Factor_potential h (snd (synchronous_iteration local_relin false h)).
Proof.
  intros Hcond.
  unfold synchronous_iteration, bind, ret, get. cbv beta iota.
  rewrite Hcond.
  pose proof (compute_all_messages_global local_relin h Hcond) as Hmsg.
  destruct (compute_all_messages local_relin h) as [[e|[]] h1]; [exact Hmsg|].
  apply (heap_keeps_trans _ _ h1); [exact Hmsg|].
  apply update_all_beliefs_keeps, Factor_potential_adj_beliefs.
Qed.

(** X18.  Without [robustify], and with [local_relin] off or a graph of
    linear factors, [synchronous_iteration] moves messages and beliefs
    only: of every factor the stored factor, the linearisation point, the
    adaptive variance, the flag, the damping and the counter of iterations
    are as before, whether it returns or raises; the damping used is the
    one of the graph. *)
Theorem synchronous_iteration_global_keeps_potentials local_relin h :
  FactorGraph.nonlinear_factors (graph h) && local_relin = false ->
  let h' := snd (synchronous_iteration local_relin false h) in
  forall r, Factor_potential (factor_obj h' r) = Factor_potential (factor_obj h r).
Proof.
  intros Hcond h'. apply (synchronous_iteration_global local_relin h Hcond).
Qed.

Lemma synchronous_iteration_global_keeps_potentials_witness :
  Factor_potential
    (factor_obj (snd (synchronous_iteration false false heap_zero_residual)) 0%nat) =
  Factor_potential (factor_obj heap_zero_residual 0%nat).
Proof.
  apply (synchronous_iteration_global_keeps_potentials false heap_zero_residual).
  reflexivity.
Defined.

(** ** The message of a factor with one neighbour *)

Lemma vsub_zeros v (z : vec) :
  length z = length v -> Forall (fun x => x = 0) z -> vsub v z = v.
Proof.
  revert z. induction v as [|a v IH]; intros [|b z] Hlen Hz; try discriminate;
    [reflexivity|].
  apply Forall_cons in Hz as [-> Hz]. unfold vsub in *. simpl. f_equal; [lra|].
  apply IH; [now injection Hlen|exact Hz].
Qed.

Lemma msub_zeros (A Z : mat) :
  Forall2 (fun row z => length z = length row /\ Forall (fun x => x = 0) z) A Z ->
  msub A Z = A.
Proof.
  induction 1 as [|row z A Z [Hlen Hz] _ IH]; [reflexivity|].
  unfold msub in *. simpl. f_equal; [now apply vsub_zeros|exact IH].
Qed.

Lemma map_slice_all n (A : mat) :
  Forall (fun row => length row = n) A -> map (slice 0 n) A = A.
Proof.
  induction 1 as [|row A Hrow _ IH]; [reflexivity|]. simpl. f_equal; [|exact IH].
  unfold slice. rewrite drop_0, Nat.sub_0_r. apply take_ge. lia.
Qed.

Lemma zip_with_outside n (A : mat) :
  Forall (fun row => length row = n) A ->
  zip_with app (map (take 0) A) (map (drop n) A) = map (fun _ => []) A.
Proof.
  induction 1 as [|row A Hrow _ IH]; [reflexivity|]. simpl. f_equal; [|exact IH].
  apply drop_ge. lia.
Qed.

(** The message to the only neighbour, computed by [outgoing]: nothing is
    marginalised out, the Schur complement is the factor itself. *)
Lemma outgoing_single_neighbour vobj d f node old :
  Factor.adj_var_nodes f = [node] ->
  length (Factor.adj_vIDs f) = 1%nat ->
  Factor.messages f !! 0%nat = Some old ->
  length (eta (Factor.factor f)) = VariableNode.dofs (vobj node) ->
  square (VariableNode.dofs (vobj node)) (lam (Factor.factor f)) ->
  outgoing vobj d f 0 0 =
    Ok (mkGaussian
          (vadd (vscale (1 - d) (eta (Factor.factor f))) (vscale d (eta old)))
          (lam (Factor.factor f))).
Proof.
  intros Hnodes Hids Hold Heta [Hrows Hcols].
  unfold outgoing. rewrite Hids, Hnodes. simpl. rewrite Hnodes. simpl.
  set (n := VariableNode.dofs (vobj node)) in *.
  set (e := eta (Factor.factor f)) in *. set (L := lam (Factor.factor f)) in *.
  assert (HsL : slice 0 n L = L).
  { unfold slice. rewrite drop_0, Nat.sub_0_r. apply take_ge. lia. }
  assert (HdL : drop n L = []) by (apply drop_ge; lia).
  rewrite HsL, HdL. simpl. rewrite inv_nil. simpl. rewrite Hold. simpl.
  f_equal. f_equal.
  - f_equal. f_equal. unfold slice. rewrite drop_0, Nat.sub_0_r.
    rewrite take_ge by lia. rewrite (zip_with_outside n L Hcols).
    apply vsub_zeros.
    + unfold mat_vec, mmul, mmulc. rewrite !length_map. lia.
    + unfold mat_vec, mmul, mmulc. simpl. rewrite !map_map.
      apply Forall_forall. intros x Hx. apply list_elem_of_fmap in Hx as (row & -> & _).
      reflexivity.
  - rewrite (map_slice_all n L Hcols). apply msub_zeros.
    rewrite (zip_with_outside n L Hcols).
    unfold mmulc, mmul, mmulc. simpl. rewrite !map_map.
    assert (Hw : length (slice 0 n (hd [] L)) = n).
    { unfold slice. rewrite drop_0, Nat.sub_0_r.
      destruct L as [|row L']; simpl in *; [now rewrite take_nil|].
      apply Forall_cons in Hcols as [Hrow _]. rewrite take_ge by lia. exact Hrow. }
    rewrite Hw. clear -Hcols.
    induction Hcols as [|row L' Hrow _ IH]; simpl; constructor; [|exact IH].
    split; [now rewrite length_map, length_seq|].
    apply Forall_forall. intros x Hx. apply list_elem_of_fmap in Hx as (j & -> & _).
    reflexivity.
Qed.

(** X19.  A factor with a single neighbour, whose stored factor has the
    size of that neighbour, sends the neighbour its own factor: the
    precision of the message is [factor.lam], its [eta] is [factor.eta]
    damped against the [eta] of the message sent before, and the precision
    is what the sink is handed. *)
Theorem compute_messages_single_neighbour vobj d f node old :
  Factor.adj_var_nodes f = [node] ->
  length (Factor.adj_vIDs f) = 1%nat ->
  Factor.messages f = [old] ->
  length (eta (Factor.factor f)) = VariableNode.dofs (vobj node) ->
  square (VariableNode.dofs (vobj node)) (lam (Factor.factor f)) ->
  compute_messages vobj d f =
    (Ok [push_kf (lam (Factor.factor f))],
     Factor.set_messages
       [mkGaussian
          (vadd (vscale (1 - d) (eta (Factor.factor f))) (vscale d (eta old)))
          (lam (Factor.factor f))] f).
Proof.
  intros Hnodes Hids Hold Heta Hsq.
  assert (Hout := outgoing_single_neighbour vobj d f node old Hnodes Hids
                    ltac:(now rewrite Hold) Heta Hsq).
  unfold compute_messages, bind, get. cbv beta iota zeta. rewrite Hids. simpl.
  unfold bind, get, lift. cbv beta iota. rewrite Hout. cbv beta iota.
  rewrite Hnodes. simpl. unfold commit_message, bind, get, lift. simpl.
  rewrite Hold. simpl. reflexivity.
Qed.

Lemma compute_messages_single_neighbour_witness :
  compute_messages (fun _ => var_unit_prior 0 [0%nat]) 0.5 factor_huber =
    (Ok [push_kf [[1]]],
     Factor.set_messages
       [mkGaussian (vadd (vscale (1 - 0.5) [10]) (vscale 0.5 [0])) [[1]]]
       factor_huber).
Proof.
  apply (compute_messages_single_neighbour _ 0.5 factor_huber 0%nat
           (NdimGaussian_init 1)).
  - reflexivity.
  - reflexivity.
  - reflexivity.
  - reflexivity.
  - split; [reflexivity|]. repeat constructor.
Defined.

(** ** Damping *)

(** [compute_messages] in terms of the messages computed from the factor
    at entry. *)
Lemma compute_messages_run vobj d f :
  match messages_from vobj d f (seq 0 (length (Factor.adj_vIDs f))) with
  | inl e => compute_messages vobj d f = (Raise e, f)
  | inr computed =>
      exists evs,
        compute_messages vobj d f =
          (Ok evs,
           Factor.set_messages
             (computed ++ drop (length (Factor.adj_vIDs f)) (Factor.messages f)) f)
  end.
Proof.
  set (k := length (Factor.adj_vIDs f)).
  assert (Hloop := messages_loop_run vobj d f k 0%nat []).
  change (block_start vobj f 0) with 0%nat in Hloop.
  destruct (messages_from vobj d f (seq 0 k)) as [e|computed] eqn:Hfrom.
  - unfold compute_messages, bind, get. cbv beta iota zeta. fold k.
    now rewrite Hloop.
  - destruct (messages_from_length _ _ _ _ _ Hfrom) as [Hlen Hlt].
    rewrite length_seq in Hlen.
    assert (Hk : (k <= length (Factor.messages f))%nat).
    { destruct k as [|k']; [lia|]. specialize (Hlt k').
      rewrite elem_of_seq in Hlt. lia. }
    destruct (commit_any_order computed f (seq 0 k)) as [evs Hevs];
      [assumption|assumption|reflexivity|].
    exists evs. unfold compute_messages, bind, get. cbv beta iota zeta. fold k.
    rewrite Hloop. simpl. exact Hevs.
Qed.

Lemma outgoing_damping vobj d1 d2 f v sd :
  match outgoing vobj d1 f v sd, outgoing vobj d2 f v sd with
  | inl e1, inl e2 => e1 = e2
  | inr m1, inr m2 => lam m1 = lam m2
  | _, _ => False
  end.
Proof.
  unfold outgoing. destruct (cavity _ _ _ _ _ _) as [e|fac]; [reflexivity|].
  simpl. destruct (Factor.adj_var_nodes f !! v) as [node|]; [|reflexivity].
  simpl. destruct (inv _) as [e|li]; [reflexivity|]. simpl.
  destruct (Factor.messages f !! v) as [old|]; reflexivity.
Qed.

Lemma messages_from_damping vobj d1 d2 f vs :
  match messages_from vobj d1 f vs, messages_from vobj d2 f vs with
  | inl e1, inl e2 => e1 = e2
  | inr ms1, inr ms2 => map lam ms1 = map lam ms2
  | _, _ => False
  end.
Proof.
  induction vs as [|v vs IH]; simpl; [reflexivity|]. unfold message_from.
  pose proof (outgoing_damping vobj d1 d2 f v (block_start vobj f v)) as Hv.
  destruct (outgoing vobj d1 f v _) as [e1|m1], (outgoing vobj d2 f v _) as [e2|m2];
    try contradiction; [exact Hv|]. simpl.
  destruct (messages_from vobj d1 f vs) as [e1|ms1],
           (messages_from vobj d2 f vs) as [e2|ms2];
    try contradiction; [exact IH|]. simpl. now rewrite Hv, IH.
Qed.

(** X20.  The damping enters the [eta] of the messages only: with two
    values of [eta_damping], [compute_messages] raises the same exception,
    leaving the factor as it was, or returns with the same precision in
    every message. *)
Theorem compute_messages_damping_keeps_precision vobj d1 d2 f :
  match compute_messages vobj d1 f, compute_messages vobj d2 f with
  | (inl e1, f1), (inl e2, f2) => e1 = e2 /\ f1 = f /\ f2 = f
  | (inr _, f1), (inr _, f2) =>
      map lam (Factor.messages f1) = map lam (Factor.messages f2)
  | _, _ => False
  end.
Proof.
  pose proof (compute_messages_run vobj d1 f) as H1.
  pose proof (compute_messages_run vobj d2 f) as H2.
  pose proof (messages_from_damping vobj d1 d2 f
                (seq 0 (length (Factor.adj_vIDs f)))) as Hd.
  destruct (messages_from vobj d1 f _) as [e1|ms1],
           (messages_from vobj d2 f _) as [e2|ms2]; try contradiction.
  - rewrite H1, H2. auto.
  - destruct H1 as [evs1 ->], H2 as [evs2 ->]. simpl.
    now rewrite !map_app, Hd.
Qed.

(** ** The joint distribution under message passing *)

Lemma layout_loop_cong vobj1 vobj2 vars :
  (forall v, Variable_structure (vobj2 v) = Variable_structure (vobj1 v)) ->
  forall acc, layout_loop vobj2 vars acc = layout_loop vobj1 vars acc.
Proof.
  intros Hv. induction vars as [|r vars IH]; intros acc; [reflexivity|].
  simpl. unfold layout_step. specialize (Hv r). injection Hv as Hid Hadj Hprior Hdofs.
  rewrite Hid, Hprior, Hdofs. destruct (Nat.ltb _ _); simpl; [apply IH|reflexivity].
Qed.

Lemma off_diagonal_cong vobj1 vobj2 ix fl vID v_dofs factor_ix others :
  (forall v, Variable_structure (vobj2 v) = Variable_structure (vobj1 v)) ->
  forall ofi lam,
    off_diagonal vobj2 ix fl vID v_dofs factor_ix others ofi lam =
    off_diagonal vobj1 ix fl vID v_dofs factor_ix others ofi lam.
Proof.
  intros Hv. induction others as [|o others IH]; intros ofi lam; [reflexivity|].
  simpl. pose proof (Hv o) as Ho. injection Ho as Hid Hadj Hprior Hdofs.
  rewrite Hid, Hdofs. destruct (Nat.ltb _ _).
  - destruct (ix vID); simpl; [|reflexivity].
    destruct (ix _); simpl; [|reflexivity]. apply IH.
  - simpl. apply IH.
Qed.

Lemma add_blocks_cong vobj1 vobj2 ix f1 f2 adj :
  (forall v, Variable_structure (vobj2 v) = Variable_structure (vobj1 v)) ->
  Factor.factor f2 = Factor.factor f1 ->
  Factor.adj_var_nodes f2 = Factor.adj_var_nodes f1 ->
  forall factor_ix acc,
    add_blocks vobj2 ix f2 adj factor_ix acc = add_blocks vobj1 ix f1 adj factor_ix acc.
Proof.
  intros Hv Hf Hn. induction adj as [|a adj IH]; intros factor_ix acc; [reflexivity|].
  simpl. pose proof (Hv a) as Ha. injection Ha as Hid Hadj Hprior Hdofs.
  rewrite Hid, Hdofs, Hf, Hn. destruct (ix _) as [ix_v|]; simpl; [|reflexivity].
  rewrite (off_diagonal_cong vobj1 vobj2) by exact Hv.
  destruct (off_diagonal _ _ _ _ _ _ _ _ _); simpl; [reflexivity|]. apply IH.
Qed.

Lemma add_factors_cong vobj1 vobj2 fobj1 fobj2 ix fs :
  (forall v, Variable_structure (vobj2 v) = Variable_structure (vobj1 v)) ->
  (forall r, Factor_potential (fobj2 r) = Factor_potential (fobj1 r)) ->
  forall acc, add_factors vobj2 fobj2 ix fs acc = add_factors vobj1 fobj1 ix fs acc.
Proof.
  intros Hv Hf. induction fs as [|r fs IH]; intros acc; [reflexivity|].
  simpl. pose proof (Hf r) as Hr. unfold Factor_potential, Factor_structure in Hr.
  assert (Hfac : Factor.factor (fobj2 r) = Factor.factor (fobj1 r)) by congruence.
  assert (Hn : Factor.adj_var_nodes (fobj2 r) = Factor.adj_var_nodes (fobj1 r))
    by congruence.
  rewrite Hn. rewrite (add_blocks_cong vobj1 vobj2 ix (fobj1 r) (fobj2 r)) by assumption.
  destruct (add_blocks _ _ _ _ _ _); simpl; [reflexivity|]. apply IH.
Qed.

(** The joint distribution reads the graph, the priors and the stored
    factors, and neither messages nor beliefs. *)
Lemma joint_distribution_inf_cong h h' :
  heap_keeps Factor_potential h h' ->
  joint_distribution_inf h' = joint_distribution_inf h.
Proof.
  intros (Hg & Hv & Hf). unfold joint_distribution_inf. rewrite Hg.
  rewrite (layout_loop_cong (var_obj h) (var_obj h')) by exact Hv.
  destruct (layout_loop _ _ _) as [e|l]; [reflexivity|]. simpl.
  now apply add_factors_cong.
Qed.

Lemma in_id_order_kept {B} (P : Factor.t -> B) h h' :
  heap_keeps P h h' -> in_id_order h -> in_id_order h'.
Proof.
  intros (Hg & Hv & _) Hord i r Hi. rewrite Hg in Hi.
  pose proof (Hv r) as Hr. injection Hr as Hid _ _ _. rewrite Hid. now apply Hord.
Qed.

Lemma data_model_kept h h' :
  heap_keeps Factor_potential h h' -> data_model h -> data_model h'.
Proof.
  intros (Hg & Hv & Hf) [Hpriors Hfactors].
  assert (Hdofs : forall r, VariableNode.dofs (var_obj h' r) = VariableNode.dofs (var_obj h r)).
  { intros r. pose proof (Hv r) as Hr. now injection Hr. }
  split.
  - intros r Hr. rewrite Hg in Hr. pose proof (Hv r) as Hvr.
    injection Hvr as _ _ Hprior Hd. rewrite Hprior, Hd. now apply Hpriors.
  - intros fr Hfr. rewrite Hg in Hfr |- *. cbv zeta.
    pose proof (Hf fr) as Hp. unfold Factor_potential, Factor_structure in Hp.
    assert (Hn : Factor.adj_var_nodes (factor_obj h' fr) =
                 Factor.adj_var_nodes (factor_obj h fr)) by congruence.
    assert (Hfac : Factor.factor (factor_obj h' fr) = Factor.factor (factor_obj h fr))
      by congruence.
    rewrite Hn, Hfac.
    rewrite (map_ext _ (fun r => VariableNode.dofs (var_obj h r)) Hdofs).
    apply (Hfactors fr Hfr).
Qed.

(** X21.  Message passing does not move the joint distribution.  Take a
    graph of the data model, listed in id order, with no or several
    variables (with a single one the array returned is the [lam] of its
    prior itself, which the additions of the factors then change).  After
    a [synchronous_iteration] without [robustify] and without local
    relinearisation, returned or raised, the graph is still such a graph,
    and [joint_distribution_inf] and [joint_distribution_cov] give what
    they gave before it. *)
Theorem joint_distribution_kept_by_iteration local_relin h :
  FactorGraph.nonlinear_factors (graph h) && local_relin = false ->
  in_id_order h ->
  data_model h ->
  length (FactorGraph.var_nodes (graph h)) <> 1%nat ->
  let h' := snd (synchronous_iteration local_relin false h) in
  in_id_order h' /\ data_model h' /\
  FactorGraph.var_nodes (graph h') = FactorGraph.var_nodes (graph h) /\
  joint_distribution_inf h' = joint_distribution_inf h /\
  joint_distribution_cov h' = joint_distribution_cov h.
Proof.
  intros Hcond Hord Hdm _ h'.
  pose proof (synchronous_iteration_global local_relin h Hcond) as Hkeep.
  fold h' in Hkeep.
  assert (Hinf : joint_distribution_inf h' = joint_distribution_inf h)
    by now apply joint_distribution_inf_cong.
  split; [now apply (in_id_order_kept Factor_potential h h')|].
  split; [now apply (data_model_kept h h')|].
  split; [destruct Hkeep as [Hg _]; now rewrite Hg|].
  split; [exact Hinf|]. unfold joint_distribution_cov. now rewrite Hinf.
Qed.

Lemma joint_distribution_kept_by_iteration_witness :
  joint_distribution_inf (snd (synchronous_iteration false false heap_difference)) =
    joint_distribution_inf heap_difference /\
  joint_distribution_cov (snd (synchronous_iteration false false heap_difference)) =
    joint_distribution_cov heap_difference.
Proof.
  destruct (joint_distribution_kept_by_iteration false heap_difference)
    as (_ & _ & _ & Hinf & Hcov).
  - reflexivity.
  - intros i r Hi. destruct i as [|[|i]]; simpl in Hi; try discriminate;
      injection Hi as <-; reflexivity.
  - split.
    + intros r _. destruct r as [|r]; repeat split; repeat constructor.
    + intros fr _. simpl. split.
      * repeat constructor; rewrite ?elem_of_cons, ?elem_of_nil; lia.
      * split; [|repeat split; repeat constructor].
        intros r Hr. rewrite !elem_of_cons, elem_of_nil in Hr |- *. tauto.
  - simpl. lia.
  - split; [exact Hinf|exact Hcov].
Defined.

(** ** The means *)

Lemma same_means_refl h : same_means h h.
Proof. now split. Qed.

Lemma same_means_trans a b c : same_means a b -> same_means b c -> same_means a c.
Proof.
  intros [Hg1 Hm1] [Hg2 Hm2]. split; [congruence|]. intros v.
  now rewrite Hm2.
Qed.

Lemma same_means_get_means h h' : same_means h h' -> get_means h' = get_means h.
Proof.
  intros [Hg Hm]. unfold get_means. rewrite Hg. f_equal.
  apply map_ext. intros v. apply Hm.
Qed.

Lemma on_factor_same_means {A} r (m : M Factor.t A) : keeps same_means (on_factor r m).
Proof.
  intros h. unfold on_factor. destruct (m (factor_obj h r)) as [res f'].
  now split.
Qed.

Lemma for_each_on_factor_same_means {A} fs (body : FRef -> M Factor.t A) :
  keeps same_means (for_each fs (fun r => on_factor r (body r ;;; ret tt))).
Proof.
  apply keeps_for_each; [apply same_means_refl|apply same_means_trans|].
  intros r. apply on_factor_same_means.
Qed.

Lemma collect_outliers_same_means tmp losses : forall idx ids,
  keeps same_means (collect_outliers tmp idx losses ids).
Proof.
  induction losses as [|x losses IH]; intros idx ids; simpl.
  - apply keeps_ret, same_means_refl.
  - destruct (Rgtb x 300); [|apply IH].
    apply keeps_bind; [apply same_means_trans|apply keeps_lift, same_means_refl|].
    intros r. apply keeps_bind_get. intros h.
    unfold bind, lift. destruct (of_option _ _) as [e|fs]; [apply same_means_refl|].
    unfold put. apply (same_means_trans _ (set_graph (FactorGraph.set_factors fs (graph h)) h));
      [now split|apply IH].
Qed.

Lemma prune_var_same_means ids v : keeps same_means (prune_var ids v).
Proof.
  intros h. unfold prune_var.
  destruct (prune_adj _ v ids 0 h) as [res h'] eqn:Hrun. simpl.
  pose proof (prune_adj_fields _ _ _ _ _ _ _ Hrun) as Hfld.
  apply prune_adj_keeps in Hrun as (_ & Hg & Hv & _ & _).
  split; [now rewrite Hg|]. intros v'.
  destruct (Nat.eq_dec v' v) as [->|Hne]; [now rewrite Hfld|now rewrite Hv].
Qed.

Lemma remove_outlier_same_means losses : keeps same_means (remove_outlier losses).
Proof.
  unfold remove_outlier.
  apply keeps_bind; [apply same_means_trans|apply keeps_get, same_means_refl|].
  intros h0.
  apply keeps_bind; [apply same_means_trans|apply collect_outliers_same_means|].
  intros ids.
  apply keeps_bind; [apply same_means_trans|apply keeps_get, same_means_refl|].
  intros h1.
  apply keeps_for_each; [apply same_means_refl|apply same_means_trans|].
  intros v. apply prune_var_same_means.
Qed.

(** X22.  The means [get_means] returns move in [update_belief] only:
    [robustify_all_factors], [relinearise_factors], [compute_all_factors],
    [compute_all_messages] and [remove_outlier] leave them as they are,
    whether they return or raise. *)
Theorem get_means_moved_by_beliefs_only h :
  get_means (snd (robustify_all_factors h)) = get_means h /\
  get_means (snd (relinearise_factors h)) = get_means h /\
  get_means (snd (compute_all_factors h)) = get_means h /\
  (forall local_relin, get_means (snd (compute_all_messages local_relin h)) = get_means h) /\
  (forall losses, get_means (snd (remove_outlier losses h)) = get_means h).
Proof.
  split; [|split; [|split; [|split]]].
  - apply same_means_get_means. unfold robustify_all_factors.
    apply keeps_bind_get. intros h0.
    apply keeps_for_each; [apply same_means_refl|apply same_means_trans|].
    intros r. apply on_factor_same_means.
  - apply same_means_get_means. unfold relinearise_factors.
    apply keeps_bind_get. intros h0.
    destruct (FactorGraph.nonlinear_factors _); [|apply same_means_refl].
    apply for_each_on_factor_same_means.
  - apply same_means_get_means. unfold compute_all_factors.
    apply keeps_bind_get. intros h0. apply for_each_on_factor_same_means.
  - intros local_relin. apply same_means_get_means. unfold compute_all_messages.
    apply keeps_bind_get. intros h0.
    apply keeps_for_each; [apply same_means_refl|apply same_means_trans|].
    intros r. destruct (_ && _); apply on_factor_same_means.
  - intros losses. apply same_means_get_means, remove_outlier_same_means.
Qed.

(** ** Damping under local relinearisation *)

(** X23.  With local relinearisation on a graph of non-linear factors,
    [compute_all_messages] switches the damping of a factor to the one of
    the graph exactly when its counter equals [num_undamped_iters], leaves
    the damping of every other factor as it is, and computes the messages
    of each factor with the damping the factor then holds, not with the
    one of the graph. *)
Theorem compute_all_messages_arms_damping h h' :
  FactorGraph.nonlinear_factors (graph h) = true ->
  NoDup (FactorGraph.factors (graph h)) ->
  compute_all_messages true h = (Ok tt, h') ->
  (forall r, r ∈ FactorGraph.factors (graph h) ->
     let f := factor_obj h r in
     let d := if Z.eqb (Factor.iters_since_relin f)
                       (FactorGraph.num_undamped_iters (graph h))
              then FactorGraph.eta_damping (graph h) else Factor.eta_damping f in
     Factor.eta_damping (factor_obj h' r) = d /\
     exists evs,
       compute_messages (var_obj h) d (Factor.set_eta_damping d f) =
         (Ok evs, factor_obj h' r)) /\
  (forall r, r ∉ FactorGraph.factors (graph h) -> factor_obj h' r = factor_obj h r).
Proof.
  intros Hnl Hnd. unfold compute_all_messages, bind at 1, get. cbv beta iota zeta.
  rewrite Hnl. cbn [andb]. intros Hrun.
  apply for_each_on_factor in Hrun as (_ & _ & Hin & Hout); [|exact Hnd].
  split; [|exact Hout]. intros r Hr. specialize (Hin r Hr).
  set (f := factor_obj h r) in *.
  set (d := if Z.eqb (Factor.iters_since_relin f)
                     (FactorGraph.num_undamped_iters (graph h))
            then FactorGraph.eta_damping (graph h) else Factor.eta_damping f).
  unfold bind at 1, get in Hin. cbv beta iota in Hin.
  assert (Harm : (if Z.eqb (Factor.iters_since_relin f)
                           (FactorGraph.num_undamped_iters (graph h))
                  then modify (Factor.set_eta_damping (FactorGraph.eta_damping (graph h)))
                  else ret tt) f = (Ok tt, Factor.set_eta_damping d f)).
  { unfold d. destruct (Z.eqb _ _); [reflexivity|]. now destruct f. }
  unfold bind at 1 in Hin. rewrite Harm in Hin.
  unfold bind at 1, get in Hin. cbv beta iota in Hin.
  change (Factor.eta_damping (Factor.set_eta_damping d f)) with d in Hin.
  unfold bind in Hin.
  pose proof (compute_messages_keeps Factor_potential Factor_potential_messages
                (var_obj h) d) as Hkeep.
  unfold keeps in Hkeep. specialize (Hkeep (Factor.set_eta_damping d f)).
  destruct (compute_messages (var_obj h) d (Factor.set_eta_damping d f))
    as [[e|evs] f1]; [discriminate|].
  injection Hin as <-. split; [|now exists evs].
  unfold unchanged, Factor_potential in Hkeep. simpl in Hkeep. congruence.
Qed.

Lemma compute_all_messages_arms_damping_witness :
  exists h',
    compute_all_messages true heap_armed = (Ok tt, h') /\
    Factor.eta_damping (factor_obj heap_armed 0%nat) = 0 /\
    Factor.eta_damping (factor_obj h' 0%nat) = 0.5 /\
    Factor.eta_damping (factor_obj h' 1%nat) = 0 /\
    exists evs,
      compute_messages (var_obj heap_armed) 0.5
        (Factor.set_eta_damping 0.5 (factor_obj heap_armed 0%nat)) =
        (Ok evs, factor_obj h' 0%nat).
Proof.
  assert (Hrun : exists h', compute_all_messages true heap_armed = (Ok tt, h')).
  { unfold compute_all_messages, bind, get, on_factor. simpl.
    do 4 (unfold compute_messages, commit_message, bind, get, lift, put, ret,
            outgoing, fupd; simpl; rewrite ?inv_nil; simpl).
    eexists. reflexivity. }
  destruct Hrun as [h' Hrun]. exists h'. split; [exact Hrun|].
  split; [reflexivity|].
  destruct (compute_all_messages_arms_damping heap_armed h' eq_refl) as [Hin _].
  - simpl. repeat constructor; rewrite ?elem_of_cons, ?elem_of_nil; lia.
  - exact Hrun.
  - destruct (Hin 0%nat) as [Hd0 Hev0]; [simpl; left|].
    destruct (Hin 1%nat) as [Hd1 _]; [simpl; right; left|].
    split; [exact Hd0|]. split; [exact Hd1|]. exact Hev0.
Defined.
